(** * gh-stale-repos: the stale-repository scanner

    A shallow embedding of [gh-stale-repos.ts] (the current program, with the
    ignore list and the early stop) and of its two earlier versions, followed
    by the properties of the pagination-and-filtering pipeline.

    JavaScript values are modelled as follows.
    - A [Date] object is its time value: [Some ms] (milliseconds since the
      epoch) or [None] for an Invalid Date (time value NaN).
    - Numbers that the program handles (commit counts, thresholds, days,
      disk usage) are integers, modelled in [Z].
    - Strings are [string] (sequences of 8-bit characters);
      [null]/[undefined] is [None].
    - The asynchronous top level is sequential: one effect at a time, in
      program order.  Effects are recorded as a trace of [Event]s.
    - The remote source answers a request by its content (token,
      organisation, cursor): [fetch] is a function of the request.
    - [while] loops take fuel; running out of it is the outcome
      [OutOfFuel], which stands for a loop that has not ended yet.

    The functions of date-fns ([parseISO], [isBefore], [isAfter], [subDays],
    [format]) and of the platform ([JSON.stringify], [JSON.parse],
    [String.prototype.trim]) are modelled after their documentation;
    [parseISO] and [Date.parse] are left to the [World]. *)

From Stdlib Require Import ZArith Lia Ascii String List Bool.
From Stdlib Require Import DecimalString DecimalFacts DecimalPos DecimalZ.
From stdpp Require Import base option list gmap strings.

Local Open Scope Z_scope.
#[local] Set Warnings "-register-all".

(** ** JavaScript values and operators used by the program *)

Module Js.

Inductive Error := TypeError | RangeError | SyntaxError.

(** [!s] is false exactly for a non-empty string. *)
Definition truthy (s : option string) : bool :=
  match s with
  | Some s => negb (String.eqb s "")
  | None => false
  end.

(** [a || b] where [b] is a string: [a] unless it is falsy. *)
Definition or_str (a : option string) (b : string) : string :=
  match a with
  | Some s => if String.eqb s "" then b else s
  | None => b
  end.

(** [a || b] where [b] may itself be absent. *)
Definition or_opt (a b : option string) : option string :=
  if truthy a then a else b.

(** [n || 0] on numbers: [undefined] and [0] are falsy. *)
Definition or_zero (n : option Z) : Z :=
  match n with
  | Some n => n
  | None => 0
  end.

End Js.

(** ** Dates: the time value, the local time zone and date-fns *)

Definition Date := option Z.

Definition msPerDay : Z := 86400000.

(** ECMAScript TimeClip: time values beyond 8.64e15 ms are NaN. *)
Definition TimeClip (t : Z) : Date :=
  if Z.abs t <=? 8640000000000000 then Some t else None.

(** date-fns [isBefore(date, dateToCompare)]: [+date < +dateToCompare];
    a comparison with NaN is false. *)
Definition isBefore (date dateToCompare : Date) : bool :=
  match date, dateToCompare with
  | Some d, Some c => d <? c
  | _, _ => false
  end.

(** date-fns [isAfter(date, dateToCompare)]: [+date > +dateToCompare]. *)
Definition isAfter (date dateToCompare : Date) : bool :=
  match date, dateToCompare with
  | Some d, Some c => c <? d
  | _, _ => false
  end.

(** ** The data returned by the remote source (the GraphQL query's shape) *)

Record User := { login : string }.

Record GitActor := {
  actor_name : option string;
  email : option string;
  user : option User
}.

Record Commit := {
  committedDate : string;
  author : option GitActor
}.

Record History := {
  totalCount : Z;
  history_nodes : option (list (option Commit))
}.

(** [history] is absent when the target is not a commit. *)
Record GitObject := { history : option History }.

Record Ref := { target : option GitObject }.

Module Repo.
Record t := {
  name : string;
  pushedAt : string;
  diskUsage : option Z;
  defaultBranchRef : option Ref
}.
End Repo.

Record PageInfo := {
  endCursor : option string;
  hasNextPage : bool
}.

Record Repositories := {
  nodes : list Repo.t;
  pageInfo : PageInfo
}.

(** A request carries the bearer token, the organisation and the cursor. *)
Record Request := {
  authorization : string;
  var_org : string;
  var_cursor : option string
}.

(** What [fetch] and the reading of the body give:
    - [NetworkFailure]: the promise of [fetch] rejects;
    - [NotOk text]: [res.ok] is false, [res.text()] is [text];
    - [Ok None]: [res.ok] holds but [data.data.organization.repositories]
      cannot be read (no organisation, or a body that is not JSON);
    - [Ok (Some repos)]: one page. *)
Inductive Response :=
| NetworkFailure
| NotOk (text : string)
| Ok (repositories : option Repositories).

(** ** Result records *)

Module StaleRepo.
Record t := {
  name : string;
  pushedAt : string;
  commits : Z;
  size : string;
  lastCommitDate : string;
  lastCommitAuthor : string;
  lastCommitAuthorEmail : string
}.
End StaleRepo.

(** ** Effects: a trace of events and the way a computation ends *)

Inductive Event :=
| ConsoleLog (line : string)
| ConsoleError (line : string)
| Fetch (req : Request)
| ReadTextFile (path : string)
| WriteTextFile (path content : string)
| WriteCSV (path : string) (rows : list (list (string * string)))
| TableRender (header : list string) (rows : list (list string)).

(** A computation returns a value, leaves through [Deno.exit], dies of an
    uncaught exception, or is cut by the fuel of the model. *)
Inductive Outcome (A : Type) :=
| Ret (a : A)
| Exit (code : Z)
| Uncaught (e : Js.Error)
| OutOfFuel.
Arguments Ret {A} a.
Arguments Exit {A} code.
Arguments Uncaught {A} e.
Arguments OutOfFuel {A}.

(** The events emitted, oldest first, and the outcome. *)
Definition M (A : Type) : Type := list Event * Outcome A.

Definition ret {A} (a : A) : M A := ([], Ret a).
Definition emit (e : Event) : M unit := ([e], Ret tt).
Definition exit {A} (code : Z) : M A := ([], Exit code).
Definition throw {A} (e : Js.Error) : M A := ([], Uncaught e).
Definition out_of_fuel {A} : M A := ([], OutOfFuel).

Definition bind {A B} (m : M A) (k : A -> M B) : M B :=
  match m with
  | (es, Ret a) => let '(es', o) := k a in (es ++ es', o)
  | (es, Exit code) => (es, Exit code)
  | (es, Uncaught e) => (es, Uncaught e)
  | (es, OutOfFuel) => (es, OutOfFuel)
  end.

Declare Scope js_scope.
Delimit Scope js_scope with js.
Notation "x <- m ;; k" := (bind m (fun x => k))
  (at level 100, m at next level, k at level 200, right associativity)
  : js_scope.
Notation "m ;; k" := (bind m (fun _ => k))
  (at level 100, k at level 200, right associativity) : js_scope.
Local Open Scope js_scope.

Definition trace {A} (m : M A) : list Event := fst m.
Definition outcome {A} (m : M A) : Outcome A := snd m.

Definition console_log (s : string) : M unit := emit (ConsoleLog s).
Definition console_error (s : string) : M unit := emit (ConsoleError s).

(** ** Number to string *)

(** [String(n)] for an integer [n]: decimal digits, a leading [-] for a
    negative number (the program's integers stay far below 1e21, where
    JavaScript switches to the exponent form). *)
Definition Number_toString (n : Z) : string :=
  DecimalString.NilZero.string_of_int (Z.to_int n).

Fixpoint repeat0 (n : nat) : string :=
  match n with
  | O => ""
  | S n => String "0" (repeat0 n)
  end.

(** [s.padStart(targetLength, "0")] *)
Definition padStart0 (s : string) (targetLength : nat) : string :=
  repeat0 (targetLength - String.length s) +:+ s.

(** date-fns [addLeadingZeros(number, targetLength)] *)
Definition addLeadingZeros (number : Z) (targetLength : nat) : string :=
  let sign := if number <? 0 then "-" else "" in
  sign +:+ padStart0 (Number_toString (Z.abs number)) targetLength.

(** ** The calendar of ECMAScript dates *)

(** [Day(t)]: the day number of a time value. *)
Definition Day (t : Z) : Z := t / msPerDay.

(** Year, month (1 to 12) and day of the month (1 to 31) of a day number in
    the proleptic Gregorian calendar, in closed form over the 400-year cycle
    counted from 1 March of year 0; these are ECMAScript's [YearFromTime],
    [MonthFromTime] + 1 and [DateFromTime]. *)
Definition civil_from_days (days : Z) : Z * Z * Z :=
  let z := days + 719468 in
  let era := z / 146097 in
  let doe := z - era * 146097 in
  let yoe := (doe - doe / 1460 + doe / 36524 - doe / 146096) / 365 in
  let doy := doe - (365 * yoe + yoe / 4 - yoe / 100) in
  let mp := (5 * doy + 2) / 153 in
  let d := doy - (153 * mp + 2) / 5 + 1 in
  let m := if mp <? 10 then mp + 3 else mp - 9 in
  let y := yoe + era * 400 + (if m <=? 2 then 1 else 0) in
  (y, m, d).

(** ** The world outside the program *)

Record World := {
  (** [new Date()] at start-up *)
  now : Z;
  (** ECMAScript [LocalTZA(t, isUTC)]: the offset of the local time zone *)
  LocalTZA : Z -> bool -> Z;
  (** date-fns [parseISO] *)
  parseISO : string -> Date;
  (** [new Date(string)], that is [Date.parse] *)
  Date_parse : string -> Date;
  (** the remote source behind [fetch(API_URL, ...)] *)
  fetch : Request -> Response;
  (** [Deno.readTextFile]; [None] when it throws *)
  readTextFile : string -> option string
}.

(** The parsed command line ([options]). *)
Record Options := {
  org : string;
  token : option string;
  commitThreshold : Z;
  staleDays : Z;
  ignore : option string;
  json : bool;
  csv : option string
}.

Section DateFns.

Context (w : World).

Definition LocalTime (t : Z) : Z := t + LocalTZA w t true.

Definition getFullYear (t : Z) : Z := (civil_from_days (Day (LocalTime t))).1.1.
(** [getMonth() + 1] *)
Definition getMonth1 (t : Z) : Z := (civil_from_days (Day (LocalTime t))).1.2.
Definition getDate (t : Z) : Z := (civil_from_days (Day (LocalTime t))).2.

(** date-fns [addDays(date, amount)]: [setDate(getDate() + amount)] on the
    local calendar, so the time of day is kept and the result is converted
    back with the offset in force at the new local time. *)
Definition addDays (date : Date) (amount : Z) : Date :=
  match date with
  | None => None
  | Some t =>
      if amount =? 0 then Some t
      else
        let local' := LocalTime t + amount * msPerDay in
        TimeClip (local' - LocalTZA w local' false)
  end.

(** date-fns [subDays(date, amount)] is [addDays(date, -amount)]. *)
Definition subDays (date : Date) (amount : Z) : Date := addDays date (- amount).

(** date-fns formatters [y] (token [yyyy]), [M] (token [MM]) and [d]
    (token [dd]). *)
Definition format_yyyy (t : Z) : string :=
  let signedYear := getFullYear t in
  let year := if 0 <? signedYear then signedYear else 1 - signedYear in
  addLeadingZeros year 4.

Definition format_MM (t : Z) : string := addLeadingZeros (getMonth1 t) 2.

Definition format_dd (t : Z) : string := addLeadingZeros (getDate t) 2.

(** The pattern [yyyy-MM-dd] applied to a valid date; the hyphens are
    copied from the pattern. *)
Definition yyyy_MM_dd (t : Z) : string :=
  format_yyyy t +:+ "-" +:+ format_MM t +:+ "-" +:+ format_dd t.

(** date-fns [format(date, "yyyy-MM-dd")]: a RangeError on an Invalid
    Date. *)
Definition format (date : Date) : M string :=
  match date with
  | None => throw Js.RangeError
  | Some t => ret (yyyy_MM_dd t)
  end.

End DateFns.

(** ** The scanner: [fetchStaleRepos] of the current program *)

(** The variables of the loop of [fetchStaleRepos]. *)
Module Loop.
Record t := {
  cursor : option string;
  hasNextPage : bool;
  staleRepos : list StaleRepo.t
}.
End Loop.

(** The operand of [new Date(...)] at the last-commit date: a date string
    of the remote source or the [Date] object [pushedAt]. *)
Inductive DateOrString :=
| IsString (s : string)
| IsDate (d : Date).

Section Scanner.

Context (w : World) (options : Options).

(** [ignoreList], the global set read before the scan. *)
Variable ignoreList : gset string.

(** [const cutoffDate = subDays(new Date(), staleDays)] *)
Definition cutoffDate : Date := subDays w (Some (now w)) (staleDays options).

(** The template literal [`Bearer ${token}`]. *)
Definition bearer : string :=
  "Bearer " +:+ default "undefined" (token options).

Definition request (cursor : option string) : Request :=
  {| authorization := bearer; var_org := org options; var_cursor := cursor |}.

(** [await fetch(API_URL, ...)] with the body read. *)
Definition do_fetch (cursor : option string) : M Response :=
  emit (Fetch (request cursor));; ret (fetch w (request cursor)).

(** [repo.defaultBranchRef?.target?.history] *)
Definition history_of (repo : Repo.t) : option History :=
  (Repo.defaultBranchRef repo ≫= target) ≫= history.

(** [history?.nodes?.[0]] *)
Definition lastCommitInfo_of (h : option History) : option Commit :=
  ((h ≫= history_nodes) ≫= head) ≫= id.

(** [lastCommitInfo?.committedDate || pushedAt] *)
Definition lastCommitDate_of (lastCommitInfo : option Commit) (pushedAt : Date)
  : DateOrString :=
  if Js.truthy (committedDate <$> lastCommitInfo)
  then IsString (Js.or_str (committedDate <$> lastCommitInfo) "")
  else IsDate pushedAt.

(** [new Date(x)]: a string is parsed, a [Date] is copied. *)
Definition new_Date (x : DateOrString) : Date :=
  match x with
  | IsString s => Date_parse w s
  | IsDate d => d
  end.

(** [lastCommitInfo?.author?.user?.login || lastCommitInfo?.author?.name
    || "unknown"] *)
Definition author_of (lastCommitInfo : option Commit) : string :=
  Js.or_str
    (Js.or_opt (login <$> ((lastCommitInfo ≫= author) ≫= user))
               ((lastCommitInfo ≫= author) ≫= actor_name))
    "unknown".

(** [lastCommitInfo?.author?.email || "unknown"] *)
Definition authorEmail_of (lastCommitInfo : option Commit) : string :=
  Js.or_str ((lastCommitInfo ≫= author) ≫= email) "unknown".

(** [repo.defaultBranchRef?.target?.history?.totalCount || 0] *)
Definition totalCommits_of (repo : Repo.t) : Z :=
  Js.or_zero (totalCount <$> history_of repo).

(** The template literal [`${repo.diskUsage} kB`]; a disk usage that the
    remote source does not report arrives as [null]. *)
Definition size_of (repo : Repo.t) : string :=
  match Repo.diskUsage repo with
  | Some n => Number_toString n
  | None => "null"
  end +:+ " kB".

(** The object literal pushed on [staleRepos]; [format] may throw. *)
Definition make_record (repo : Repo.t) (pushedAt : Date) : M StaleRepo.t :=
  let lastCommitInfo := lastCommitInfo_of (history_of repo) in
  let lastCommitDate := lastCommitDate_of lastCommitInfo pushedAt in
  pushed <- format w pushedAt;;
  last <- format w (new_Date lastCommitDate);;
  ret {| StaleRepo.name := Repo.name repo;
         StaleRepo.pushedAt := pushed;
         StaleRepo.commits := totalCommits_of repo;
         StaleRepo.size := size_of repo;
         StaleRepo.lastCommitDate := last;
         StaleRepo.lastCommitAuthor := author_of lastCommitInfo;
         StaleRepo.lastCommitAuthorEmail := authorEmail_of lastCommitInfo |}.

Definition push (st : Loop.t) (r : StaleRepo.t) : Loop.t :=
  {| Loop.cursor := Loop.cursor st;
     Loop.hasNextPage := Loop.hasNextPage st;
     Loop.staleRepos := Loop.staleRepos st ++ [r] |}.

(** [hasNextPage = false; break;] *)
Definition stop (st : Loop.t) : Loop.t :=
  {| Loop.cursor := Loop.cursor st;
     Loop.hasNextPage := false;
     Loop.staleRepos := Loop.staleRepos st |}.

(** [for (const repo of repos.nodes) { ... }] *)
Fixpoint for_of_nodes (repos_nodes : list Repo.t) (st : Loop.t) : M Loop.t :=
  match repos_nodes with
  | [] => ret st
  | repo :: rest =>
      if bool_decide (Repo.name repo ∈ ignoreList) then
        console_log ("Ignoring " +:+ Repo.name repo);;
        for_of_nodes rest st
      else
        let pushedAt := parseISO w (Repo.pushedAt repo) in
        if isAfter pushedAt cutoffDate then ret (stop st)
        else
          let isStale := isBefore pushedAt cutoffDate in
          if isStale && (totalCommits_of repo <? commitThreshold options) then
            r <- make_record repo pushedAt;;
            for_of_nodes rest (push st r)
          else for_of_nodes rest st
  end.

(** [if (hasNextPage) { cursor = ...; hasNextPage = ...; }] *)
Definition advance (repos : Repositories) (st : Loop.t) : Loop.t :=
  if Loop.hasNextPage st then
    {| Loop.cursor := endCursor (pageInfo repos);
       Loop.hasNextPage := hasNextPage (pageInfo repos);
       Loop.staleRepos := Loop.staleRepos st |}
  else st.

(** One turn of [while (hasNextPage) { ... }]. *)
Definition loop_body (st : Loop.t) : M Loop.t :=
  res <- do_fetch (Loop.cursor st);;
  match res with
  | NetworkFailure => throw Js.TypeError
  | NotOk text =>
      console_error ("❌ GitHub API error: " +:+ text);;
      exit 1
  | Ok None => throw Js.TypeError
  | Ok (Some repos) =>
      st' <- for_of_nodes (nodes repos) st;;
      ret (advance repos st')
  end.

Fixpoint while_hasNextPage (fuel : nat) (st : Loop.t) : M (list StaleRepo.t) :=
  if Loop.hasNextPage st then
    match fuel with
    | O => out_of_fuel
    | S fuel =>
        st' <- loop_body st;;
        while_hasNextPage fuel st'
    end
  else ret (Loop.staleRepos st).

Definition initial : Loop.t :=
  {| Loop.cursor := None; Loop.hasNextPage := true; Loop.staleRepos := [] |}.

Definition fetchStaleRepos (fuel : nat) : M (list StaleRepo.t) :=
  while_hasNextPage fuel initial.

End Scanner.

(** ** JSON values and [JSON.stringify(value, null, 2)] *)

Inductive Json :=
| JNull
| JBool (b : bool)
| JNumber (n : Z)
| JString (s : string)
| JArray (elements : list Json)
| JObject (members : list (string * Json)).

Definition LF : string := String "010" "".

(** The double quote. *)
Definition DQ_char : ascii := ascii_of_N 34.
Definition DQ : string := String DQ_char "".

Definition hex_digit (n : N) : ascii :=
  ascii_of_N (if (n <? 10)%N then 48 + n else 87 + n).

(** ECMAScript QuoteJSONString, one code unit: the two-character escapes,
    [\u00XX] for the other control characters, the unit itself otherwise. *)
Definition quote_char (c : ascii) : string :=
  let n := N_of_ascii c in
  if (n =? 34)%N then String "\" DQ
  else if (n =? 92)%N then "\\"
  else if (n =? 8)%N then "\b"
  else if (n =? 12)%N then "\f"
  else if (n =? 10)%N then "\n"
  else if (n =? 13)%N then "\r"
  else if (n =? 9)%N then "\t"
  else if (n <? 32)%N then
    "\u00" +:+ String (hex_digit (n / 16)) (String (hex_digit (n mod 16)) "")
  else String c "".

Fixpoint quote_chars (s : string) : string :=
  match s with
  | "" => ""
  | String c s' => quote_char c +:+ quote_chars s'
  end.

Definition QuoteJSONString (s : string) : string :=
  DQ +:+ quote_chars s +:+ DQ.

(** The separator [",\n" + indent] between the items of an array or object. *)
Fixpoint join_items (sep : string) (items : list string) : string :=
  match items with
  | [] => ""
  | [x] => x
  | x :: rest => x +:+ sep +:+ join_items sep rest
  end.

(** ECMAScript SerializeJSONProperty with gap ["  "]; [indent] is the
    current indentation. *)
Fixpoint stringify (indent : string) (v : Json) : string :=
  match v with
  | JNull => "null"
  | JBool true => "true"
  | JBool false => "false"
  | JNumber n => Number_toString n
  | JString s => QuoteJSONString s
  | JArray [] => "[]"
  | JArray elements =>
      let stepback := indent in
      let indent := indent +:+ "  " in
      "[" +:+ LF +:+ indent +:+
      join_items ("," +:+ LF +:+ indent) (map (stringify indent) elements) +:+
      LF +:+ stepback +:+ "]"
  | JObject [] => "{}"
  | JObject members =>
      let stepback := indent in
      let indent := indent +:+ "  " in
      "{" +:+ LF +:+ indent +:+
      join_items ("," +:+ LF +:+ indent)
        (map (fun kv => QuoteJSONString kv.1 +:+ ": " +:+ stringify indent kv.2)
             members) +:+
      LF +:+ stepback +:+ "}"
  end.

Definition JSON_stringify (v : Json) : string := stringify "" v.

(** The value that [JSON.stringify] sees for a result record: its own
    properties in creation order. *)
Definition json_of_record (r : StaleRepo.t) : Json :=
  JObject [
    ("name", JString (StaleRepo.name r));
    ("pushedAt", JString (StaleRepo.pushedAt r));
    ("commits", JNumber (StaleRepo.commits r));
    ("size", JString (StaleRepo.size r));
    ("lastCommitDate", JString (StaleRepo.lastCommitDate r));
    ("lastCommitAuthor", JString (StaleRepo.lastCommitAuthor r));
    ("lastCommitAuthorEmail", JString (StaleRepo.lastCommitAuthorEmail r))
  ].

Definition json_of_results (results : list StaleRepo.t) : Json :=
  JArray (map json_of_record results).

(** ** [JSON.parse]

    The JSON grammar of ECMA-404 over the values of [Json]: numbers are the
    integer literals (a fraction or an exponent is outside [Json] and is
    refused), and a [\uXXXX] escape must denote a code unit below 256, the
    characters of [string].  An object keeps its members as they are written;
    a property is read with [get], which takes the last member of that name
    as JavaScript does. *)

Definition is_ws (c : ascii) : bool :=
  let n := N_of_ascii c in
  (n =? 32)%N || (n =? 9)%N || (n =? 10)%N || (n =? 13)%N.

Fixpoint skip_ws (s : string) : string :=
  match s with
  | "" => ""
  | String c s' => if is_ws c then skip_ws s' else s
  end.

Definition is_digit (c : ascii) : bool :=
  let n := N_of_ascii c in (48 <=? n)%N && (n <=? 57)%N.

Fixpoint span_digits (s : string) : string * string :=
  match s with
  | "" => ("", "")
  | String c s' =>
      if is_digit c then let '(ds, rest) := span_digits s' in (String c ds, rest)
      else ("", s)
  end.

Definition hex_value (c : ascii) : option N :=
  let n := N_of_ascii c in
  if (48 <=? n)%N && (n <=? 57)%N then Some (n - 48)%N
  else if (97 <=? n)%N && (n <=? 102)%N then Some (n - 87)%N
  else if (65 <=? n)%N && (n <=? 70)%N then Some (n - 55)%N
  else None.

(** The character after a backslash, [u] apart. *)
Definition unescape (e : ascii) : option ascii :=
  let n := N_of_ascii e in
  if (n =? 34)%N then Some DQ_char
  else if (n =? 92)%N then Some "\"%char
  else if (n =? 47)%N then Some "/"%char
  else if (n =? 98)%N then Some "008"%char
  else if (n =? 102)%N then Some "012"%char
  else if (n =? 110)%N then Some "010"%char
  else if (n =? 114)%N then Some "013"%char
  else if (n =? 116)%N then Some "009"%char
  else None.

Definition cons_char (c : ascii) (r : option (string * string))
  : option (string * string) :=
  match r with
  | Some (str, rest) => Some (String c str, rest)
  | None => None
  end.

(** The characters of a string literal after its opening quote, up to and
    including the closing quote. *)
Fixpoint parse_chars (s : string) : option (string * string) :=
  match s with
  | "" => None
  | String c s' =>
      if Ascii.eqb c DQ_char then Some ("", s')
      else if Ascii.eqb c "\"%char then
        match s' with
        | "" => None
        | String e s'' =>
            match unescape e with
            | Some c' => cons_char c' (parse_chars s'')
            | None =>
                if Ascii.eqb e "u"%char then
                  match s'' with
                  | String h1 (String h2 (String h3 (String h4 r))) =>
                      match hex_value h1, hex_value h2, hex_value h3, hex_value h4 with
                      | Some a, Some b, Some c3, Some d =>
                          if ((a =? 0) && (b =? 0))%N
                          then cons_char (ascii_of_N (16 * c3 + d)) (parse_chars r)
                          else None
                      | _, _, _, _ => None
                      end
                  | _ => None
                  end
                else None
            end
        end
      else if (N_of_ascii c <? 32)%N then None
      else cons_char c (parse_chars s')
  end.

(** An integer literal: an optional minus, digits with no leading zero, and
    neither a fraction nor an exponent after them. *)
Definition starts_fraction (rest : string) : bool :=
  match rest with
  | String c _ =>
      Ascii.eqb c "."%char || Ascii.eqb c "e"%char || Ascii.eqb c "E"%char
  | "" => false
  end.

Definition read_digits (sign s1 : string) : option (Z * string) :=
  let '(ds, rest) := span_digits s1 in
  match ds with
  | "" => None
  | String d ds' =>
      if Ascii.eqb d "0"%char && negb (String.eqb ds' "") then None
      else if starts_fraction rest then None
      else option_map (fun i => (Z.of_int i, rest))
                      (NilZero.int_of_string (sign +:+ ds))
  end.

Definition parse_number (s : string) : option (Z * string) :=
  match s with
  | String c s' =>
      if Ascii.eqb c "-"%char then read_digits "-" s' else read_digits "" s
  | "" => None
  end.

(** [s] without its prefix [lit]. *)
Fixpoint strip_prefix (lit s : string) : option string :=
  match lit with
  | "" => Some s
  | String a lit' =>
      match s with
      | String b s' => if Ascii.eqb a b then strip_prefix lit' s' else None
      | "" => None
      end
  end.

(** One of the literals [null], [true] and [false]. *)
Definition expect (lit : string) (v : Json) (s : string) : option (Json * string) :=
  option_map (fun rest => (v, rest)) (strip_prefix lit s).

Fixpoint parse_value (fuel : nat) (s : string) : option (Json * string) :=
  match fuel with
  | O => None
  | S fuel =>
      match skip_ws s with
      | "" => None
      | String c rest =>
          if Ascii.eqb c DQ_char then
            '(str, r) ← parse_chars rest; Some (JString str, r)
          else if Ascii.eqb c "["%char then
            match skip_ws rest with
            | "" => None
            | String c' r =>
                if Ascii.eqb c' "]"%char then Some (JArray [], r)
                else '(l, r') ← parse_elements fuel rest; Some (JArray l, r')
            end
          else if Ascii.eqb c "{"%char then
            match skip_ws rest with
            | "" => None
            | String c' r =>
                if Ascii.eqb c' "}"%char then Some (JObject [], r)
                else '(l, r') ← parse_members fuel rest; Some (JObject l, r')
            end
          else if Ascii.eqb c "n"%char then expect "null" JNull (String c rest)
          else if Ascii.eqb c "t"%char then expect "true" (JBool true) (String c rest)
          else if Ascii.eqb c "f"%char then expect "false" (JBool false) (String c rest)
          else '(n, r) ← parse_number (String c rest); Some (JNumber n, r)
      end
  end
with parse_elements (fuel : nat) (s : string) : option (list Json * string) :=
  match fuel with
  | O => None
  | S fuel =>
      '(v, r) ← parse_value fuel s;
      match skip_ws r with
      | "" => None
      | String c r' =>
          if Ascii.eqb c ","%char then
            '(l, r'') ← parse_elements fuel r'; Some (v :: l, r'')
          else if Ascii.eqb c "]"%char then Some ([v], r')
          else None
      end
  end
with parse_members (fuel : nat) (s : string)
  : option (list (string * Json) * string) :=
  match fuel with
  | O => None
  | S fuel =>
      match skip_ws s with
      | "" => None
      | String c r =>
          if Ascii.eqb c DQ_char then
            '(k, r1) ← parse_chars r;
            match skip_ws r1 with
            | "" => None
            | String c1 r2 =>
                if Ascii.eqb c1 ":"%char then
                  '(v, r3) ← parse_value fuel r2;
                  match skip_ws r3 with
                  | "" => None
                  | String c3 r4 =>
                      if Ascii.eqb c3 ","%char then
                        '(l, r5) ← parse_members fuel r4; Some ((k, v) :: l, r5)
                      else if Ascii.eqb c3 "}"%char then Some ([(k, v)], r4)
                      else None
                  end
                else None
            end
          else None
      end
  end.

(** [JSON.parse(text)]: one value, then only white space. *)
Definition JSON_parse (text : string) : option Json :=
  '(v, rest) ← parse_value (S (String.length text)) text;
  if String.eqb (skip_ws rest) "" then Some v else None.

(** Reading a property: the last member of that name. *)
Fixpoint get (key : string) (members : list (string * Json)) : option Json :=
  match members with
  | [] => None
  | (k, v) :: rest =>
      match get key rest with
      | Some v' => Some v'
      | None => if String.eqb k key then Some v else None
      end
  end.

Definition get_string (key : string) (members : list (string * Json))
  : option string :=
  match get key members with
  | Some (JString s) => Some s
  | _ => None
  end.

Definition get_number (key : string) (members : list (string * Json))
  : option Z :=
  match get key members with
  | Some (JNumber n) => Some n
  | _ => None
  end.

(** A parsed object read back as a result record, field by field. *)
Definition record_of_json (v : Json) : option StaleRepo.t :=
  match v with
  | JObject ms =>
      name ← get_string "name" ms;
      pushedAt ← get_string "pushedAt" ms;
      commits ← get_number "commits" ms;
      size ← get_string "size" ms;
      lastCommitDate ← get_string "lastCommitDate" ms;
      lastCommitAuthor ← get_string "lastCommitAuthor" ms;
      lastCommitAuthorEmail ← get_string "lastCommitAuthorEmail" ms;
      Some {| StaleRepo.name := name;
              StaleRepo.pushedAt := pushedAt;
              StaleRepo.commits := commits;
              StaleRepo.size := size;
              StaleRepo.lastCommitDate := lastCommitDate;
              StaleRepo.lastCommitAuthor := lastCommitAuthor;
              StaleRepo.lastCommitAuthorEmail := lastCommitAuthorEmail |}
  | _ => None
  end.

Fixpoint records_of_list (l : list Json) : option (list StaleRepo.t) :=
  match l with
  | [] => Some []
  | v :: l' =>
      match record_of_json v, records_of_list l' with
      | Some r, Some rs => Some (r :: rs)
      | _, _ => None
      end
  end.

(** A parsed array read back as result records. *)
Definition results_of_json (v : Json) : option (list StaleRepo.t) :=
  match v with
  | JArray l => records_of_list l
  | _ => None
  end.

(** ** The ignore list *)

(** [text.split("\n")] *)
Fixpoint split_LF (text : string) : list string :=
  match text with
  | "" => [""]
  | String c text' =>
      if Ascii.eqb c "010"%char then "" :: split_LF text'
      else
        match split_LF text' with
        | line :: lines => String c line :: lines
        | [] => [String c ""]
        end
  end.

(** White space and line terminators of the ASCII range. *)
Definition is_space (c : ascii) : bool :=
  let n := N_of_ascii c in ((9 <=? n)%N && (n <=? 13)%N) || (n =? 32)%N.

Fixpoint trimStart (s : string) : string :=
  match s with
  | "" => ""
  | String c s' => if is_space c then trimStart s' else s
  end.

Fixpoint trimEnd (s : string) : string :=
  match s with
  | "" => ""
  | String c s' =>
      let t := trimEnd s' in
      if is_space c && String.eqb t "" then "" else String c t
  end.

(** [line.trim()] *)
Definition trim (line : string) : string := trimEnd (trimStart line).

(** [new Set(text.split("\n").map((line) => line.trim()).filter(Boolean))] *)
Definition ignore_set (text : string) : gset string :=
  list_to_set
    (List.filter (fun line => negb (String.eqb line ""))
                 (map trim (split_LF text))).

(** ** The current program, start to end *)

Section Program.

Context (w : World) (options : Options).

(** [readIgnoreList(filePath)]: a file that cannot be read is an empty set. *)
Definition readIgnoreList (filePath : string) : M (gset string) :=
  emit (ReadTextFile filePath);;
  match readTextFile w filePath with
  | Some text => ret (ignore_set text)
  | None => ret ∅
  end.

Definition token_required : string :=
  "❌ GitHub token is required. Pass with --token or set GH_SR_TOKEN env var.".

Definition banner : string :=
  "🔍 Scanning " +:+ DQ +:+ org options +:+ DQ +:+
  " for repos not updated in " +:+ Number_toString (staleDays options) +:+
  " days with < " +:+ Number_toString (commitThreshold options) +:+
  " commits..." +:+ LF.

Definition none_found : string := "✅ No stale, low-activity repos found!".

Definition found (results : list StaleRepo.t) : string :=
  "📦 Found " +:+ Number_toString (Z.of_nat (length results)) +:+
  " stale, low-activity repos:" +:+ LF.

Definition csv_header : string :=
  "Repo,Commits,Size in kB,Last Updated,Last Commit,Author,Author Email".

Definition csv_line (r : StaleRepo.t) : string :=
  StaleRepo.name r +:+ "," +:+ Number_toString (StaleRepo.commits r) +:+ "," +:+
  StaleRepo.size r +:+ "," +:+ StaleRepo.pushedAt r +:+ "," +:+
  StaleRepo.lastCommitDate r +:+ "," +:+ StaleRepo.lastCommitAuthor r +:+ "," +:+
  StaleRepo.lastCommitAuthorEmail r.

Definition table_header : list string :=
  ["Repo"; "Commits"; "Size in kB"; "Last Updated"; "Last Commit"; "Author";
   "Email"].

Definition ESC : string := String "027" "".

(** The cell [`\x1b[36m${r.name}\x1b[0m`]. *)
Definition highlighted (name : string) : string :=
  ESC +:+ "[36m" +:+ name +:+ ESC +:+ "[0m".

Definition table_row (r : StaleRepo.t) : list string :=
  [highlighted (StaleRepo.name r); Number_toString (StaleRepo.commits r);
   StaleRepo.size r; StaleRepo.pushedAt r; StaleRepo.lastCommitDate r;
   StaleRepo.lastCommitAuthor r; StaleRepo.lastCommitAuthorEmail r].

(** The three output branches. *)
Definition render (results : list StaleRepo.t) : M unit :=
  if json options then
    console_log (JSON_stringify (json_of_results results))
  else if Js.truthy (csv options) then
    let file := default "" (csv options) in
    emit (WriteTextFile file (join_items LF (csv_header :: map csv_line results)));;
    console_log ("📄 CSV saved to " +:+ file)
  else
    emit (TableRender table_header (map table_row results)).

(** The top level of the module, in program order. *)
Definition main (fuel : nat) : M unit :=
  if negb (Js.truthy (token options)) then
    console_error token_required;;
    exit 1
  else
    console_log banner;;
    ignoreList <- (if Js.truthy (ignore options)
                   then readIgnoreList (default "" (ignore options))
                   else ret ∅);;
    results <- fetchStaleRepos w options ignoreList fuel;;
    if (length results =? 0)%nat then
      console_log none_found;;
      exit 0
    else
      console_log (found results);;
      render results.

End Program.

(** ** The first version of [gh-stale-repos.ts]

    No ignore list, no early stop, three fields per record; the token is
    written to standard output after the presence check. *)

Module V1.

Record StaleRepo := {
  name : string;
  commits : Z;
  pushedAt : string
}.

Section Program.

Context (w : World) (options : Options).

Fixpoint for_of_nodes (repos_nodes : list Repo.t) (staleRepos : list StaleRepo)
  : M (list StaleRepo) :=
  match repos_nodes with
  | [] => ret staleRepos
  | repo :: rest =>
      let pushedAt := parseISO w (Repo.pushedAt repo) in
      let isStale := isBefore pushedAt (cutoffDate w options) in
      let commits := totalCommits_of repo in
      if isStale && (commits <? commitThreshold options) then
        pushed <- format w pushedAt;;
        for_of_nodes rest
          (staleRepos ++ [{| name := Repo.name repo; pushedAt := pushed;
                             commits := commits |}])
      else for_of_nodes rest staleRepos
  end.

(** [while (true) { ... if (!repos.pageInfo.hasNextPage) break; ... }] *)
Fixpoint while_true (fuel : nat) (cursor : option string)
    (staleRepos : list StaleRepo) : M (list StaleRepo) :=
  match fuel with
  | O => out_of_fuel
  | S fuel =>
      res <- do_fetch w options cursor;;
      match res with
      | NetworkFailure => throw Js.TypeError
      | NotOk text =>
          console_error ("❌ GitHub API error: " +:+ text);;
          exit 1
      | Ok None => throw Js.TypeError
      | Ok (Some repos) =>
          staleRepos' <- for_of_nodes (nodes repos) staleRepos;;
          if negb (hasNextPage (pageInfo repos)) then ret staleRepos'
          else while_true fuel (endCursor (pageInfo repos)) staleRepos'
      end
  end.

Definition fetchStaleRepos (fuel : nat) : M (list StaleRepo) :=
  while_true fuel None [].

Definition json_of_record (r : StaleRepo) : Json :=
  JObject [("name", JString (name r)); ("pushedAt", JString (pushedAt r));
           ("commits", JNumber (commits r))].

Definition csv_row (r : StaleRepo) : list (string * string) :=
  [("name", name r); ("commits", Number_toString (commits r));
   ("pushedAt", pushedAt r)].

Definition table_row (r : StaleRepo) : list string :=
  [highlighted (name r); Number_toString (commits r); pushedAt r].

Definition render (results : list StaleRepo) : M unit :=
  if json options then
    console_log (JSON_stringify (JArray (map json_of_record results)))
  else if Js.truthy (csv options) then
    let file := default "" (csv options) in
    emit (WriteCSV file (map csv_row results));;
    console_log ("📄 CSV saved to " +:+ file)
  else
    emit (TableRender ["Repo"; "Commits"; "Last Pushed"] (map table_row results)).

Definition main (fuel : nat) : M unit :=
  if negb (Js.truthy (token options)) then
    console_error token_required;;
    exit 1
  else
    console_log (default "undefined" (token options));;
    console_log (banner options);;
    results <- fetchStaleRepos fuel;;
    if (length results =? 0)%nat then
      console_log none_found;;
      exit 0
    else
      (if (length results =? 0)%nat then console_log none_found else ret tt);;
      render results.

End Program.

End V1.

(** ** The second version ([src/unnamed/part_000])

    The last-commit fields are added; still no ignore list and no early
    stop, and the token is still written to standard output. *)

Module V2.

Record StaleRepo := {
  name : string;
  commits : Z;
  pushedAt : string;
  lastCommitDate : string;
  lastCommitAuthor : string;
  lastCommitAuthorEmail : string
}.

Section Program.

Context (w : World) (options : Options).

Definition make_record (repo : Repo.t) (pushedAt : Date) : M StaleRepo :=
  let lastCommitInfo := lastCommitInfo_of (history_of repo) in
  let lastCommitDate := lastCommitDate_of lastCommitInfo pushedAt in
  pushed <- format w pushedAt;;
  last <- format w (new_Date w lastCommitDate);;
  ret {| name := Repo.name repo;
         pushedAt := pushed;
         commits := totalCommits_of repo;
         lastCommitDate := last;
         lastCommitAuthor := author_of lastCommitInfo;
         lastCommitAuthorEmail := authorEmail_of lastCommitInfo |}.

Fixpoint for_of_nodes (repos_nodes : list Repo.t) (staleRepos : list StaleRepo)
  : M (list StaleRepo) :=
  match repos_nodes with
  | [] => ret staleRepos
  | repo :: rest =>
      let pushedAt := parseISO w (Repo.pushedAt repo) in
      let isStale := isBefore pushedAt (cutoffDate w options) in
      if isStale && (totalCommits_of repo <? commitThreshold options) then
        r <- make_record repo pushedAt;;
        for_of_nodes rest (staleRepos ++ [r])
      else for_of_nodes rest staleRepos
  end.

Fixpoint while_true (fuel : nat) (cursor : option string)
    (staleRepos : list StaleRepo) : M (list StaleRepo) :=
  match fuel with
  | O => out_of_fuel
  | S fuel =>
      res <- do_fetch w options cursor;;
      match res with
      | NetworkFailure => throw Js.TypeError
      | NotOk text =>
          console_error ("❌ GitHub API error: " +:+ text);;
          exit 1
      | Ok None => throw Js.TypeError
      | Ok (Some repos) =>
          staleRepos' <- for_of_nodes (nodes repos) staleRepos;;
          if negb (hasNextPage (pageInfo repos)) then ret staleRepos'
          else while_true fuel (endCursor (pageInfo repos)) staleRepos'
      end
  end.

Definition fetchStaleRepos (fuel : nat) : M (list StaleRepo) :=
  while_true fuel None [].

Definition json_of_record (r : StaleRepo) : Json :=
  JObject [("name", JString (name r)); ("pushedAt", JString (pushedAt r));
           ("commits", JNumber (commits r));
           ("lastCommitDate", JString (lastCommitDate r));
           ("lastCommitAuthor", JString (lastCommitAuthor r));
           ("lastCommitAuthorEmail", JString (lastCommitAuthorEmail r))].

Definition csv_line (r : StaleRepo) : string :=
  name r +:+ "," +:+ Number_toString (commits r) +:+ "," +:+ pushedAt r +:+ "," +:+
  lastCommitDate r +:+ "," +:+ lastCommitAuthor r +:+ "," +:+
  lastCommitAuthorEmail r.

Definition table_row (r : StaleRepo) : list string :=
  [highlighted (name r); Number_toString (commits r); pushedAt r].

Definition render (results : list StaleRepo) : M unit :=
  if json options then
    console_log (JSON_stringify (JArray (map json_of_record results)))
  else if Js.truthy (csv options) then
    let file := default "" (csv options) in
    emit (WriteTextFile file
            (join_items LF
               ("Repo,Commits,Last Updated,Last Commit,Author,Author Email"
                :: map csv_line results)));;
    console_log ("📄 CSV saved to " +:+ file)
  else
    emit (TableRender ["Repo"; "Commits"; "Last Pushed"] (map table_row results)).

Definition main (fuel : nat) : M unit :=
  if negb (Js.truthy (token options)) then
    console_error token_required;;
    exit 1
  else
    console_log (default "undefined" (token options));;
    console_log (banner options);;
    results <- fetchStaleRepos fuel;;
    if (length results =? 0)%nat then
      console_log none_found;;
      exit 0
    else
      (if (length results =? 0)%nat then console_log none_found else ret tt);;
      render results.

End Program.

End V2.

(** ** Vocabulary of the properties *)

Section Vocabulary.

Context (w : World) (options : Options) (ignoreList : gset string).

(** The candidate is on the ignore list. *)
Definition ignored (repo : Repo.t) : bool :=
  bool_decide (Repo.name repo ∈ ignoreList).

(** The candidate ends the scan: it is not ignored and it was pushed
    strictly after the cutoff. *)
Definition stops (repo : Repo.t) : bool :=
  negb (ignored repo) &&
  isAfter (parseISO w (Repo.pushedAt repo)) (cutoffDate w options).

(** The candidate was pushed strictly before the cutoff. *)
Definition stale (repo : Repo.t) : Prop :=
  ∃ pushed cutoff,
    parseISO w (Repo.pushedAt repo) = Some pushed ∧
    cutoffDate w options = Some cutoff ∧
    pushed < cutoff.

(** [r] is the record built from the candidate [repo]. *)
Definition built_from (repo : Repo.t) (r : StaleRepo.t) : Prop :=
  make_record w repo (parseISO w (Repo.pushedAt repo)) = ret r.

(** [r] was built from [repo], a candidate that passed the three tests. *)
Definition emitted_from (repo : Repo.t) (r : StaleRepo.t) : Prop :=
  built_from repo r ∧
  stale repo ∧
  totalCommits_of repo < commitThreshold options ∧
  Repo.name repo ∉ ignoreList.

(** The candidate is a node of a page that the trace [es] requested. *)
Definition fetched (es : list Event) (repo : Repo.t) : Prop :=
  ∃ cursor repos,
    Fetch (request options cursor) ∈ es ∧
    fetch w (request options cursor) = Ok (Some repos) ∧
    repo ∈ nodes repos.

(** Every last-commit date of the page is a date that [new Date] reads. *)
Definition well_dated (repos : Repositories) : Prop :=
  ∀ repo c,
    repo ∈ nodes repos ->
    lastCommitInfo_of (history_of repo) = Some c ->
    is_Some (Date_parse w (committedDate c)).

(** The nodes are in ascending order of push date. *)
Definition pushed_leb (a b : Repo.t) : bool :=
  match parseISO w (Repo.pushedAt a), parseISO w (Repo.pushedAt b) with
  | Some x, Some y => x <=? y
  | _, _ => false
  end.

Fixpoint ascending (l : list Repo.t) : bool :=
  match l with
  | a :: rest =>
      match rest with
      | b :: _ => pushed_leb a b && ascending rest
      | [] => true
      end
  | [] => true
  end.

(** The early stop in the words of the specification: on a page in
    ascending order, once the candidates before it are processed, a
    candidate that is not ignored and was not pushed before the cutoff ends
    the scan at once, with the records gathered so far and no other
    request. *)
Definition stops_when_not_before : Prop :=
  ∀ fuel st repos pre repo post es st1,
    Loop.hasNextPage st = true ->
    fetch w (request options (Loop.cursor st)) = Ok (Some repos) ->
    ascending (nodes repos) = true ->
    nodes repos = pre ++ repo :: post ->
    for_of_nodes w options ignoreList pre st = (es, Ret st1) ->
    Repo.name repo ∉ ignoreList ->
    isBefore (parseISO w (Repo.pushedAt repo)) (cutoffDate w options) = false ->
    while_hasNextPage w options ignoreList (S fuel) st =
    (Fetch (request options (Loop.cursor st)) :: es, Ret (Loop.staleRepos st1)).

(** The size field in the words of the specification: present only when
    the remote source reported a disk usage for the repository. *)
Definition size_only_when_reported : Prop :=
  ∀ repo r,
    built_from repo r ->
    Repo.diskUsage repo = None ->
    get "size" (match json_of_record r with
                | JObject members => members
                | _ => []
                end) = None.

(** The note written for a skipped candidate. *)
Definition ignoring (e : Event) : Prop :=
  ∃ name, name ∈ ignoreList ∧ e = ConsoleLog ("Ignoring " +:+ name).

(** The line written on the error stream for a refused request. *)
Definition api_error (text : string) : Event :=
  ConsoleError ("❌ GitHub API error: " +:+ text).

(** A request that was answered with a page. *)
Definition answered (e : Event) : Prop :=
  ∃ cursor repos,
    e = Fetch (request options cursor) ∧
    fetch w (request options cursor) = Ok (Some repos).

(** The character at a position of a line of standard output. *)
Definition char_at (n : nat) (e : Event) : option ascii :=
  match e with
  | ConsoleLog line => String.get n line
  | _ => None
  end.

(** An event of the report, in any of its three forms. *)
Definition report_event (e : Event) : Prop :=
  ∃ results, e ∈ trace (render options results).

End Vocabulary.

(** No default branch, a target without history, or a history without
    commits. *)
Definition last_commit_absent (repo : Repo.t) : Prop :=
  Repo.defaultBranchRef repo = None ∨
  history_of repo = None ∨
  ∃ h, history_of repo = Some h ∧ totalCount h = 0 ∧
       (history_nodes h = None ∨ history_nodes h = Some []).

(** The shape [yyyy-MM-dd]: a year of four digits or more, a month from 01
    to 12 and a day from 01 to 31, each of two digits. *)
Definition digit_value (c : ascii) : N := (N_of_ascii c - 48)%N.

Definition two_digits (lo hi : N) (a b : ascii) : bool :=
  is_digit a && is_digit b &&
  (lo <=? 10 * digit_value a + digit_value b)%N &&
  (10 * digit_value a + digit_value b <=? hi)%N.

Definition is_yyyy_MM_dd (s : string) : bool :=
  let '(year, rest) := span_digits s in
  (4 <=? String.length year)%nat &&
  match rest with
  | String "-" (String m1 (String m2 (String "-" (String e1 (String e2 ""))))) =>
      two_digits 1 12 m1 m2 && two_digits 1 31 e1 e2
  | _ => false
  end.

Fixpoint all_digits (s : string) : bool :=
  match s with
  | "" => true
  | String c s' => is_digit c && all_digits s'
  end.

(** [n] padded to two places is two digits that spell [n]. *)
Definition two_digit_check (n : Z) : bool :=
  match addLeadingZeros n 2 with
  | String a (String b "") =>
      is_digit a && is_digit b &&
      (Z.of_N (10 * digit_value a + digit_value b) =? n)
  | _ => false
  end.

(** [p] holds of the [n] integers from [k] on. *)
Fixpoint all_from (n : nat) (k : Z) (p : Z -> bool) : bool :=
  match n with
  | O => true
  | S n' => if p k then all_from n' (k + 1) p else false
  end.

(** The properties of the object written for a result record. *)
Definition record_keys : list string :=
  ["name"; "pushedAt"; "commits"; "size"; "lastCommitDate"; "lastCommitAuthor";
   "lastCommitAuthorEmail"].

(** The number of nodes of a JSON value, each item of an array or object
    counted once more: a bound on the turns that [parse_value] takes. *)
Fixpoint json_size (v : Json) : nat :=
  match v with
  | JArray l => S (fold_right (fun x n => S (json_size x + n)) 0%nat l)
  | JObject ms => S (fold_right (fun kv n => S (json_size kv.2 + n)) 0%nat ms)
  | _ => 1
  end.

Fixpoint all_ws (s : string) : bool :=
  match s with
  | "" => true
  | String c s' => is_ws c && all_ws s'
  end.

(** What follows a value in the output of [stringify]: nothing, a comma or
    a line feed. *)
Definition delimited (rest : string) : bool :=
  match rest with
  | "" => true
  | String c _ => Ascii.eqb c ","%char || Ascii.eqb c "010"%char
  end.

(** The value reads back from its pretty-printed text, at any indentation
    and before any text that [stringify] can put after a value. *)
Definition parses_back (v : Json) : Prop :=
  ∀ indent rest fuel,
    all_ws indent = true ->
    delimited rest = true ->
    (json_size v <= fuel)%nat ->
    parse_value fuel (stringify indent v +:+ rest) = Some (v, rest).

(** The inside of a pretty-printed array after its opening bracket, and of
    an object after its opening brace. *)
Definition elements_text (indent' indent : string) (l : list Json) (rest : string)
  : string :=
  LF +:+ indent' +:+
  join_items ("," +:+ LF +:+ indent') (map (stringify indent') l) +:+
  LF +:+ indent +:+ String "]" rest.

Definition member_text (indent' : string) (kv : string * Json) : string :=
  QuoteJSONString kv.1 +:+ ": " +:+ stringify indent' kv.2.

Definition members_text (indent' indent : string) (ms : list (string * Json))
    (rest : string) : string :=
  LF +:+ indent' +:+
  join_items ("," +:+ LF +:+ indent') (map (member_text indent') ms) +:+
  LF +:+ indent +:+ String "}" rest.

(** What the program writes on standard output. *)
Definition stdout (es : list Event) : list string :=
  omap (fun e => match e with ConsoleLog line => Some line | _ => None end) es.

(** The same command line with another token. *)
Definition with_token (tok : string) (o : Options) : Options :=
  {| org := org o; token := Some tok; commitThreshold := commitThreshold o;
     staleDays := staleDays o; ignore := ignore o; json := json o;
     csv := csv o |}.

(** The names of the properties of a JSON object, in order. *)
Definition keys (v : Json) : list string :=
  match v with
  | JObject members => map fst members
  | _ => []
  end.

Definition property (key : string) (v : Json) : option Json :=
  match v with
  | JObject members => get key members
  | _ => None
  end.

(** ** Vocabulary of the properties of pages, streams and requests *)

Section Passes.

Context (w : World) (options : Options) (ignoreList : gset string).

(** The candidate passes the three tests of the loop body: not ignored,
    pushed before the cutoff, fewer commits than the threshold. *)
Definition qualifies (repo : Repo.t) : bool :=
  negb (ignored ignoreList repo) &&
  isBefore (parseISO w (Repo.pushedAt repo)) (cutoffDate w options) &&
  (totalCommits_of repo <? commitThreshold options).

(** The candidates of a page that stand before the first one that ends the
    scan. *)
Fixpoint reached (l : list Repo.t) : list Repo.t :=
  match l with
  | [] => []
  | repo :: rest =>
      if stops w options ignoreList repo then [] else repo :: reached rest
  end.

(** The note written for a skipped candidate. *)
Definition note (repo : Repo.t) : Event :=
  ConsoleLog ("Ignoring " +:+ Repo.name repo).

(** The candidates that the source holds behind a cursor: the nodes of the
    page at the cursor, then those of the pages that the end cursors lead to
    for as long as a page announces another one; at most [n] pages. *)
Fixpoint stream (n : nat) (cursor : option string) : list Repo.t :=
  match n with
  | O => []
  | S n' =>
      match fetch w (request options cursor) with
      | Ok (Some repos) =>
          nodes repos ++
          (if hasNextPage (pageInfo repos)
           then stream n' (endCursor (pageInfo repos))
           else [])
      | _ => []
      end
  end.

(** A list of requests that follows the cursors: the first asks at [cursor];
    each later one asks at the end cursor of the page that answered the
    request before it, a page without a stopping candidate that announced
    another page. *)
Fixpoint chained (cursor : option string) (rs : list Request) : Prop :=
  match rs with
  | [] => True
  | r :: rest =>
      r = request options cursor ∧
      (rest = [] ∨
       ∃ repos,
         fetch w r = Ok (Some repos) ∧
         existsb (stops w options ignoreList) (nodes repos) = false ∧
         hasNextPage (pageInfo repos) = true ∧
         chained (endCursor (pageInfo repos)) rest)
  end.

End Passes.

(** The requests of a trace, oldest first. *)
Definition requests (es : list Event) : list Request :=
  omap (fun e => match e with Fetch r => Some r | _ => None end) es.

(** The event with the authorization header of a request blanked. *)
Definition without_authorization (e : Event) : Event :=
  match e with
  | Fetch r =>
      Fetch {| authorization := ""; var_org := var_org r;
               var_cursor := var_cursor r |}
  | _ => e
  end.

(** Two computations that end the same way and whose events differ at most
    in the authorization header of their requests. *)
Definition alike {A} (m1 m2 : M A) : Prop :=
  map without_authorization (trace m1) = map without_authorization (trace m2) ∧
  outcome m1 = outcome m2.

(** The set that [main] binds to [ignoreList]. *)
Definition loaded_ignore_list (w : World) (options : Options) : gset string :=
  match outcome (if Js.truthy (ignore options)
                 then readIgnoreList w (default "" (ignore options))
                 else ret ∅) with
  | Ret loaded => loaded
  | _ => ∅
  end.

(** The reading of the ignore file, if the command line names one. *)
Definition ignore_reads (options : Options) : list Event :=
  if Js.truthy (ignore options)
  then [ReadTextFile (default "" (ignore options))]
  else [].

(** The events of a scan: requests and lines on the two streams. *)
Definition scan_event (e : Event) : Prop :=
  match e with
  | Fetch _ | ConsoleLog _ | ConsoleError _ => True
  | _ => False
  end.

(** The same command line with another [--ignore] option. *)
Definition with_ignore (path : option string) (o : Options) : Options :=
  {| org := org o; token := token o; commitThreshold := commitThreshold o;
     staleDays := staleDays o; ignore := path; json := json o; csv := csv o |}.

(** The event is the reading of a file. *)
Definition is_read (e : Event) : bool :=
  match e with
  | ReadTextFile _ => true
  | _ => false
  end.

(** ** Vocabulary of the properties of strings *)




(** The string holds no line feed. *)
Fixpoint no_LF (s : string) : bool :=
  match s with
  | "" => true
  | String c s' => negb (Ascii.eqb c "010"%char) && no_LF s'
  end.



(** No text field of the record holds a line feed. *)
Definition single_line (r : StaleRepo.t) : bool :=
  no_LF (StaleRepo.name r) && no_LF (StaleRepo.size r) &&
  no_LF (StaleRepo.pushedAt r) && no_LF (StaleRepo.lastCommitDate r) &&
  no_LF (StaleRepo.lastCommitAuthor r) &&
  no_LF (StaleRepo.lastCommitAuthorEmail r).

(** ** Vocabulary of the comparison of the three versions *)

Section Versions.

Context (w : World) (options : Options).

(** The two tests of the earlier versions. *)
Definition stale_and_low (repo : Repo.t) : bool :=
  isBefore (parseISO w (Repo.pushedAt repo)) (cutoffDate w options) &&
  (totalCommits_of repo <? commitThreshold options).

(** The record of the first version for a candidate with a readable push
    date. *)
Definition V1_record (repo : Repo.t) : V1.StaleRepo :=
  {| V1.name := Repo.name repo;
     V1.commits := totalCommits_of repo;
     V1.pushedAt := match parseISO w (Repo.pushedAt repo) with
                    | Some t => yyyy_MM_dd w t
                    | None => ""
                    end |}.

End Versions.



(** ** A concrete organisation, used to run the model *)

Module Demo.

(** Day number of a civil date (the inverse of [civil_from_days]). *)
Definition days_from_civil (y m d : Z) : Z :=
  let y' := if m <=? 2 then y - 1 else y in
  let era := y' / 400 in
  let yoe := y' - era * 400 in
  let doy := (153 * (if 2 <? m then m - 3 else m + 9) + 2) / 5 + d - 1 in
  let doe := yoe * 365 + yoe / 4 - yoe / 100 + doy in
  era * 146097 + doe - 719468.

Definition digit_of (c : ascii) : option Z :=
  if is_digit c then Some (Z.of_N (digit_value c)) else None.

Definition num2 (a b : ascii) : option Z :=
  x ← digit_of a; y ← digit_of b; Some (10 * x + y).

(** The timestamps of the remote source, [YYYY-MM-DDTHH:MM:SSZ]; any other
    string is an Invalid Date. *)
Definition iso_utc (s : string) : Date :=
  match s with
  | String y1 (String y2 (String y3 (String y4 (String "-"
    (String m1 (String m2 (String "-" (String e1 (String e2 (String "T"
    (String h1 (String h2 (String ":" (String n1 (String n2 (String ":"
    (String s1 (String s2 (String "Z" ""))))))))))))))))))) =>
      yh ← num2 y1 y2; yl ← num2 y3 y4; mo ← num2 m1 m2; dd ← num2 e1 e2;
      hh ← num2 h1 h2; mi ← num2 n1 n2; ss ← num2 s1 s2;
      Some (days_from_civil (100 * yh + yl) mo dd * msPerDay
            + ((hh * 60 + mi) * 60 + ss) * 1000)
  | _ => None
  end.

Definition commit (date name mail : string) (handle : option string) : Commit :=
  {| committedDate := date;
     author := Some {| actor_name := Some name; email := Some mail;
                       user := (fun l => {| login := l |}) <$> handle |} |}.

Definition branch (count : Z) (last : Commit) : option Ref :=
  Some {| target := Some {| history := Some {| totalCount := count;
                                                history_nodes := Some [Some last] |} |} |}.

(** On the ignore list, otherwise a perfect match. *)
Definition legacy : Repo.t :=
  {| Repo.name := "legacy"; Repo.pushedAt := "2024-11-27T10:00:00Z";
     Repo.diskUsage := Some 7;
     Repo.defaultBranchRef :=
       branch 3 (commit "2024-11-27T09:59:00Z" "Ann" "ann@acme.test" None) |}.

(** Pushed 200 days ago, 5 commits. *)
Definition alpha : Repo.t :=
  {| Repo.name := "alpha"; Repo.pushedAt := "2024-11-27T10:00:00Z";
     Repo.diskUsage := Some 120;
     Repo.defaultBranchRef :=
       branch 5 (commit "2024-11-26T08:30:00Z" "Bob" "bob@acme.test" (Some "bob")) |}.

(** Pushed 200 days ago, 50 commits. *)
Definition busy : Repo.t :=
  {| Repo.name := "busy"; Repo.pushedAt := "2024-11-27T11:00:00Z";
     Repo.diskUsage := Some 9000;
     Repo.defaultBranchRef :=
       branch 50 (commit "2024-11-27T11:00:00Z" "Cy" "cy@acme.test" None) |}.

(** No default branch, no disk usage reported. *)
Definition empty : Repo.t :=
  {| Repo.name := "empty"; Repo.pushedAt := "2024-12-01T00:00:00Z";
     Repo.diskUsage := None; Repo.defaultBranchRef := None |}.

(** Pushed at the very instant of the cutoff. *)
Definition edge : Repo.t :=
  {| Repo.name := "edge"; Repo.pushedAt := "2024-12-17T15:06:40Z";
     Repo.diskUsage := Some 1;
     Repo.defaultBranchRef :=
       branch 1 (commit "2024-12-17T15:06:40Z" "Di" "di@acme.test" None) |}.

(** Pushed 10 days ago. *)
Definition fresh : Repo.t :=
  {| Repo.name := "fresh"; Repo.pushedAt := "2025-06-05T12:00:00Z";
     Repo.diskUsage := Some 4;
     Repo.defaultBranchRef :=
       branch 2 (commit "2025-06-05T12:00:00Z" "Ed" "ed@acme.test" None) |}.

(** Out of order: old and small, but listed after [fresh]. *)
Definition late : Repo.t :=
  {| Repo.name := "late"; Repo.pushedAt := "2024-11-01T00:00:00Z";
     Repo.diskUsage := Some 2;
     Repo.defaultBranchRef :=
       branch 1 (commit "2024-11-01T00:00:00Z" "Flo" "flo@acme.test" None) |}.

Definition page (l : list Repo.t) (next : option string) (more : bool)
  : Response :=
  Ok (Some {| nodes := l;
              pageInfo := {| endCursor := next; hasNextPage := more |} |}).

Definition pages (req : Request) : Response :=
  match var_cursor req with
  | None => page [legacy; alpha; busy; empty] (Some "c1") true
  | Some "c1" => page [edge] (Some "c2") true
  | Some "c2" => page [fresh] (Some "c3") true
  | Some _ => NotOk "rate limited"
  end.

(** The same pages with a stray old candidate after [fresh]. *)
Definition shuffled_pages (req : Request) : Response :=
  match var_cursor req with
  | Some "c2" => page [fresh; late] (Some "c3") true
  | _ => pages req
  end.

(** 2025-06-15T15:06:40Z, in a time zone without offset. *)
Definition world : World :=
  {| now := 1750000000000;
     LocalTZA := fun _ _ => 0;
     parseISO := iso_utc;
     Date_parse := iso_utc;
     fetch := pages;
     readTextFile := fun path =>
       if String.eqb path "ignore.txt"
       then Some ("legacy" +:+ LF +:+ LF +:+ "  archived-site " +:+ LF)
       else None |}.

Definition shuffled : World :=
  {| now := 1750000000000;
     LocalTZA := fun _ _ => 0;
     parseISO := iso_utc;
     Date_parse := iso_utc;
     fetch := shuffled_pages;
     readTextFile := fun _ => None |}.

(** A source that answers every cursor: two pages, then an empty last
    page. *)
Definition finite_pages (req : Request) : Response :=
  match var_cursor req with
  | None => page [legacy; alpha; busy; empty] (Some "c1") true
  | Some c =>
      if String.eqb c "c1" then page [edge] (Some "c2") true
      else page [] None false
  end.

Definition finite : World :=
  {| now := 1750000000000;
     LocalTZA := fun _ _ => 0;
     parseISO := iso_utc;
     Date_parse := iso_utc;
     fetch := finite_pages;
     readTextFile := fun _ => None |}.

(** How far into the stream of [finite] a cursor points, in pages. *)
Definition position (cursor : option string) : nat :=
  match cursor with
  | None => 0
  | Some c => if String.eqb c "c1" then 1 else 2
  end.

(** The same organisation behind a source that refuses the second page. *)
Definition refusing : World :=
  {| now := 1750000000000;
     LocalTZA := fun _ _ => 0;
     parseISO := iso_utc;
     Date_parse := iso_utc;
     fetch := fun req =>
       match var_cursor req with
       | None => pages req
       | Some _ => NotOk "Bad credentials"
       end;
     readTextFile := fun _ => None |}.

Definition options : Options :=
  {| org := "acme"; token := Some "ghp_secret"; commitThreshold := 20;
     staleDays := 180; ignore := Some "ignore.txt"; json := true;
     csv := None |}.

(** The same command line with a threshold that no candidate meets. *)
Definition strict_options : Options :=
  {| org := "acme"; token := Some "ghp_secret"; commitThreshold := 0;
     staleDays := 180; ignore := Some "ignore.txt"; json := true;
     csv := None |}.

Definition ignoreList : gset string := {["legacy"; "archived-site"]}.

(** The record of [alpha]. *)
Definition alpha_record : StaleRepo.t :=
  {| StaleRepo.name := "alpha"; StaleRepo.pushedAt := "2024-11-27";
     StaleRepo.commits := 5; StaleRepo.size := "120 kB";
     StaleRepo.lastCommitDate := "2024-11-26";
     StaleRepo.lastCommitAuthor := "bob";
     StaleRepo.lastCommitAuthorEmail := "bob@acme.test" |}.

(** The record of [empty], a candidate without reported disk usage. *)
Definition empty_record : StaleRepo.t :=
  {| StaleRepo.name := "empty"; StaleRepo.pushedAt := "2024-12-01";
     StaleRepo.commits := 0; StaleRepo.size := "null kB";
     StaleRepo.lastCommitDate := "2024-12-01";
     StaleRepo.lastCommitAuthor := "unknown";
     StaleRepo.lastCommitAuthorEmail := "unknown" |}.

(** Loop states before the second and the third page. *)
Definition at_c1 : Loop.t :=
  {| Loop.cursor := Some "c1"; Loop.hasNextPage := true;
     Loop.staleRepos := [] |}.

Definition at_c2 : Loop.t :=
  {| Loop.cursor := Some "c2"; Loop.hasNextPage := true;
     Loop.staleRepos := [] |}.

(** The same command line asking for a CSV file. *)
Definition csv_options : Options :=
  {| org := "acme"; token := Some "ghp_secret"; commitThreshold := 20;
     staleDays := 180; ignore := Some "ignore.txt"; json := false;
     csv := Some "stale.csv" |}.

(** The first page of the organisation. *)
Definition first_page : list Repo.t := [legacy; alpha; busy; empty].

End Demo.

(** * Properties *)

(** ** The effect monad *)

Lemma bind_Ret_inv {A B} (m : M A) (k : A -> M B) es b :
  bind m k = (es, Ret b) ->
  ∃ es1 a es2, m = (es1, Ret a) ∧ k a = (es2, Ret b) ∧ es = es1 ++ es2.
Proof.
  destruct m as [es1 [a | code | e |]]; simpl; try discriminate.
  destruct (k a) as [es2 o] eqn:Hk. intros [= <- ->].
  by exists es1, a, es2.
Qed.

Lemma bind_ret_l {A B} (a : A) (k : A -> M B) : bind (ret a) k = k a.
Proof. unfold bind, ret. by destruct (k a). Qed.

Lemma bind_emit {B} (e : Event) (k : unit -> M B) :
  bind (emit e) k = (e :: trace (k tt), outcome (k tt)).
Proof. unfold bind, emit, trace, outcome. by destruct (k tt). Qed.

Lemma bind_console_log {B} (line : string) (k : unit -> M B) :
  bind (console_log line) k = (ConsoleLog line :: trace (k tt), outcome (k tt)).
Proof. apply bind_emit. Qed.

Lemma bind_pair {A B} es (a : A) (k : A -> M B) :
  bind (es, Ret a) k = (es ++ trace (k a), outcome (k a)).
Proof. simpl. by destruct (k a). Qed.

(** ** The model at work *)

(** The scenario of the specification: [legacy] is skipped with a note,
    [alpha] and [empty] are kept, [busy] has too many commits, [edge] is
    passed over, and [fresh] ends the scan although the source announces
    more pages. *)
Example demo_scan :
  fetchStaleRepos Demo.world Demo.options Demo.ignoreList 5 =
  ([Fetch (request Demo.options None);
    ConsoleLog "Ignoring legacy";
    Fetch (request Demo.options (Some "c1"));
    Fetch (request Demo.options (Some "c2"))],
   Ret [Demo.alpha_record; Demo.empty_record]).
Proof. vm_compute. reflexivity. Qed.

(** Without results the run ends with the success message and exit code 0,
    whatever the output mode: nothing is rendered. *)
Example demo_without_results :
  outcome (main Demo.world Demo.strict_options 5) = Exit 0 ∧
  last (trace (main Demo.world Demo.strict_options 5)) = Some (ConsoleLog none_found).
Proof. split; vm_compute; reflexivity. Qed.

(** The ignore list of the demo file is the demo ignore list. *)
Example demo_ignore_file :
  outcome (readIgnoreList Demo.world "ignore.txt") = Ret Demo.ignoreList.
Proof. vm_compute. reflexivity. Qed.

(** Dates of the calendar. *)
Example civil_epoch : civil_from_days 0 = (1970, 1, 1).
Proof. reflexivity. Qed.

Example civil_leap_day : civil_from_days 19782 = (2024, 2, 29).
Proof. reflexivity. Qed.

Example civil_before_epoch : civil_from_days (-1) = (1969, 12, 31).
Proof. reflexivity. Qed.

(** Quoting and parsing. *)
Example parse_spaced_array :
  JSON_parse " [ 1 , -20 ] " = Some (JArray [JNumber 1; JNumber (-20)]).
Proof. vm_compute. reflexivity. Qed.

Example parse_leading_zero : JSON_parse "[01]" = None.
Proof. vm_compute. reflexivity. Qed.

(** ** One candidate *)

Section ScannerFacts.

Context (w : World) (options : Options) (ignoreList : gset string).

Local Abbreviation for_nodes := (for_of_nodes w options ignoreList).
Local Abbreviation while_loop := (while_hasNextPage w options ignoreList).

Lemma format_cases d :
  (∃ s, format w d = ret s) ∨ (d = None ∧ format w d = throw Js.RangeError).
Proof. destruct d; [left | right]; simpl; eauto. Qed.

(** Building a record writes nothing, and only a RangeError can stop it. *)
Lemma make_record_cases repo d :
  (∃ r, make_record w repo d = ret r) ∨
  make_record w repo d = throw Js.RangeError.
Proof.
  unfold make_record.
  destruct (format_cases d) as [[s ->] | [-> ->]]; [| by right].
  rewrite bind_ret_l.
  destruct (format_cases
              (new_Date w (lastCommitDate_of (lastCommitInfo_of (history_of repo)) d)))
    as [[s' ->] | [_ ->]]; [left | by right].
  rewrite bind_ret_l. eauto.
Qed.

Lemma make_record_Ret repo d es r :
  make_record w repo d = (es, Ret r) -> make_record w repo d = ret r.
Proof.
  destruct (make_record_cases repo d) as [[r' ->] | ->]; [| done].
  by intros [= <- <-].
Qed.

Lemma built_from_fields repo r :
  built_from w repo r ->
  StaleRepo.name r = Repo.name repo ∧
  StaleRepo.commits r = totalCommits_of repo ∧
  StaleRepo.size r = size_of repo.
Proof.
  unfold built_from, make_record. intros H.
  destruct (format_cases (parseISO w (Repo.pushedAt repo)))
    as [[s Hs] | [_ Hs]]; rewrite Hs in H; [| done].
  rewrite bind_ret_l in H.
  destruct (format_cases
              (new_Date w (lastCommitDate_of (lastCommitInfo_of (history_of repo))
                             (parseISO w (Repo.pushedAt repo)))))
    as [[s' Hs'] | [_ Hs']]; rewrite Hs' in H; [| done].
  rewrite bind_ret_l in H. by injection H as <-.
Qed.

(** The four ways through the body of the [for] loop. *)
Lemma for_ignored repo rest st :
  ignored ignoreList repo = true ->
  for_nodes (repo :: rest) st =
  (console_log ("Ignoring " +:+ Repo.name repo);; for_nodes rest st).
Proof. unfold ignored. simpl. by intros ->. Qed.

Lemma for_stops repo rest st :
  stops w options ignoreList repo = true ->
  for_nodes (repo :: rest) st = ret (stop st).
Proof.
  unfold stops, ignored. simpl. intros [Hi Ha]%andb_true_iff.
  apply negb_true_iff in Hi. by rewrite Hi, Ha.
Qed.

Lemma for_kept repo rest st :
  ignored ignoreList repo = false ->
  isBefore (parseISO w (Repo.pushedAt repo)) (cutoffDate w options) = true ->
  (totalCommits_of repo <? commitThreshold options) = true ->
  for_nodes (repo :: rest) st =
  (r <- make_record w repo (parseISO w (Repo.pushedAt repo));;
   for_nodes rest (push st r)).
Proof.
  unfold ignored. simpl. intros -> Hb ->. rewrite Hb.
  destruct (parseISO w (Repo.pushedAt repo)) as [p |],
           (cutoffDate w options) as [c |]; simpl in *; try done.
  apply Z.ltb_lt in Hb.
  by replace (c <? p) with false by (symmetry; apply Z.ltb_ge; lia).
Qed.

Lemma for_passed repo rest st :
  ignored ignoreList repo = false ->
  isAfter (parseISO w (Repo.pushedAt repo)) (cutoffDate w options) = false ->
  isBefore (parseISO w (Repo.pushedAt repo)) (cutoffDate w options)
    && (totalCommits_of repo <? commitThreshold options) = false ->
  for_nodes (repo :: rest) st = for_nodes rest st.
Proof. unfold ignored. simpl. by intros -> -> ->. Qed.

Lemma isBefore_stale repo :
  isBefore (parseISO w (Repo.pushedAt repo)) (cutoffDate w options) = true ->
  stale w options repo.
Proof.
  unfold stale.
  destruct (parseISO w (Repo.pushedAt repo)) as [p |],
           (cutoffDate w options) as [c |]; simpl; try done.
  intros H%Z.ltb_lt. by exists p, c.
Qed.


(** ** The [for] loop over a page *)

(** What a completed pass over the nodes of a page leaves behind: the cursor
    is untouched, the flag falls exactly when a candidate stops the scan,
    every new record comes from a candidate of the page that passed the
    three tests, and the only events are the notes of skipped candidates. *)
Lemma for_nodes_Ret l st es st' :
  for_nodes l st = (es, Ret st') ->
  Loop.cursor st' = Loop.cursor st ∧
  Loop.hasNextPage st' =
    Loop.hasNextPage st && negb (existsb (stops w options ignoreList) l) ∧
  (∃ new, Loop.staleRepos st' = Loop.staleRepos st ++ new ∧
          Forall (fun r => ∃ repo, repo ∈ l ∧
                                   emitted_from w options ignoreList repo r) new) ∧
  Forall (ignoring ignoreList) es.
Proof.
  revert st es st'. induction l as [| repo rest IH]; intros st es st' H.
  - injection H as <- <-. rewrite andb_true_r.
    repeat split; [| done]. exists []. by rewrite app_nil_r.
  - destruct (ignored ignoreList repo) eqn:Hi.
    { rewrite for_ignored, bind_console_log in H by done. injection H as <- Ho.
      destruct (for_nodes rest st) as [es0 o0] eqn:Hrest. simpl in Ho. subst o0.
      destruct (IH _ _ _ Hrest) as (Hc & Hn & (new & Hnew & Hall) & Hes).
      simpl. unfold stops at 1. rewrite Hi. simpl.
      repeat split; [done | done | |].
      - exists new. split; [done |].
        eapply Forall_impl; [exact Hall |]. intros r (c & Hin & Hc'). exists c.
        split; [by right | done].
      - constructor; [| done]. exists (Repo.name repo). split; [| done].
        unfold ignored in Hi. by apply bool_decide_eq_true in Hi. }
    destruct (isAfter (parseISO w (Repo.pushedAt repo)) (cutoffDate w options))
      eqn:Ha.
    { rewrite for_stops in H by (unfold stops; by rewrite Hi, Ha).
      injection H as <- <-. simpl. unfold stops at 1. rewrite Hi, Ha. simpl.
      rewrite andb_false_r. repeat split; [| done].
      exists []. by rewrite app_nil_r. }
    destruct (isBefore (parseISO w (Repo.pushedAt repo)) (cutoffDate w options)
              && (totalCommits_of repo <? commitThreshold options)) eqn:Hq.
    + apply andb_true_iff in Hq as [Hb Hlow].
      rewrite for_kept in H by done.
      apply bind_Ret_inv in H as (es1 & r & es2 & Hr & Hrest & ->).
      pose proof (make_record_Ret _ _ _ _ Hr) as Hr'.
      rewrite Hr' in Hr. injection Hr as <-.
      destruct (IH _ _ _ Hrest) as (Hc & Hn & (new & Hnew & Hall) & Hes).
      simpl in *. unfold stops at 1. rewrite Hi, Ha. simpl.
      repeat split; [done | done | | done].
      exists (r :: new). split; [by rewrite Hnew, <- app_assoc |].
      constructor.
      * exists repo. split; [by left |]. repeat split; [done | | |].
        -- by apply isBefore_stale.
        -- by apply Z.ltb_lt.
        -- unfold ignored in Hi. by apply bool_decide_eq_false in Hi.
      * eapply Forall_impl; [exact Hall |]. intros r' (c & Hin & Hc'). exists c.
        split; [by right | done].
    + rewrite for_passed in H by done.
      destruct (IH _ _ _ H) as (Hc & Hn & (new & Hnew & Hall) & Hes).
      simpl. unfold stops at 1. rewrite Hi, Ha. simpl.
      repeat split; [done | done | | done].
      exists new. split; [done |].
      eapply Forall_impl; [exact Hall |]. intros r' (c & Hin & Hc'). exists c.
      split; [by right | done].
Qed.

(** A pass that does not complete dies of a RangeError, having written only
    notes of skipped candidates. *)
Lemma for_nodes_abrupt l st :
  (∃ st', outcome (for_nodes l st) = Ret st') ∨
  outcome (for_nodes l st) = Uncaught Js.RangeError.
Proof.
  revert st. induction l as [| repo rest IH]; intros st; [left; by eexists |].
  destruct (ignored ignoreList repo) eqn:Hi.
  { rewrite for_ignored, bind_console_log by done. apply IH. }
  destruct (isAfter (parseISO w (Repo.pushedAt repo)) (cutoffDate w options))
    eqn:Ha.
  { rewrite for_stops by (unfold stops; by rewrite Hi, Ha). left. by eexists. }
  destruct (isBefore (parseISO w (Repo.pushedAt repo)) (cutoffDate w options)
            && (totalCommits_of repo <? commitThreshold options)) eqn:Hq.
  - apply andb_true_iff in Hq as [Hb Hlow]. rewrite for_kept by done.
    destruct (make_record_cases repo (parseISO w (Repo.pushedAt repo)))
      as [[r ->] | ->]; [| by right].
    rewrite bind_ret_l. apply IH.
  - rewrite for_passed by done. apply IH.
Qed.

Lemma for_nodes_trace l st :
  Forall (ignoring ignoreList) (trace (for_nodes l st)).
Proof.
  revert st. induction l as [| repo rest IH]; intros st; [constructor |].
  destruct (ignored ignoreList repo) eqn:Hi.
  { rewrite for_ignored, bind_console_log by done. constructor; [| apply IH].
    exists (Repo.name repo). split; [| done].
    unfold ignored in Hi. by apply bool_decide_eq_true in Hi. }
  destruct (isAfter (parseISO w (Repo.pushedAt repo)) (cutoffDate w options))
    eqn:Ha.
  { rewrite for_stops by (unfold stops; by rewrite Hi, Ha). constructor. }
  destruct (isBefore (parseISO w (Repo.pushedAt repo)) (cutoffDate w options)
            && (totalCommits_of repo <? commitThreshold options)) eqn:Hq.
  - apply andb_true_iff in Hq as [Hb Hlow]. rewrite for_kept by done.
    destruct (make_record_cases repo (parseISO w (Repo.pushedAt repo)))
      as [[r ->] | ->]; [| constructor].
    rewrite bind_ret_l. apply IH.
  - rewrite for_passed by done. apply IH.
Qed.

End ScannerFacts.

(** ** The [while] loop *)

Section LoopFacts.

Context (w : World) (options : Options) (ignoreList : gset string).

Local Abbreviation for_nodes := (for_of_nodes w options ignoreList).
Local Abbreviation body := (loop_body w options ignoreList).
Local Abbreviation while_loop := (while_hasNextPage w options ignoreList).
Local Abbreviation req := (request options).

Lemma bind_do_fetch {B} cursor (k : Response -> M B) :
  bind (do_fetch w options cursor) k =
  (Fetch (req cursor) :: trace (k (fetch w (req cursor))),
   outcome (k (fetch w (req cursor)))).
Proof.
  unfold do_fetch, bind, emit, ret, trace, outcome. simpl.
  by destruct (k (fetch w (req cursor))).
Qed.

Lemma body_page st repos :
  fetch w (req (Loop.cursor st)) = Ok (Some repos) ->
  body st =
  (Fetch (req (Loop.cursor st)) :: trace (for_nodes (nodes repos) st),
   match outcome (for_nodes (nodes repos) st) with
   | Ret st' => Ret (advance repos st')
   | Exit c => Exit c
   | Uncaught e => Uncaught e
   | OutOfFuel => OutOfFuel
   end).
Proof.
  intros H. unfold loop_body. rewrite bind_do_fetch, H.
  destruct (for_nodes (nodes repos) st) as [es [st' | c | e |]]; simpl; try done.
  by rewrite app_nil_r.
Qed.

Lemma body_NotOk st text :
  fetch w (req (Loop.cursor st)) = NotOk text ->
  body st = ([Fetch (req (Loop.cursor st)); api_error text], Exit 1).
Proof.
  intros H. unfold loop_body. by rewrite bind_do_fetch, H.
Qed.

Lemma body_throws st :
  fetch w (req (Loop.cursor st)) = NetworkFailure ∨
  fetch w (req (Loop.cursor st)) = Ok None ->
  body st = ([Fetch (req (Loop.cursor st))], Uncaught Js.TypeError).
Proof.
  intros H. unfold loop_body. rewrite bind_do_fetch.
  by destruct H as [-> | ->].
Qed.

Lemma body_Ret st es st1 :
  body st = (es, Ret st1) ->
  ∃ repos es' st',
    fetch w (req (Loop.cursor st)) = Ok (Some repos) ∧
    for_nodes (nodes repos) st = (es', Ret st') ∧
    es = Fetch (req (Loop.cursor st)) :: es' ∧
    st1 = advance repos st'.
Proof.
  destruct (fetch w (req (Loop.cursor st))) as [| text | [repos |]] eqn:Hf.
  - rewrite body_throws by auto. done.
  - rewrite body_NotOk with (text := text) by done. done.
  - rewrite body_page with (repos := repos) by done.
    destruct (for_nodes (nodes repos) st) as [es' [st' | c | e |]] eqn:Hfor;
      simpl; try done.
    intros [= <- <-]. by exists repos, es', st'.
  - rewrite body_throws by auto. done.
Qed.

Lemma while_done fuel st :
  Loop.hasNextPage st = false -> while_loop fuel st = ret (Loop.staleRepos st).
Proof. intros H. destruct fuel; simpl; by rewrite H. Qed.

Lemma while_step fuel st :
  Loop.hasNextPage st = true ->
  while_loop (S fuel) st = (st' <- body st;; while_loop fuel st').
Proof. intros H. simpl. by rewrite H. Qed.

Lemma advance_staleRepos repos st :
  Loop.staleRepos (advance repos st) = Loop.staleRepos st.
Proof. unfold advance. by destruct (Loop.hasNextPage st). Qed.

Lemma fetched_mono es es' repo :
  (∀ e, e ∈ es -> e ∈ es') -> fetched w options es repo -> fetched w options es' repo.
Proof. intros H (c & repos & Hin & Hf & Hr). exists c, repos. auto. Qed.

(** Every record that the loop returns beyond those it started with comes
    from a candidate of a requested page that passed the three tests. *)
Lemma while_Ret fuel st es results :
  while_loop fuel st = (es, Ret results) ->
  ∃ new, results = Loop.staleRepos st ++ new ∧
         Forall (fun r => ∃ repo, fetched w options es repo ∧
                                  emitted_from w options ignoreList repo r) new.
Proof.
  revert st es results. induction fuel as [| fuel IH]; intros st es results H.
  - simpl in H. destruct (Loop.hasNextPage st); [done |].
    injection H as <- <-. exists []. by rewrite app_nil_r.
  - destruct (Loop.hasNextPage st) eqn:Hn.
    2:{ rewrite while_done in H by done. injection H as <- <-.
        exists []. by rewrite app_nil_r. }
    rewrite while_step in H by done.
    apply bind_Ret_inv in H as (es1 & st1 & es2 & Hb & Hw & ->).
    apply body_Ret in Hb as (repos & es' & st' & Hf & Hfor & -> & ->).
    apply for_nodes_Ret in Hfor as (_ & _ & (new1 & Hnew1 & Hall1) & _).
    apply IH in Hw as (new2 & -> & Hall2).
    rewrite advance_staleRepos, Hnew1, <- app_assoc.
    exists (new1 ++ new2). split; [done |]. apply Forall_app. split.
    + eapply Forall_impl; [exact Hall1 |]. intros r (repo & Hin & He).
      exists repo. split; [| done]. exists (Loop.cursor st), repos.
      split; [by left | done].
    + eapply Forall_impl; [exact Hall2 |]. intros r (repo & Hfe & He).
      exists repo. split; [| done]. eapply fetched_mono; [| exact Hfe].
      intros e He'. right. apply elem_of_app. by right.
Qed.

End LoopFacts.

(** C1.  Every record that [fetchStaleRepos] returns was built from a
    candidate of a page that the run requested, and that candidate was pushed
    strictly before the cutoff, has an effective commit count (the count of
    the record) strictly below the threshold, and bears a name that is not on
    the ignore list. *)
Theorem emitted_records_are_stale_low_and_not_ignored
    (w : World) (options : Options) (ignoreList : gset string) (fuel : nat)
    (results : list StaleRepo.t) :
  outcome (fetchStaleRepos w options ignoreList fuel) = Ret results ->
  Forall (fun r =>
            ∃ repo pushed cutoff,
              fetched w options (trace (fetchStaleRepos w options ignoreList fuel)) repo ∧
              built_from w repo r ∧
              parseISO w (Repo.pushedAt repo) = Some pushed ∧
              cutoffDate w options = Some cutoff ∧
              pushed < cutoff ∧
              StaleRepo.commits r = totalCommits_of repo ∧
              StaleRepo.commits r < commitThreshold options ∧
              StaleRepo.name r = Repo.name repo ∧
              StaleRepo.name r ∉ ignoreList)
         results.
Proof.
  unfold fetchStaleRepos.
  destruct (while_hasNextPage w options ignoreList fuel initial) as [es o] eqn:H.
  simpl. intros ->. apply while_Ret in H as (new & -> & Hall). simpl.
  eapply Forall_impl; [exact Hall |].
  intros r (repo & Hfe & Hb & (pushed & cutoff & Hp & Hc & Hlt) & Hlow & Hni).
  destruct (built_from_fields _ _ _ Hb) as (Hname & Hcommits & _).
  exists repo, pushed, cutoff. rewrite Hname, Hcommits. by repeat split.
Qed.

(** The scan of the demo organisation returns its two records, so the
    hypothesis of C1 is met and its conclusion applies. *)
Lemma emitted_records_witness :
  ∃ results,
    outcome (fetchStaleRepos Demo.world Demo.options Demo.ignoreList 5) = Ret results ∧
    length results = 2%nat ∧
    Forall (fun r => StaleRepo.commits r < 20 ∧ StaleRepo.name r ∉ Demo.ignoreList)
           results.
Proof.
  eexists. split; [vm_compute; reflexivity |]. split; [reflexivity |].
  eapply Forall_impl.
  - apply (emitted_records_are_stale_low_and_not_ignored
             Demo.world Demo.options Demo.ignoreList 5).
    vm_compute. reflexivity.
  - simpl. intros r (repo & pushed & cutoff & _ & _ & _ & _ & _ & _ & Hlow & _ & Hni).
    split; assumption.
Defined.

(** ** Skipped, passed over, and stopping candidates *)

Section Candidates.

Context (w : World) (options : Options) (ignoreList : gset string).

Local Abbreviation for_nodes := (for_of_nodes w options ignoreList).
Local Abbreviation body := (loop_body w options ignoreList).
Local Abbreviation while_loop := (while_hasNextPage w options ignoreList).
Local Abbreviation req := (request options).

Lemma bind_assoc {A B C} (m : M A) (k : A -> M B) (k' : B -> M C) :
  bind (bind m k) k' = bind m (fun a => bind (k a) k').
Proof.
  destruct m as [es [a | c | e |]]; simpl; try done.
  destruct (k a) as [es1 [b | c | e |]]; simpl; try done.
  destruct (k' b) as [es2 o]. by rewrite app_assoc.
Qed.

Lemma bind_ext {A B} (m : M A) (k k' : A -> M B) :
  (∀ a, k a = k' a) -> bind m k = bind m k'.
Proof.
  intros H. destruct m as [es [a | c | e |]]; simpl; try done. by rewrite H.
Qed.

(** The nodes before a point of the page are processed first; the rest is
    looked at only if none of them stopped the scan. *)
Lemma for_nodes_app pre l st :
  for_nodes (pre ++ l) st =
  (st1 <- for_nodes pre st;;
   if existsb (stops w options ignoreList) pre then ret st1 else for_nodes l st1).
Proof.
  revert st. induction pre as [| repo pre IH]; intros st.
  - simpl app. simpl existsb. change (for_nodes [] st) with (ret (A := Loop.t) st).
    by rewrite bind_ret_l.
  - simpl app. simpl existsb. destruct (ignored ignoreList repo) eqn:Hi.
    { assert (Hs : stops w options ignoreList repo = false)
        by (unfold stops; by rewrite Hi).
      rewrite !for_ignored, Hs, orb_false_l by done.
      rewrite bind_assoc. apply bind_ext. intros _. apply IH. }
    destruct (isAfter (parseISO w (Repo.pushedAt repo)) (cutoffDate w options))
      eqn:Ha.
    { assert (Hs : stops w options ignoreList repo = true)
        by (unfold stops; by rewrite Hi, Ha).
      rewrite !for_stops, Hs, orb_true_l by done. by rewrite bind_ret_l. }
    assert (Hs : stops w options ignoreList repo = false)
      by (unfold stops; by rewrite Hi, Ha).
    rewrite Hs, orb_false_l.
    destruct (isBefore (parseISO w (Repo.pushedAt repo)) (cutoffDate w options)
              && (totalCommits_of repo <? commitThreshold options)) eqn:Hq.
    + apply andb_true_iff in Hq as [Hb Hlow]. rewrite !for_kept by done.
      rewrite bind_assoc. apply bind_ext. intros r. apply IH.
    + rewrite !for_passed by done. apply IH.
Qed.

(** C4.  A candidate whose name is on the ignore list is skipped with a note
    and the scan goes on with the next candidate in the same state: no
    record, no halt.  Nothing but its name is read, so whatever its push
    date, even one after the cutoff, the scan does the same; and no record
    that the scan returns bears an ignored name. *)
Theorem ignored_candidate_is_skipped
    (repo : Repo.t) (rest : list Repo.t) (st : Loop.t) :
  Repo.name repo ∈ ignoreList ->
  for_nodes (repo :: rest) st =
    (console_log ("Ignoring " +:+ Repo.name repo);; for_nodes rest st) ∧
  (∀ other, Repo.name other = Repo.name repo ->
            for_nodes (other :: rest) st = for_nodes (repo :: rest) st) ∧
  (∀ pre, for_nodes (pre ++ repo :: rest) st =
          (st1 <- for_nodes pre st;;
           if existsb (stops w options ignoreList) pre then ret st1
           else console_log ("Ignoring " +:+ Repo.name repo);; for_nodes rest st1)) ∧
  (∀ fuel results,
     outcome (fetchStaleRepos w options ignoreList fuel) = Ret results ->
     Forall (fun r => StaleRepo.name r ≠ Repo.name repo) results).
Proof.
  intros Hin.
  assert (Hi : ignored ignoreList repo = true)
    by (unfold ignored; by apply bool_decide_eq_true).
  repeat split.
  - by apply for_ignored.
  - intros other Hname.
    assert (Hi' : ignored ignoreList other = true)
      by (unfold ignored; rewrite Hname; by apply bool_decide_eq_true).
    rewrite !for_ignored by done. by rewrite Hname.
  - intros pre. rewrite for_nodes_app. apply bind_ext. intros st1.
    destruct (existsb _ pre); [done |]. by apply for_ignored.
  - intros fuel results H. unfold fetchStaleRepos in H.
    destruct (while_hasNextPage w options ignoreList fuel initial) as [es o] eqn:Hw.
    simpl in H. subst o. apply while_Ret in Hw as (new & -> & Hall). simpl.
    eapply Forall_impl; [exact Hall |].
    intros r (c & _ & Hb & _ & _ & Hni) Heq.
    destruct (built_from_fields _ _ _ Hb) as (Hname & _).
    apply Hni. by rewrite <- Hname, Heq.
Qed.

(** C9.  A candidate that is not ignored and whose push date is exactly the
    cutoff is neither kept nor a reason to stop: the pass over the page is
    the pass over the page without it, wherever it stands, so the candidates
    after it are processed and the page ends as it would have without it. *)
Theorem candidate_at_cutoff_is_passed_over
    (repo : Repo.t) (cutoff : Z) (pre post : list Repo.t) (st : Loop.t) :
  Repo.name repo ∉ ignoreList ->
  parseISO w (Repo.pushedAt repo) = Some cutoff ->
  cutoffDate w options = Some cutoff ->
  stops w options ignoreList repo = false ∧
  for_nodes (repo :: post) st = for_nodes post st ∧
  for_nodes (pre ++ repo :: post) st = for_nodes (pre ++ post) st ∧
  (∀ repos,
     fetch w (req (Loop.cursor st)) = Ok (Some repos) ->
     nodes repos = pre ++ repo :: post ->
     body st =
     (emit (Fetch (req (Loop.cursor st)));;
      st' <- for_nodes (pre ++ post) st;;
      ret (advance repos st'))).
Proof.
  intros Hni Hp Hc.
  assert (Hi : ignored ignoreList repo = false)
    by (unfold ignored; by apply bool_decide_eq_false).
  assert (Ha : isAfter (parseISO w (Repo.pushedAt repo)) (cutoffDate w options)
               = false)
    by (rewrite Hp, Hc; simpl; apply Z.ltb_irrefl).
  assert (Hb : isBefore (parseISO w (Repo.pushedAt repo)) (cutoffDate w options)
               = false)
    by (rewrite Hp, Hc; simpl; apply Z.ltb_irrefl).
  assert (Hone : ∀ st0, for_nodes (repo :: post) st0 = for_nodes post st0).
  { intros st0. apply for_passed; [done | done |]. by rewrite Hb. }
  assert (Happ : for_nodes (pre ++ repo :: post) st = for_nodes (pre ++ post) st).
  { rewrite !for_nodes_app. apply bind_ext. intros st1. by rewrite Hone. }
  repeat split.
  - unfold stops. by rewrite Ha, andb_false_r.
  - apply Hone.
  - apply Happ.
  - intros repos Hf Hnodes. unfold loop_body.
    rewrite bind_do_fetch, bind_emit, Hf, Hnodes, Happ. reflexivity.
Qed.

End Candidates.

(** Membership in a concrete ignore list is settled by evaluation. *)
Ltac decide_by_computation :=
  apply (bool_decide_unpack _); vm_compute; exact I.

(** The demo organisation has [legacy] on its ignore list. *)
Lemma ignored_candidate_witness :
  for_of_nodes Demo.world Demo.options Demo.ignoreList
    [Demo.legacy; Demo.alpha] initial =
  (console_log "Ignoring legacy";;
   for_of_nodes Demo.world Demo.options Demo.ignoreList [Demo.alpha] initial).
Proof.
  refine (proj1 (ignored_candidate_is_skipped
                   Demo.world Demo.options Demo.ignoreList
                   Demo.legacy [Demo.alpha] initial _)).
  decide_by_computation.
Defined.

(** [edge] was pushed at the very instant of the cutoff of the demo run. *)
Lemma candidate_at_cutoff_witness :
  stops Demo.world Demo.options Demo.ignoreList Demo.edge = false ∧
  for_of_nodes Demo.world Demo.options Demo.ignoreList
    ([Demo.alpha] ++ Demo.edge :: [Demo.fresh]) initial =
  for_of_nodes Demo.world Demo.options Demo.ignoreList
    ([Demo.alpha] ++ [Demo.fresh]) initial.
Proof.
  pose proof (candidate_at_cutoff_is_passed_over
                Demo.world Demo.options Demo.ignoreList
                Demo.edge 1734448000000 [Demo.alpha] [Demo.fresh] initial) as H.
  destruct H as (H1 & _ & H3 & _).
  - decide_by_computation.
  - vm_compute. reflexivity.
  - vm_compute. reflexivity.
  - split; [exact H1 | exact H3].
Defined.

(** ** The early stop *)

Section EarlyStop.

Context (w : World) (options : Options) (ignoreList : gset string).

Local Abbreviation for_nodes := (for_of_nodes w options ignoreList).
Local Abbreviation while_loop := (while_hasNextPage w options ignoreList).
Local Abbreviation req := (request options).

(** C2, amended.  A candidate that is not ignored and was pushed strictly
    after the cutoff ends the scan at once: when the loop requests a page
    and the candidates before it on that page are processed, the request of
    that page is the last one, the only events after it are those of the
    candidates before it (notes of skipped ones), and the records returned
    are those gathered up to it, whatever follows on the page. *)
Theorem candidate_after_cutoff_ends_the_scan
    (fuel : nat) (st : Loop.t) (repos : Repositories)
    (pre : list Repo.t) (repo : Repo.t) (post : list Repo.t)
    (es : list Event) (st1 : Loop.t) :
  Loop.hasNextPage st = true ->
  fetch w (req (Loop.cursor st)) = Ok (Some repos) ->
  nodes repos = pre ++ repo :: post ->
  for_nodes pre st = (es, Ret st1) ->
  Repo.name repo ∉ ignoreList ->
  isAfter (parseISO w (Repo.pushedAt repo)) (cutoffDate w options) = true ->
  while_loop (S fuel) st =
    (Fetch (req (Loop.cursor st)) :: es, Ret (Loop.staleRepos st1)) ∧
  for_nodes (repo :: post) st1 = ret (stop st1) ∧
  Forall (ignoring ignoreList) es.
Proof.
  intros Hn Hf Hnodes Hpre Hni Ha.
  assert (Hs : stops w options ignoreList repo = true).
  { unfold stops, ignored. rewrite Ha, andb_true_r. apply negb_true_iff.
    by apply bool_decide_eq_false. }
  assert (Hfor : ∃ st2, for_nodes (nodes repos) st = (es, Ret st2) ∧
                        Loop.hasNextPage st2 = false ∧
                        Loop.staleRepos st2 = Loop.staleRepos st1).
  { rewrite Hnodes, for_nodes_app, Hpre, bind_pair.
    destruct (existsb (stops w options ignoreList) pre) eqn:Hex.
    - unfold ret, trace, outcome. simpl fst. simpl snd. rewrite app_nil_r.
      exists st1. repeat split.
      apply for_nodes_Ret in Hpre as (_ & -> & _). by rewrite Hn, Hex.
    - rewrite for_stops by done.
      unfold ret, trace, outcome. simpl fst. simpl snd. rewrite app_nil_r.
      by exists (stop st1). }
  destruct Hfor as (st2 & Hfor & Hn2 & Hst2).
  repeat split.
  - rewrite while_step by done.
    rewrite (body_page w options ignoreList st repos Hf), Hfor. simpl.
    unfold advance. rewrite Hn2. rewrite while_done by done.
    simpl. by rewrite app_nil_r, Hst2.
  - by apply for_stops.
  - by apply for_nodes_Ret in Hpre as (_ & _ & _ & ?).
Qed.

End EarlyStop.

(** In the demo organisation with a stray old candidate, [fresh] ends the
    scan although [late], listed after it, is old and small. *)
Lemma candidate_after_cutoff_witness :
  while_hasNextPage Demo.shuffled Demo.options Demo.ignoreList 1 Demo.at_c2 =
  ([Fetch (request Demo.options (Some "c2"))], Ret []).
Proof.
  refine (proj1 (candidate_after_cutoff_ends_the_scan
                   Demo.shuffled Demo.options Demo.ignoreList 0 Demo.at_c2
                   {| nodes := [Demo.fresh; Demo.late];
                      pageInfo := {| endCursor := Some "c3"; hasNextPage := true |} |}
                   [] Demo.fresh [Demo.late] [] Demo.at_c2 _ _ _ _ _ _)).
  - reflexivity.
  - reflexivity.
  - reflexivity.
  - reflexivity.
  - decide_by_computation.
  - vm_compute. reflexivity.
Defined.

(** C2 as stated fails.  The stream of the demo organisation is in
    ascending order of push date; [edge] is not ignored and is not before the
    cutoff (it is at the cutoff); yet the scan goes on after it: the loop that
    requests the page of [edge] requests the next page too. *)
Lemma not_before_does_not_end_the_scan :
  ascending Demo.world
    [Demo.legacy; Demo.alpha; Demo.busy; Demo.empty; Demo.edge; Demo.fresh] = true ∧
  trace (while_hasNextPage Demo.world Demo.options Demo.ignoreList 2 Demo.at_c1) =
    [Fetch (request Demo.options (Some "c1"));
     Fetch (request Demo.options (Some "c2"))] ∧
  ¬ stops_when_not_before Demo.world Demo.options Demo.ignoreList.
Proof.
  split; [vm_compute; reflexivity |]. split; [vm_compute; reflexivity |].
  intros H.
  specialize (H 1%nat Demo.at_c1
                {| nodes := [Demo.edge];
                   pageInfo := {| endCursor := Some "c2"; hasNextPage := true |} |}
                [] Demo.edge [] [] Demo.at_c1).
  assert (Hni : "edge" ∉ Demo.ignoreList) by decide_by_computation.
  specialize (H eq_refl eq_refl eq_refl eq_refl eq_refl Hni).
  assert (Hb : isBefore (parseISO Demo.world (Repo.pushedAt Demo.edge))
                 (cutoffDate Demo.world Demo.options) = false)
    by (vm_compute; reflexivity).
  specialize (H Hb). vm_compute in H. discriminate H.
Qed.

(** ** A refused request *)

Section Refusal.

Context (w : World) (options : Options).

Local Abbreviation req := (request options).

(** Once a request is refused the loop is over: the refusal is the last
    request, the body of the response is written on the error stream, and
    the process exits with code 1.  Before it there are only answered
    requests and notes of skipped candidates. *)
Lemma while_NotOk ignoreList fuel st cursor text :
  Fetch (req cursor) ∈ trace (while_hasNextPage w options ignoreList fuel st) ->
  fetch w (req cursor) = NotOk text ->
  outcome (while_hasNextPage w options ignoreList fuel st) = Exit 1 ∧
  ∃ es0,
    trace (while_hasNextPage w options ignoreList fuel st) =
      es0 ++ [Fetch (req cursor); api_error text] ∧
    Forall (fun e => ignoring ignoreList e ∨ answered w options e) es0.
Proof.
  revert st. induction fuel as [| fuel IH]; intros st Hin Hf.
  { simpl in Hin. destruct (Loop.hasNextPage st); simpl in Hin;
      by apply elem_of_nil in Hin. }
  destruct (Loop.hasNextPage st) eqn:Hn.
  2:{ rewrite while_done in Hin by done. by apply elem_of_nil in Hin. }
  rewrite while_step in * by done.
  assert (Hnote : ∀ l st0, Fetch (req cursor) ∉
                    trace (for_of_nodes w options ignoreList l st0)).
  { intros l st0 Hin'.
    pose proof (for_nodes_trace w options ignoreList l st0) as Hall.
    rewrite Forall_forall in Hall. by destruct (Hall _ Hin') as (? & _ & ?). }
  destruct (fetch w (req (Loop.cursor st))) as [| text' | [repos |]] eqn:Hst.
  - rewrite body_throws in * by auto. simpl in *.
    apply list_elem_of_singleton in Hin. injection Hin as Heq.
    rewrite Heq in Hf. congruence.
  - rewrite (body_NotOk w options ignoreList st text') in * by done. simpl in *.
    apply elem_of_cons in Hin as [Hin | Hin].
    + injection Hin as Heq. rewrite Heq in Hf.
      assert (text' = text) as -> by congruence.
      split; [done |]. exists []. split; [by rewrite Heq | constructor].
    + by apply list_elem_of_singleton in Hin.
  - rewrite (body_page w options ignoreList st repos) in * by done.
    destruct (for_of_nodes w options ignoreList (nodes repos) st)
      as [es' [st' | c | e |]] eqn:Hfor; simpl in Hin |- *.
    + destruct (while_hasNextPage w options ignoreList fuel (advance repos st'))
        as [es2 o2] eqn:Hw. simpl in Hin |- *.
      apply elem_of_cons in Hin as [Hin | Hin].
      { injection Hin as Heq. rewrite Heq in Hf. congruence. }
      apply elem_of_app in Hin as [Hin | Hin].
      { exfalso. apply (Hnote (nodes repos) st). by rewrite Hfor. }
      destruct (IH (advance repos st')) as (Ho & es0 & Ht & Hall).
      { by rewrite Hw. }
      { done. }
      rewrite Hw in Ho, Ht. simpl in Ho, Ht. subst o2 es2.
      split; [done |].
      exists (Fetch (req (Loop.cursor st)) :: es' ++ es0).
      split; [simpl; f_equal; apply app_assoc |].
      constructor; [right; by exists (Loop.cursor st), repos |].
      apply Forall_app. split; [| done].
      pose proof (for_nodes_trace w options ignoreList (nodes repos) st) as Hes.
      rewrite Hfor in Hes. eapply Forall_impl; [exact Hes | by left].
    + apply elem_of_cons in Hin as [Hin | Hin].
      { injection Hin as Heq. rewrite Heq in Hf. congruence. }
      exfalso. apply (Hnote (nodes repos) st). by rewrite Hfor.
    + apply elem_of_cons in Hin as [Hin | Hin].
      { injection Hin as Heq. rewrite Heq in Hf. congruence. }
      exfalso. apply (Hnote (nodes repos) st). by rewrite Hfor.
    + apply elem_of_cons in Hin as [Hin | Hin].
      { injection Hin as Heq. rewrite Heq in Hf. congruence. }
      exfalso. apply (Hnote (nodes repos) st). by rewrite Hfor.
  - rewrite body_throws in * by auto. simpl in *.
    apply list_elem_of_singleton in Hin. injection Hin as Heq.
    rewrite Heq in Hf. congruence.
Qed.

End Refusal.

(** ** The whole run and its report *)

Section Run.

Context (w : World) (options : Options).

Local Abbreviation req := (request options).

(** Reading the ignore list always gives a set, and writes at most the
    reading of the file. *)
Lemma ignore_list_loaded :
  ∃ es S,
    (if Js.truthy (ignore options)
     then readIgnoreList w (default "" (ignore options))
     else ret ∅) = (es, Ret S) ∧
    Forall (fun e => ∃ path, e = ReadTextFile path) es.
Proof.
  destruct (Js.truthy (ignore options)).
  - unfold readIgnoreList. rewrite bind_emit.
    destruct (readTextFile w (default "" (ignore options))); simpl;
      eexists _, _; (split; [reflexivity |]); repeat constructor; by eexists.
  - exists [], ∅. split; [done | constructor].
Qed.

Lemma render_events results e :
  e ∈ trace (render options results) ->
  e = ConsoleLog (JSON_stringify (json_of_results results)) ∨
  (∃ file content, e = WriteTextFile file content) ∨
  (∃ file, e = ConsoleLog ("📄 CSV saved to " +:+ file)) ∨
  (∃ header rows, e = TableRender header rows).
Proof.
  unfold render. destruct (json options).
  - intros ->%list_elem_of_singleton. by left.
  - destruct (Js.truthy (csv options)).
    + rewrite bind_emit. simpl.
      intros [-> | ->%list_elem_of_singleton]%elem_of_cons.
      * right. left. by eexists _, _.
      * right. right. left. by eexists.
    + intros ->%list_elem_of_singleton. right. right. right. by eexists _, _.
Qed.

Lemma stringify_results_head results :
  String.get 0 (JSON_stringify (json_of_results results)) = Some "["%char.
Proof. by destruct results. Qed.

Lemma report_event_chars e :
  report_event options e ->
  char_at 0 e = Some "["%char ∨ char_at 2 e = Some "147"%char ∨ char_at 0 e = None.
Proof.
  intros [results H]. apply render_events in H as [H | [H | [H | H]]].
  - left. rewrite H. apply stringify_results_head.
  - right. right. by destruct H as (? & ? & ->).
  - right. left. by destruct H as (? & ->).
  - right. right. by destruct H as (? & ? & ->).
Qed.

Lemma banner_is_no_report : ¬ report_event options (ConsoleLog (banner options)).
Proof. by intros [H | [H | H]]%report_event_chars. Qed.

Lemma note_is_no_report name :
  ¬ report_event options (ConsoleLog ("Ignoring " +:+ name)).
Proof. by intros [H | [H | H]]%report_event_chars. Qed.

Lemma other_is_no_report e :
  (∃ path, e = ReadTextFile path) ∨ (∃ r, e = Fetch r) ∨ (∃ line, e = ConsoleError line) ->
  ¬ report_event options e.
Proof.
  intros He [results H]. apply render_events in H.
  destruct He as [[? ->] | [[? ->] | [? ->]]];
    destruct H as [H | [(? & ? & H) | [(? & H) | (? & ? & H)]]]; discriminate H.
Qed.

(** C5.  If any request of a run is refused (a response that is not ok),
    the run ends there: the refused request is the last request, the body of
    the response is written on the error stream as the last event, the
    process exits with code 1, and nothing of a report (JSON, CSV file or
    table) is written at any point of the run. *)
Theorem refused_request_aborts_the_run
    (fuel : nat) (cursor : option string) (text : string) :
  Fetch (req cursor) ∈ trace (main w options fuel) ->
  fetch w (req cursor) = NotOk text ->
  outcome (main w options fuel) = Exit 1 ∧
  (∃ es0, trace (main w options fuel) =
            es0 ++ [Fetch (req cursor); api_error text] ∧
          Forall (fun e => ∀ r, e = Fetch r -> ∃ repos, fetch w r = Ok (Some repos)) es0) ∧
  Forall (fun e => ¬ report_event options e) (trace (main w options fuel)).
Proof.
  unfold main. destruct (Js.truthy (token options)); simpl negb; cbv iota.
  2:{ unfold console_error. rewrite bind_emit. simpl.
      intros H%list_elem_of_singleton. discriminate H. }
  destruct ignore_list_loaded as (es_i & S & -> & Hes_i).
  rewrite bind_console_log, bind_pair. unfold trace at 1, outcome at 1. simpl fst. simpl snd.
  destruct (fetchStaleRepos w options S fuel) as [es_f o_f] eqn:Hfsr.
  assert (Hin_i : Fetch (req cursor) ∉ es_i).
  { intros Hin. rewrite Forall_forall in Hes_i. by destruct (Hes_i _ Hin). }
  assert (Hkey : Fetch (req cursor) ∈ es_f ->
                 fetch w (req cursor) = NotOk text ->
                 o_f = Exit 1 ∧
                 ∃ es0, es_f = es0 ++ [Fetch (req cursor); api_error text] ∧
                        Forall (fun e => ignoring S e ∨ answered w options e) es0).
  { intros Hin Hf. unfold fetchStaleRepos in Hfsr.
    destruct (while_NotOk w options S fuel initial cursor text) as (Ho & es0 & Ht & Hall).
    - by rewrite Hfsr.
    - done.
    - rewrite Hfsr in Ho, Ht. by eauto. }
  destruct o_f as [results | c | e |].
  - rewrite bind_pair. intros Hin Hf. exfalso.
    assert (Hes_f : Fetch (req cursor) ∈ es_f).
    { apply elem_of_cons in Hin as [Hin | Hin]; [discriminate Hin |].
      apply elem_of_app in Hin as [Hin | Hin]; [done |].
      unfold trace at 1 in Hin. simpl fst in Hin.
      apply elem_of_app in Hin as [Hin | Hin]; [done |]. exfalso.
      destruct (length results =? 0)%nat.
      - apply list_elem_of_singleton in Hin. discriminate Hin.
      - pose proof (render_events results (Fetch (req cursor))) as Hr.
        destruct (render options results) as [es' o]. simpl in Hin, Hr.
        apply elem_of_cons in Hin as [Hin | Hin]; [discriminate Hin |].
        destruct (Hr Hin)
          as [H | [(? & ? & H) | [(? & H) | (? & ? & H)]]]; discriminate H. }
    by destruct (Hkey Hes_f Hf).
  - simpl. intros Hin Hf.
    assert (Hes_f : Fetch (req cursor) ∈ es_f).
    { apply elem_of_cons in Hin as [Hin | Hin]; [discriminate Hin |].
      by apply elem_of_app in Hin as [Hin | Hin]. }
    destruct (Hkey Hes_f Hf) as ([= ->] & es0 & -> & Hall).
    split; [done |]. split.
    + exists (ConsoleLog (banner options) :: es_i ++ es0). split.
      * simpl. f_equal. apply app_assoc.
      * constructor; [discriminate |]. apply Forall_app. split.
        -- eapply Forall_impl; [exact Hes_i |]. by intros e0 [? ->] r.
        -- eapply Forall_impl; [exact Hall |].
           intros e0 [(? & _ & ->) | (c0 & repos & -> & Hok)] r; [done |].
           intros [= <-]. by exists repos.
    + constructor; [apply banner_is_no_report |]. apply Forall_app. split.
      * eapply Forall_impl; [exact Hes_i |]. intros e0 He0.
        apply other_is_no_report. by left.
      * apply Forall_app. split.
        -- eapply Forall_impl; [exact Hall |].
           intros e0 [(n & _ & ->) | (c0 & repos & -> & _)].
           ++ apply note_is_no_report.
           ++ apply other_is_no_report. right. left. by eexists.
        -- repeat constructor; apply other_is_no_report.
           ++ right. left. by eexists.
           ++ right. right. by eexists.
  - simpl. intros Hin Hf.
    assert (Hes_f : Fetch (req cursor) ∈ es_f).
    { apply elem_of_cons in Hin as [Hin | Hin]; [discriminate Hin |].
      by apply elem_of_app in Hin as [Hin | Hin]. }
    by destruct (Hkey Hes_f Hf).
  - simpl. intros Hin Hf.
    assert (Hes_f : Fetch (req cursor) ∈ es_f).
    { apply elem_of_cons in Hin as [Hin | Hin]; [discriminate Hin |].
      by apply elem_of_app in Hin as [Hin | Hin]. }
    by destruct (Hkey Hes_f Hf).
Qed.

End Run.

(** The source of [Demo.refusing] answers the first request and refuses the
    second. *)
Lemma refused_request_witness :
  outcome (main Demo.refusing Demo.options 5) = Exit 1 ∧
  ∃ es0, trace (main Demo.refusing Demo.options 5) =
         es0 ++ [Fetch (request Demo.options (Some "c1"));
                 api_error "Bad credentials"].
Proof.
  destruct (refused_request_aborts_the_run
              Demo.refusing Demo.options 5 (Some "c1") "Bad credentials")
    as (Ho & (es0 & Ht & _) & _).
  - apply list_elem_of_In. vm_compute. tauto.
  - reflexivity.
  - split; [exact Ho |]. exists es0. exact Ht.
Defined.

(** ** Termination of the loop *)

Section Termination.

Context (w : World) (options : Options) (ignoreList : gset string).

Local Abbreviation for_nodes := (for_of_nodes w options ignoreList).
Local Abbreviation while_loop := (while_hasNextPage w options ignoreList).
Local Abbreviation req := (request options).

(** With readable last-commit dates the pass over a page completes. *)
Lemma for_nodes_completes l st :
  (∀ repo c, repo ∈ l ->
             lastCommitInfo_of (history_of repo) = Some c ->
             is_Some (Date_parse w (committedDate c))) ->
  ∃ st', outcome (for_nodes l st) = Ret st'.
Proof.
  revert st. induction l as [| repo rest IH]; intros st Hd; [by eexists |].
  assert (Hrest : ∀ st0, ∃ st', outcome (for_nodes rest st0) = Ret st').
  { intros st0. apply IH. intros r c Hr. apply Hd. by right. }
  destruct (ignored ignoreList repo) eqn:Hi.
  { rewrite for_ignored, bind_console_log by done. apply Hrest. }
  destruct (isAfter (parseISO w (Repo.pushedAt repo)) (cutoffDate w options))
    eqn:Ha.
  { rewrite for_stops by (unfold stops; by rewrite Hi, Ha). by eexists. }
  destruct (isBefore (parseISO w (Repo.pushedAt repo)) (cutoffDate w options)
            && (totalCommits_of repo <? commitThreshold options)) eqn:Hq.
  2:{ rewrite for_passed by done. apply Hrest. }
  apply andb_true_iff in Hq as [Hb Hlow]. rewrite for_kept by done.
  assert (Hrec : ∃ r, make_record w repo (parseISO w (Repo.pushedAt repo)) = ret r).
  { unfold make_record.
    destruct (parseISO w (Repo.pushedAt repo)) as [t |] eqn:Hp; [| done].
    simpl format at 1. rewrite bind_ret_l.
    assert (Hlast : is_Some (new_Date w (lastCommitDate_of
                               (lastCommitInfo_of (history_of repo)) (Some t)))).
    { unfold lastCommitDate_of.
      destruct (lastCommitInfo_of (history_of repo)) as [c |] eqn:Hc; [| by eexists].
      simpl. destruct (String.eqb (committedDate c) "") eqn:He; simpl; [by eexists |].
      eapply Hd; [by left | done]. }
    destruct Hlast as [t' ->]. simpl format. rewrite bind_ret_l. by eexists. }
  destruct Hrec as [r ->]. rewrite bind_ret_l. apply Hrest.
Qed.

(** The loop from any state: if every cursor is answered with a page whose
    last-commit dates are readable and, when it announces more, whose end
    cursor lies strictly further in a stream of [total] positions, then
    [total] minus the position of the state, plus one, turns are enough. *)
Lemma while_terminates (position : option string -> nat) (total : nat) :
  (∀ cursor, ∃ repos,
      fetch w (req cursor) = Ok (Some repos) ∧
      well_dated w repos ∧
      (hasNextPage (pageInfo repos) = true ->
       (position cursor < position (endCursor (pageInfo repos)) ≤ total)%nat)) ->
  ∀ fuel st,
    Loop.hasNextPage st = true ->
    (total - position (Loop.cursor st) < fuel)%nat ->
    ∃ results es cursor repos notes,
      while_loop fuel st = (es ++ Fetch (req cursor) :: notes, Ret results) ∧
      Forall (ignoring ignoreList) notes ∧
      fetch w (req cursor) = Ok (Some repos) ∧
      (existsb (stops w options ignoreList) (nodes repos) = true ∨
       hasNextPage (pageInfo repos) = false).
Proof.
  intros Hsrc. induction fuel as [| fuel IH]; intros st Hn Hfuel; [lia |].
  destruct (Hsrc (Loop.cursor st)) as (repos & Hf & Hd & Hadv).
  destruct (for_nodes_completes (nodes repos) st Hd) as [st' Hfor].
  destruct (for_nodes (nodes repos) st) as [es' o'] eqn:Hrun.
  simpl in Hfor. subst o'.
  pose proof (for_nodes_Ret _ _ _ _ _ _ _ Hrun) as (Hc & Hn' & _ & Hnotes).
  rewrite Hn in Hn'. simpl in Hn'.
  rewrite while_step, (body_page w options ignoreList st repos Hf), Hrun by done.
  cbn [trace outcome fst snd]. rewrite bind_pair.
  destruct (existsb (stops w options ignoreList) (nodes repos)) eqn:Hex.
  { simpl in Hn'. unfold advance. rewrite Hn', while_done by done.
    exists (Loop.staleRepos st'), [], (Loop.cursor st), repos, es'.
    simpl. rewrite app_nil_r. by auto. }
  simpl in Hn'. unfold advance. rewrite Hn'.
  destruct (hasNextPage (pageInfo repos)) eqn:Hmore.
  2:{ rewrite while_done by done.
      exists (Loop.staleRepos st'), [], (Loop.cursor st), repos, es'.
      simpl. rewrite app_nil_r. by auto. }
  specialize (Hadv eq_refl).
  destruct (IH {| Loop.cursor := endCursor (pageInfo repos);
                  Loop.hasNextPage := true;
                  Loop.staleRepos := Loop.staleRepos st' |})
    as (results & es & cursor & repos2 & notes & -> & Hall & Hf2 & Hend).
  { done. }
  { simpl. lia. }
  exists results, (Fetch (req (Loop.cursor st)) :: es' ++ es), cursor, repos2, notes.
  simpl. rewrite <- app_assoc. by auto.
Qed.

(** C6.  Let every cursor be answered with a page of candidates whose
    last-commit dates are dates, and let every page that announces more
    give an end cursor that lies strictly further in a stream of [total]
    positions.  Then, given more than [total] turns, [fetchStaleRepos]
    returns; and it returns either because the last page requested holds a
    candidate that ends the scan (the early stop) or because that page
    announces no further page. *)
Theorem fetch_loop_terminates (position : option string -> nat) (total : nat) :
  (∀ cursor, ∃ repos,
      fetch w (req cursor) = Ok (Some repos) ∧
      well_dated w repos ∧
      (hasNextPage (pageInfo repos) = true ->
       (position cursor < position (endCursor (pageInfo repos)) ≤ total)%nat)) ->
  ∀ fuel,
    (total < fuel)%nat ->
    ∃ results es cursor repos notes,
      fetchStaleRepos w options ignoreList fuel =
        (es ++ Fetch (req cursor) :: notes, Ret results) ∧
      Forall (ignoring ignoreList) notes ∧
      fetch w (req cursor) = Ok (Some repos) ∧
      (existsb (stops w options ignoreList) (nodes repos) = true ∨
       hasNextPage (pageInfo repos) = false).
Proof.
  intros Hsrc fuel Hfuel. unfold fetchStaleRepos.
  apply (while_terminates position total Hsrc); [done |]. simpl. lia.
Qed.

End Termination.

(** Every last-commit date of the demo candidates is readable. *)
Lemma demo_pages_well_dated w l next more :
  Date_parse w = Demo.iso_utc ->
  (∀ repo, repo ∈ l ->
           repo ∈ [Demo.legacy; Demo.alpha; Demo.busy; Demo.empty; Demo.edge]) ->
  well_dated w {| nodes := l;
                  pageInfo := {| endCursor := next; hasNextPage := more |} |}.
Proof.
  intros Hparse Hl repo c Hin Hc. rewrite Hparse. simpl in Hin.
  apply Hl, list_elem_of_In in Hin. simpl in Hin.
  destruct Hin as [<- | [<- | [<- | [<- | [<- | []]]]]];
    vm_compute in Hc; try discriminate Hc; injection Hc as <-;
    vm_compute; eexists; reflexivity.
Qed.

(** The source of [Demo.finite] answers every cursor, and its end cursors
    advance through three positions: the scan returns within three turns. *)
Lemma fetch_loop_terminates_witness :
  ∃ results,
    outcome (fetchStaleRepos Demo.finite Demo.options Demo.ignoreList 3) = Ret results.
Proof.
  destruct (fetch_loop_terminates Demo.finite Demo.options Demo.ignoreList
              Demo.position 2) with (fuel := 3%nat)
    as (results & es & c & repos & notes & H & _).
  - intros [c |]; simpl.
    + unfold Demo.finite_pages. simpl. destruct (String.eqb c "c1").
      * eexists. split; [reflexivity |]. split.
        -- apply demo_pages_well_dated; [reflexivity |].
           intros repo ->%list_elem_of_singleton.
           apply list_elem_of_In. simpl. tauto.
        -- intros _. simpl. lia.
      * eexists. split; [reflexivity |]. split.
        -- apply demo_pages_well_dated; [reflexivity |].
           by intros repo ?%elem_of_nil.
        -- intros [=].
    + eexists. split; [reflexivity |]. split.
      * apply demo_pages_well_dated; [reflexivity |].
        intros repo Hin%list_elem_of_In. apply list_elem_of_In.
        simpl in *. tauto.
      * intros _. simpl. lia.
  - lia.
  - exists results. rewrite H. reflexivity.
Defined.

(** ** The token on standard output (the two earlier versions) *)

Lemma truthy_with_token tok options :
  tok ≠ "" -> Js.truthy (token (with_token tok options)) = true.
Proof.
  intros H. simpl. apply negb_true_iff. by apply String.eqb_neq.
Qed.

Lemma V1_main_head w options fuel tok :
  tok ≠ "" ->
  ∃ rest, trace (V1.main w (with_token tok options) fuel) = ConsoleLog tok :: rest.
Proof.
  intros H. unfold V1.main. rewrite truthy_with_token by done.
  simpl negb. cbv iota. rewrite bind_console_log. by eexists.
Qed.

Lemma V2_main_head w options fuel tok :
  tok ≠ "" ->
  ∃ rest, trace (V2.main w (with_token tok options) fuel) = ConsoleLog tok :: rest.
Proof.
  intros H. unfold V2.main. rewrite truthy_with_token by done.
  simpl negb. cbv iota. rewrite bind_console_log. by eexists.
Qed.

Lemma first_request_after_head (e : Event) rest es1 r es2 :
  e :: rest = es1 ++ Fetch r :: es2 -> (∀ r', e ≠ Fetch r') -> e ∈ es1.
Proof.
  destruct es1 as [| e1 es1]; simpl; intros [= -> ->] Hne.
  - by destruct (Hne r).
  - by left.
Qed.

(** C10.  In the first version of [gh-stale-repos.ts] and in
    [src/unnamed/part_000], a run whose token passes the presence check
    writes the token itself as the first line of standard output: it is the
    first event of the run, so it comes before every request, and two runs
    that differ only in the token differ on standard output. *)
Theorem token_is_written_to_stdout
    (w : World) (options : Options) (fuel : nat) (tok : string) :
  tok ≠ "" ->
  let run1 := trace (V1.main w (with_token tok options) fuel) in
  let run2 := trace (V2.main w (with_token tok options) fuel) in
  (∃ rest, run1 = ConsoleLog tok :: rest) ∧
  (∃ rest, run2 = ConsoleLog tok :: rest) ∧
  (∀ es1 r es2, run1 = es1 ++ Fetch r :: es2 -> ConsoleLog tok ∈ es1) ∧
  (∀ es1 r es2, run2 = es1 ++ Fetch r :: es2 -> ConsoleLog tok ∈ es1) ∧
  (∀ tok', tok' ≠ "" -> tok' ≠ tok ->
           stdout run1 ≠ stdout (trace (V1.main w (with_token tok' options) fuel)) ∧
           stdout run2 ≠ stdout (trace (V2.main w (with_token tok' options) fuel))).
Proof.
  intros Htok run1 run2.
  destruct (V1_main_head w options fuel tok Htok) as [rest1 H1].
  destruct (V2_main_head w options fuel tok Htok) as [rest2 H2].
  fold run1 in H1. fold run2 in H2.
  split; [by eexists |]. split; [by eexists |]. split; [| split].
  - intros es1 r es2 H. rewrite H1 in H.
    by apply (first_request_after_head _ _ _ _ _ H).
  - intros es1 r es2 H. rewrite H2 in H.
    by apply (first_request_after_head _ _ _ _ _ H).
  - intros tok' Htok' Hne.
    destruct (V1_main_head w options fuel tok' Htok') as [rest1' H1'].
    destruct (V2_main_head w options fuel tok' Htok') as [rest2' H2'].
    rewrite H1, H2, H1', H2'. simpl. split; intros [= Heq]; by apply Hne.
Qed.

(** The demo run of both versions starts by writing the demo token. *)
Lemma token_is_written_witness :
  (∃ rest, trace (V1.main Demo.world Demo.options 5) = ConsoleLog "ghp_secret" :: rest) ∧
  (∃ rest, trace (V2.main Demo.world Demo.options 5) = ConsoleLog "ghp_secret" :: rest).
Proof.
  destruct (token_is_written_to_stdout Demo.world Demo.options 5 "ghp_secret")
    as (H1 & H2 & _).
  - discriminate.
  - split; [exact H1 | exact H2].
Defined.

(** ** Decimal digits *)

Lemma string_of_uint_digits d : all_digits (NilEmpty.string_of_uint d) = true.
Proof. induction d; simpl; auto. Qed.

Lemma pos_to_uint_nonnil p : Pos.to_uint p ≠ Decimal.Nil.
Proof. apply DecimalPos.Unsigned.to_uint_nonnil. Qed.

(** The decimal digits of a natural number: at least one, all digits. *)
Lemma Number_toString_digits n :
  0 <= n ->
  all_digits (Number_toString n) = true ∧ (0 < String.length (Number_toString n))%nat.
Proof.
  intros Hn. unfold Number_toString. destruct n as [| p | p]; [| | lia].
  - split; [reflexivity | simpl; lia].
  - simpl. pose proof (pos_to_uint_nonnil p) as Hnil.
    assert (NilZero.string_of_uint (Pos.to_uint p)
            = NilEmpty.string_of_uint (Pos.to_uint p)) as ->
      by (by destruct (Pos.to_uint p)).
    split; [apply string_of_uint_digits |].
    destruct (Pos.to_uint p); simpl; try lia. done.
Qed.

Lemma all_digits_app a b :
  all_digits (a +:+ b) = all_digits a && all_digits b.
Proof.
  induction a as [| c a IH]; simpl; [done |]. by rewrite IH, andb_assoc.
Qed.

Lemma length_app_string a b :
  String.length (a +:+ b) = (String.length a + String.length b)%nat.
Proof. induction a as [| c a IH]; simpl; [done |]. by rewrite IH. Qed.

Lemma repeat0_digits n : all_digits (repeat0 n) = true.
Proof. induction n; simpl; auto. Qed.

Lemma repeat0_length n : String.length (repeat0 n) = n.
Proof. induction n; simpl; auto. Qed.

(** A natural number padded to [k] places: digits only, at least [k]. *)
Lemma addLeadingZeros_digits n k :
  0 <= n ->
  all_digits (addLeadingZeros n k) = true ∧
  (k <= String.length (addLeadingZeros n k))%nat.
Proof.
  intros Hn.
  assert (addLeadingZeros n k =
          repeat0 (k - String.length (Number_toString n)) +:+ Number_toString n)
    as ->.
  { unfold addLeadingZeros, padStart0.
    replace (n <? 0) with false by (symmetry; apply Z.ltb_ge; lia).
    by rewrite Z.abs_eq by done. }
  destruct (Number_toString_digits n Hn) as [Hd Hl].
  rewrite all_digits_app, repeat0_digits, Hd, length_app_string, repeat0_length.
  split; [done | lia].
Qed.

(** The digits of a string end where a character that is no digit begins. *)
Lemma span_digits_app ds c rest :
  all_digits ds = true ->
  is_digit c = false ->
  span_digits (ds +:+ String c rest) = (ds, String c rest).
Proof.
  intros Hd Hc. induction ds as [| d ds IH]; simpl.
  - by rewrite Hc.
  - simpl in Hd. apply andb_true_iff in Hd as [-> Hd]. by rewrite IH.
Qed.

(** ** The calendar *)

(** Month and day of any day number lie in the calendar. *)
Lemma civil_from_days_bounds days :
  let '(y, m, d) := civil_from_days days in 1 <= m <= 12 ∧ 1 <= d <= 31.
Proof.
  unfold civil_from_days.
  set (z := days + 719468).
  set (doe := z - z / 146097 * 146097).
  assert (Hdoe : 0 <= doe <= 146096) by (subst doe; Z.div_mod_to_equations; lia).
  clearbody doe. clear z.
  set (yoe := (doe - doe / 1460 + doe / 36524 - doe / 146096) / 365).
  set (doy := doe - (365 * yoe + yoe / 4 - yoe / 100)).
  assert (Hdoy : 0 <= doy <= 365)
    by (subst doy yoe; Z.div_mod_to_equations; lia).
  clearbody doy. clear yoe Hdoe doe.
  set (mp := (5 * doy + 2) / 153).
  assert (Hmp : 0 <= mp <= 11) by (subst mp; Z.div_mod_to_equations; lia).
  assert (Hd : 1 <= doy - (153 * mp + 2) / 5 + 1 <= 31)
    by (subst mp; Z.div_mod_to_equations; lia).
  clearbody mp. split; [| done].
  destruct (mp <? 10) eqn:H; [apply Z.ltb_lt in H | apply Z.ltb_ge in H]; lia.
Qed.

Lemma all_from_spec n p k :
  all_from n k p = true -> ∀ j, k <= j < k + Z.of_nat n -> p j = true.
Proof.
  revert k. induction n as [| n IH]; intros k H j Hj; [lia |].
  simpl in H. destruct (p k) eqn:Hp; [| discriminate].
  destruct (Z.eq_dec j k) as [-> | Hne]; [exact Hp |].
  apply (IH (k + 1)); [exact H | lia].
Qed.

Lemma two_digits_of n lo hi :
  (0 <= Z.of_N lo) -> Z.of_N lo <= n <= Z.of_N hi -> n <= 99 ->
  ∃ a b, addLeadingZeros n 2 = String a (String b "") ∧
         two_digits lo hi a b = true.
Proof.
  intros _ Hn H99.
  assert (Hc : two_digit_check n = true).
  { apply (all_from_spec 100 two_digit_check 0); [vm_compute; reflexivity | lia]. }
  unfold two_digit_check in Hc.
  destruct (addLeadingZeros n 2) as [| a [| b [| ? ?]]]; try discriminate.
  apply andb_true_iff in Hc as [[Ha Hb]%andb_true_iff Hv%Z.eqb_eq].
  exists a, b. split; [done |]. unfold two_digits. rewrite Ha, Hb. simpl.
  apply andb_true_iff. split; apply N.leb_le; lia.
Qed.

(** ** Rendered dates and the fall-backs of a record *)

Section Shaping.

Context (w : World).

(** A valid date renders in the shape [yyyy-MM-dd]. *)
Lemma yyyy_MM_dd_shape t : is_yyyy_MM_dd (yyyy_MM_dd w t) = true.
Proof.
  unfold yyyy_MM_dd, format_yyyy, format_MM, format_dd.
  unfold getFullYear, getMonth1, getDate.
  pose proof (civil_from_days_bounds (Day (LocalTime w t))) as Hb.
  destruct (civil_from_days (Day (LocalTime w t))) as [[y m] d]. simpl fst. simpl snd.
  destruct Hb as [Hm Hd].
  set (year := if 0 <? y then y else 1 - y).
  assert (Hyear : 0 <= year).
  { subst year. destruct (0 <? y) eqn:H; [apply Z.ltb_lt in H | apply Z.ltb_ge in H]; lia. }
  destruct (addLeadingZeros_digits year 4 Hyear) as [Hdig Hlen].
  destruct (two_digits_of m 1 12) as (m1 & m2 & -> & Hmm); [lia | lia | lia |].
  destruct (two_digits_of d 1 31) as (e1 & e2 & -> & Hdd); [lia | lia | lia |].
  unfold is_yyyy_MM_dd.
  change (addLeadingZeros year 4 +:+ "-" +:+ String m1 (String m2 "") +:+ "-"
          +:+ String e1 (String e2 ""))
    with (addLeadingZeros year 4 +:+
          String "-" (String m1 (String m2 (String "-" (String e1 (String e2 "")))))).
  rewrite span_digits_app by done.
  rewrite Hmm, Hdd, andb_true_r. by apply Nat.leb_le.
Qed.

Lemma make_record_inv repo date r :
  make_record w repo date = ret r ->
  ∃ t t',
    date = Some t ∧
    new_Date w (lastCommitDate_of (lastCommitInfo_of (history_of repo)) date) = Some t' ∧
    r = {| StaleRepo.name := Repo.name repo;
           StaleRepo.pushedAt := yyyy_MM_dd w t;
           StaleRepo.commits := totalCommits_of repo;
           StaleRepo.size := size_of repo;
           StaleRepo.lastCommitDate := yyyy_MM_dd w t';
           StaleRepo.lastCommitAuthor := author_of (lastCommitInfo_of (history_of repo));
           StaleRepo.lastCommitAuthorEmail :=
             authorEmail_of (lastCommitInfo_of (history_of repo)) |}.
Proof.
  unfold make_record. destruct date as [t |]; [| done].
  simpl format at 1. rewrite bind_ret_l.
  destruct (new_Date w (lastCommitDate_of (lastCommitInfo_of (history_of repo)) (Some t)))
    as [t' |] eqn:Hlast; [| done].
  simpl format. rewrite bind_ret_l. intros [= <-]. by exists t, t'.
Qed.

Lemma absent_no_info repo :
  last_commit_absent repo ->
  lastCommitInfo_of (history_of repo) = None ∧ totalCommits_of repo = 0.
Proof.
  unfold totalCommits_of.
  intros [H | [H | (h & H & Hcount & Hnodes)]].
  - unfold history_of. by rewrite H.
  - by rewrite H.
  - rewrite H. simpl. split; [| done].
    unfold lastCommitInfo_of. simpl. by destruct Hnodes as [-> | ->].
Qed.

(** C3.  A record built from a candidate without last-commit metadata (no
    default branch, no history, or an empty one) has commit count 0, a
    last-commit date equal to its push date, which is the rendering of the
    candidate's push timestamp, and author name and email [unknown].  The two
    date fields of every record, whatever the candidate, have the shape
    yyyy-MM-dd; so do those of every record that a scan returns. *)
Theorem absent_metadata_defaults_and_date_format :
  (∀ repo date r,
     last_commit_absent repo ->
     make_record w repo date = ret r ->
     StaleRepo.commits r = 0 ∧
     StaleRepo.lastCommitDate r = StaleRepo.pushedAt r ∧
     format w date = ret (StaleRepo.pushedAt r) ∧
     StaleRepo.lastCommitAuthor r = "unknown" ∧
     StaleRepo.lastCommitAuthorEmail r = "unknown") ∧
  (∀ repo date r,
     make_record w repo date = ret r ->
     is_yyyy_MM_dd (StaleRepo.pushedAt r) = true ∧
     is_yyyy_MM_dd (StaleRepo.lastCommitDate r) = true) ∧
  (∀ options ignoreList fuel results,
     outcome (fetchStaleRepos w options ignoreList fuel) = Ret results ->
     Forall (fun r => is_yyyy_MM_dd (StaleRepo.pushedAt r) = true ∧
                      is_yyyy_MM_dd (StaleRepo.lastCommitDate r) = true) results).
Proof.
  assert (Hshape : ∀ repo date r,
             make_record w repo date = ret r ->
             is_yyyy_MM_dd (StaleRepo.pushedAt r) = true ∧
             is_yyyy_MM_dd (StaleRepo.lastCommitDate r) = true).
  { intros repo date r (t & t' & _ & _ & ->)%make_record_inv. simpl.
    split; apply yyyy_MM_dd_shape. }
  split; [| split; [exact Hshape |]].
  - intros repo date r Habs Hr.
    destruct (absent_no_info repo Habs) as [Hinfo Hcount].
    apply make_record_inv in Hr as (t & t' & -> & Hlast & ->). simpl.
    rewrite Hinfo in *. simpl in Hlast. injection Hlast as <-.
    by rewrite Hcount.
  - intros options ignoreList fuel results Hret. unfold fetchStaleRepos in Hret.
    destruct (while_hasNextPage w options ignoreList fuel initial) as [es o] eqn:Hw.
    simpl in Hret. subst o. apply while_Ret in Hw as (new & -> & Hall). simpl.
    eapply Forall_impl; [exact Hall |].
    intros r (repo & _ & Hb & _). exact (Hshape repo _ r Hb).
Qed.

End Shaping.

(** The demo candidate without a default branch. *)
Lemma absent_metadata_witness :
  make_record Demo.world Demo.empty (parseISO Demo.world (Repo.pushedAt Demo.empty))
    = ret Demo.empty_record ∧
  StaleRepo.commits Demo.empty_record = 0 ∧
  StaleRepo.lastCommitDate Demo.empty_record = StaleRepo.pushedAt Demo.empty_record ∧
  is_yyyy_MM_dd (StaleRepo.pushedAt Demo.empty_record) = true.
Proof.
  assert (H : make_record Demo.world Demo.empty
                (parseISO Demo.world (Repo.pushedAt Demo.empty))
              = ret Demo.empty_record) by (vm_compute; reflexivity).
  destruct (absent_metadata_defaults_and_date_format Demo.world) as (Habs & Hshape & _).
  assert (Ha : last_commit_absent Demo.empty) by (left; reflexivity).
  destruct (Habs _ _ _ Ha H) as (Hc & Hl & _).
  destruct (Hshape _ _ _ H) as (Hp & _).
  repeat split; assumption.
Defined.

(** ** The JSON output *)

Section JsonOutput.

Context (w : World) (options : Options).

(** C7, amended.  When JSON output is selected and the run ends normally,
    the last thing written is the pretty-printed array of the records that
    the scan returned, of which there is at least one.  Each object has
    exactly the seven properties name, pushedAt, commits, size,
    lastCommitDate, lastCommitAuthor and lastCommitAuthorEmail: the size is
    always there, and it is the disk usage of the candidate followed by
    [ kB], with [null] for a disk usage that was not reported. *)
Theorem json_output_has_seven_fields (fuel : nat) :
  json options = true ->
  outcome (main w options fuel) = Ret tt ->
  ∃ ignoreList results es,
    outcome (fetchStaleRepos w options ignoreList fuel) = Ret results ∧
    results ≠ [] ∧
    trace (main w options fuel) =
      es ++ [ConsoleLog (JSON_stringify (JArray (map json_of_record results)))] ∧
    Forall (fun r =>
              keys (json_of_record r) = record_keys ∧
              property "size" (json_of_record r) = Some (JString (StaleRepo.size r)) ∧
              ∃ repo, built_from w repo r ∧
                      StaleRepo.size r =
                        match Repo.diskUsage repo with
                        | Some n => Number_toString n
                        | None => "null"
                        end +:+ " kB")
           results.
Proof.
  intros Hjson. unfold main.
  destruct (Js.truthy (token options)); simpl negb; cbv iota.
  2:{ unfold console_error. by rewrite bind_emit. }
  destruct (ignore_list_loaded w options) as (es_i & S & -> & _).
  rewrite bind_console_log, bind_pair. cbn [trace outcome fst snd].
  destruct (fetchStaleRepos w options S fuel) as [es_f [results | c | e |]] eqn:Hfsr;
    try done.
  rewrite bind_pair. cbn [trace outcome fst snd].
  destruct results as [| r0 results]; [done |].
  cbn [length Nat.eqb]. rewrite bind_console_log. cbn [trace outcome fst snd].
  unfold render. rewrite Hjson. intros _.
  exists S, (r0 :: results), (ConsoleLog (banner options) :: es_i ++ es_f
                              ++ [ConsoleLog (found (r0 :: results))]).
  split; [by rewrite Hfsr |]. split; [done |]. split.
  { simpl. f_equal. rewrite <- !app_assoc. reflexivity. }
  unfold fetchStaleRepos in Hfsr. apply while_Ret in Hfsr as (new & Hnew & Hall).
  simpl in Hnew. rewrite Hnew. eapply Forall_impl; [exact Hall |].
  intros r (repo & _ & Hb & _). split; [reflexivity |]. split; [reflexivity |].
  exists repo. split; [done |].
  by destruct (built_from_fields _ _ _ Hb) as (_ & _ & ->).
Qed.

End JsonOutput.

(** The demo run selects JSON output and ends normally. *)
Lemma json_output_witness :
  ∃ ignoreList results es,
    outcome (fetchStaleRepos Demo.world Demo.options ignoreList 5) = Ret results ∧
    results ≠ [] ∧
    trace (main Demo.world Demo.options 5) =
      es ++ [ConsoleLog (JSON_stringify (JArray (map json_of_record results)))].
Proof.
  destruct (json_output_has_seven_fields Demo.world Demo.options 5)
    as (S & results & es & H1 & H2 & H3 & _).
  - reflexivity.
  - vm_compute. reflexivity.
  - exists S, results, es. repeat split; assumption.
Defined.

(** C7 as stated fails: the record of [empty], for which the remote source
    reports no disk usage, still has its size property (the text [null kB]),
    and the JSON object written for it has seven properties. *)
Lemma size_is_present_without_disk_usage :
  Repo.diskUsage Demo.empty = None ∧
  built_from Demo.world Demo.empty Demo.empty_record ∧
  keys (json_of_record Demo.empty_record) = record_keys ∧
  property "size" (json_of_record Demo.empty_record) = Some (JString "null kB") ∧
  ¬ size_only_when_reported Demo.world.
Proof.
  assert (Hb : built_from Demo.world Demo.empty Demo.empty_record)
    by (vm_compute; reflexivity).
  split; [reflexivity |]. split; [exact Hb |].
  split; [reflexivity |]. split; [reflexivity |].
  intros H. specialize (H Demo.empty Demo.empty_record Hb eq_refl).
  vm_compute in H. discriminate H.
Qed.

(** ** The loop never runs on *)

Section Bounded.

Context (w : World) (options : Options) (ignoreList : gset string).

Local Abbreviation while_loop := (while_hasNextPage w options ignoreList).
Local Abbreviation req := (request options).

(** Whatever the responses are (pages, refusals, unreadable bodies or
    dates), advancing end cursors alone bound the number of turns: with more
    than [total] turns the model never runs out of fuel, that is, the loop
    of the program ends. *)
Lemma loop_is_bounded (position : option string -> nat) (total : nat) :
  (∀ cursor repos,
      fetch w (req cursor) = Ok (Some repos) ->
      hasNextPage (pageInfo repos) = true ->
      (position cursor < position (endCursor (pageInfo repos)) ≤ total)%nat) ->
  ∀ fuel st,
    (Loop.hasNextPage st = true -> (total - position (Loop.cursor st) < fuel)%nat) ->
    outcome (while_loop fuel st) ≠ OutOfFuel.
Proof.
  intros Hadv. induction fuel as [| fuel IH]; intros st Hfuel.
  { destruct (Loop.hasNextPage st) eqn:Hn; [specialize (Hfuel eq_refl); lia |].
    by rewrite while_done. }
  destruct (Loop.hasNextPage st) eqn:Hn; [| by rewrite while_done].
  specialize (Hfuel eq_refl). rewrite while_step by done.
  destruct (fetch w (req (Loop.cursor st))) as [| text | [repos |]] eqn:Hf.
  - rewrite body_throws by auto. simpl. discriminate.
  - rewrite (body_NotOk w options ignoreList st text) by done. simpl. discriminate.
  - rewrite (body_page w options ignoreList st repos Hf).
    pose proof (for_nodes_abrupt w options ignoreList (nodes repos) st) as Hab.
    destruct (for_of_nodes w options ignoreList (nodes repos) st)
      as [es [st' | c | e |]] eqn:Hfor; cbn [trace outcome fst snd] in *.
    + rewrite bind_pair. cbn [outcome snd]. apply IH.
      apply for_nodes_Ret in Hfor as (Hc & Hn' & _).
      unfold advance. destruct (Loop.hasNextPage st') eqn:Hn2; simpl;
        [| intros; congruence].
      intros Hmore. rewrite <- Hc in Hfuel.
      specialize (Hadv _ _ Hf Hmore). rewrite <- Hc in Hadv. lia.
    + by destruct Hab as [[? H] | H].
    + simpl. discriminate.
    + by destruct Hab as [[? H] | H].
  - rewrite body_throws by auto. simpl. discriminate.
Qed.

End Bounded.

(** ** Strings *)

Lemma append_assoc (a b c : string) : (a +:+ b) +:+ c = a +:+ b +:+ c.
Proof.
  induction a as [| x a IH]; [done |].
  change (String x ((a +:+ b) +:+ c) = String x (a +:+ b +:+ c)). by rewrite IH.
Qed.

Lemma append_nil_r (a : string) : a +:+ "" = a.
Proof.
  induction a as [| x a IH]; [done |].
  change (String x (a +:+ "") = String x a). by rewrite IH.
Qed.

Lemma skip_ws_ws a s : all_ws a = true -> skip_ws (a +:+ s) = skip_ws s.
Proof.
  induction a as [| c a IH]; simpl; [done |].
  intros [-> H]%andb_true_iff. auto.
Qed.

Lemma skip_ws_start c s : is_ws c = false -> skip_ws (String c s) = String c s.
Proof. simpl. by intros ->. Qed.

(** ** Parsing what [JSON.stringify] wrote: strings *)

(** One quoted character reads back as that character. *)
Lemma parse_quote_char c tail :
  parse_chars (quote_char c +:+ tail) = cons_char c (parse_chars tail).
Proof. destruct c as [[|] [|] [|] [|] [|] [|] [|] [|]]; reflexivity. Qed.

Lemma parse_quote_chars s rest :
  parse_chars (quote_chars s +:+ String DQ_char rest) = Some (s, rest).
Proof.
  induction s as [| c s IH]; [reflexivity |].
  simpl quote_chars. by rewrite append_assoc, parse_quote_char, IH.
Qed.

Lemma parse_QuoteJSONString s rest :
  ∃ tail, QuoteJSONString s +:+ rest = String DQ_char tail ∧
          parse_chars tail = Some (s, rest).
Proof.
  exists (quote_chars s +:+ String DQ_char rest). split.
  - unfold QuoteJSONString. rewrite !append_assoc. reflexivity.
  - apply parse_quote_chars.
Qed.

(** ** Parsing what [JSON.stringify] wrote: numbers *)

Lemma delimited_no_digit rest : delimited rest = true -> span_digits rest = ("", rest).
Proof.
  destruct rest as [| c rest]; [done |]. simpl.
  intros [H | H]%orb_true_iff; apply Ascii.eqb_eq in H; by subst c.
Qed.

Lemma delimited_no_fraction rest : delimited rest = true -> starts_fraction rest = false.
Proof.
  destruct rest as [| c rest]; [done |]. simpl.
  intros [H | H]%orb_true_iff; apply Ascii.eqb_eq in H; by subst c.
Qed.

Lemma span_digits_delimited ds rest :
  all_digits ds = true -> delimited rest = true ->
  span_digits (ds +:+ rest) = (ds, rest).
Proof.
  intros Hd Hr. induction ds as [| d ds IH]; simpl.
  - by apply delimited_no_digit.
  - simpl in Hd. apply andb_true_iff in Hd as [-> Hd]. by rewrite IH.
Qed.

(** The decimal writing of a positive number has no leading zero. *)
Lemma pos_to_uint_no_leading_zero p u : Pos.to_uint p ≠ Decimal.D0 u.
Proof.
  intros H.
  pose proof (DecimalPos.Unsigned.to_of (Pos.to_uint p)) as Hn.
  rewrite DecimalPos.Unsigned.of_to in Hn. simpl in Hn.
  rewrite H, DecimalFacts.unorm_D0 in Hn.
  unfold Decimal.unorm in Hn.
  destruct (Decimal.nzhead u) eqn:Hz; try discriminate Hn.
  - injection Hn as Hu. subst u. exact (DecimalPos.Unsigned.to_uint_nonzero p H).
  - injection Hn as Hu. subst. exact (DecimalFacts.nzhead_nonzero _ _ Hz).
Qed.

Lemma is_digit_not_minus c : is_digit c = true -> Ascii.eqb c "-"%char = false.
Proof. destruct c as [[|] [|] [|] [|] [|] [|] [|] [|]]; done. Qed.

Lemma uint_string_head u :
  u ≠ Decimal.Nil ->
  ∃ c ds', NilEmpty.string_of_uint u = String c ds' ∧ is_digit c = true ∧
           (Ascii.eqb c "0"%char = true -> ∃ u', u = Decimal.D0 u').
Proof.
  destruct u; [done | ..]; intros _; eexists _, _;
    (split; [reflexivity |]); (split; [reflexivity |]);
    intros H; try discriminate H; by eexists.
Qed.

Lemma read_digits_uint sign u i rest :
  delimited rest = true ->
  u ≠ Decimal.Nil ->
  (∀ u', u = Decimal.D0 u' -> u' = Decimal.Nil) ->
  NilZero.int_of_string (sign +:+ NilEmpty.string_of_uint u) = Some i ->
  read_digits sign (NilEmpty.string_of_uint u +:+ rest) = Some (Z.of_int i, rest).
Proof.
  intros Hr Hnil Hzero Hi. unfold read_digits.
  rewrite span_digits_delimited by (done || apply string_of_uint_digits).
  destruct (uint_string_head u Hnil) as (c & ds' & Hs & Hc & Hc0).
  rewrite Hs in *. rewrite delimited_no_fraction by done.
  destruct (Ascii.eqb c "0"%char) eqn:H0.
  - destruct (Hc0 eq_refl) as [u' ->]. rewrite (Hzero u' eq_refl) in Hs.
    injection Hs as _ <-. simpl. by rewrite Hi.
  - simpl. by rewrite Hi.
Qed.

Lemma parse_number_digit c s :
  is_digit c = true -> parse_number (String c s) = read_digits "" (String c s).
Proof. intros H. simpl. by rewrite (is_digit_not_minus c H). Qed.

(** The digits of an integer read back as that integer. *)
Lemma parse_number_toString n rest :
  delimited rest = true ->
  parse_number (Number_toString n +:+ rest) = Some (n, rest).
Proof.
  intros Hr. unfold Number_toString.
  assert (Hpos : ∀ p, NilZero.string_of_uint (Pos.to_uint p)
                      = NilEmpty.string_of_uint (Pos.to_uint p)).
  { intros p. pose proof (pos_to_uint_nonnil p). by destruct (Pos.to_uint p). }
  rewrite <- (DecimalZ.of_to n) at 2.
  destruct n as [| p | p].
  - change (NilZero.string_of_int (Z.to_int 0) +:+ rest)
      with (String "0" (NilEmpty.string_of_uint Decimal.Nil +:+ rest)).
    rewrite parse_number_digit by done.
    apply (read_digits_uint "" (Decimal.D0 Decimal.Nil)); try done.
    by intros u' [= <-].
  - simpl Z.to_int. simpl NilZero.string_of_int. rewrite Hpos.
    destruct (uint_string_head _ (pos_to_uint_nonnil p)) as (c & ds' & Hc & Hd & _).
    assert (Hparse : parse_number (NilEmpty.string_of_uint (Pos.to_uint p) +:+ rest)
                     = read_digits "" (NilEmpty.string_of_uint (Pos.to_uint p) +:+ rest)).
    { rewrite Hc. by apply (parse_number_digit c (ds' +:+ rest)). }
    rewrite Hparse.
    apply read_digits_uint; [done | apply pos_to_uint_nonnil | |].
    + intros u' H. by destruct (pos_to_uint_no_leading_zero p u').
    + change ("" +:+ NilEmpty.string_of_uint (Pos.to_uint p))
        with (NilEmpty.string_of_uint (Pos.to_uint p)).
      rewrite <- Hpos.
      apply (NilZero.isi (Decimal.Pos (Pos.to_uint p))); [| done].
      intros [= H]. by apply (pos_to_uint_nonnil p).
  - simpl Z.to_int. simpl NilZero.string_of_int. rewrite Hpos.
    change (parse_number (String "-" (NilEmpty.string_of_uint (Pos.to_uint p)) +:+ rest))
      with (read_digits "-" (NilEmpty.string_of_uint (Pos.to_uint p) +:+ rest)).
    apply read_digits_uint; [done | apply pos_to_uint_nonnil | |].
    + intros u' H. by destruct (pos_to_uint_no_leading_zero p u').
    + change ("-" +:+ NilEmpty.string_of_uint (Pos.to_uint p))
        with (String "-" (NilEmpty.string_of_uint (Pos.to_uint p))).
      rewrite <- Hpos.
      apply (NilZero.isi (Decimal.Neg (Pos.to_uint p))); [done |].
      intros [= H]. by apply (pos_to_uint_nonnil p).
Qed.

(** ** Parsing what [JSON.stringify] wrote: the steps of the parser *)

Lemma parse_value_skip fuel a s :
  all_ws a = true -> parse_value fuel (a +:+ s) = parse_value fuel s.
Proof.
  intros H. destruct fuel; [reflexivity |]. simpl. by rewrite skip_ws_ws.
Qed.

Lemma parse_elements_skip fuel a s :
  all_ws a = true -> parse_elements fuel (a +:+ s) = parse_elements fuel s.
Proof.
  intros H. destruct fuel; [reflexivity |].
  change (parse_elements (S fuel) (a +:+ s))
    with ('(v, r) ← parse_value fuel (a +:+ s);
          match skip_ws r with
          | "" => None
          | String c r' =>
              if Ascii.eqb c ","%char then
                '(l, r'') ← parse_elements fuel r'; Some (v :: l, r'')
              else if Ascii.eqb c "]"%char then Some ([v], r')
              else None
          end).
  by rewrite parse_value_skip.
Qed.

Lemma parse_string_step fuel s tail str r :
  skip_ws s = String DQ_char tail ->
  parse_chars tail = Some (str, r) ->
  parse_value (S fuel) s = Some (JString str, r).
Proof. intros H1 H2. simpl. by rewrite H1, H2. Qed.

(** The first character of a number is none of the other openers. *)
Lemma number_start c :
  is_digit c = true ∨ c = "-"%char ->
  is_ws c = false ∧
  Ascii.eqb c DQ_char = false ∧ Ascii.eqb c "["%char = false ∧
  Ascii.eqb c "{"%char = false ∧ Ascii.eqb c "n"%char = false ∧
  Ascii.eqb c "t"%char = false ∧ Ascii.eqb c "f"%char = false ∧
  Ascii.eqb c "]"%char = false ∧ Ascii.eqb c "}"%char = false.
Proof.
  intros [H | ->]; [| by repeat split].
  destruct c as [[|] [|] [|] [|] [|] [|] [|] [|]]; try discriminate H;
    by repeat split.
Qed.

Lemma parse_number_step fuel c tail n r :
  is_digit c = true ∨ c = "-"%char ->
  parse_number (String c tail) = Some (n, r) ->
  parse_value (S fuel) (String c tail) = Some (JNumber n, r).
Proof.
  intros Hc Hn.
  destruct (number_start c Hc) as (Hws & H1 & H2 & H3 & H4 & H5 & H6 & _).
  simpl parse_value. rewrite Hws, H1, H2, H3, H4, H5, H6.
  change (parse_number (String c tail) ≫= (λ '(n0, r0), Some (JNumber n0, r0))
          = Some (JNumber n, r)).
  by rewrite Hn.
Qed.

Lemma parse_array_step fuel tail c' r l r' :
  skip_ws tail = String c' r ->
  Ascii.eqb c' "]"%char = false ->
  parse_elements fuel tail = Some (l, r') ->
  parse_value (S fuel) (String "[" tail) = Some (JArray l, r').
Proof. intros H1 H2 H3. simpl. by rewrite H1, H2, H3. Qed.

Lemma parse_object_step fuel tail c' r l r' :
  skip_ws tail = String c' r ->
  Ascii.eqb c' "}"%char = false ->
  parse_members fuel tail = Some (l, r') ->
  parse_value (S fuel) (String "{" tail) = Some (JObject l, r').
Proof. intros H1 H2 H3. simpl. by rewrite H1, H2, H3. Qed.

Lemma parse_elements_more fuel s v r r' l r'' :
  parse_value fuel s = Some (v, r) ->
  skip_ws r = String "," r' ->
  parse_elements fuel r' = Some (l, r'') ->
  parse_elements (S fuel) s = Some (v :: l, r'').
Proof.
  intros H1 H2 H3. simpl. rewrite H1. simpl. rewrite H2. simpl. by rewrite H3.
Qed.

Lemma parse_elements_last fuel s v r r' :
  parse_value fuel s = Some (v, r) ->
  skip_ws r = String "]" r' ->
  parse_elements (S fuel) s = Some ([v], r').
Proof. intros H1 H2. simpl. rewrite H1. simpl. by rewrite H2. Qed.

Lemma parse_members_more fuel s tail k r1 r2 v r3 r4 l r5 :
  skip_ws s = String DQ_char tail ->
  parse_chars tail = Some (k, r1) ->
  skip_ws r1 = String ":" r2 ->
  parse_value fuel r2 = Some (v, r3) ->
  skip_ws r3 = String "," r4 ->
  parse_members fuel r4 = Some (l, r5) ->
  parse_members (S fuel) s = Some ((k, v) :: l, r5).
Proof.
  intros H1 H2 H3 H4 H5 H6. simpl. rewrite H1. simpl. rewrite H2. simpl.
  rewrite H3. simpl. rewrite H4. simpl. rewrite H5. simpl. by rewrite H6.
Qed.

Lemma parse_members_last fuel s tail k r1 r2 v r3 r4 :
  skip_ws s = String DQ_char tail ->
  parse_chars tail = Some (k, r1) ->
  skip_ws r1 = String ":" r2 ->
  parse_value fuel r2 = Some (v, r3) ->
  skip_ws r3 = String "}" r4 ->
  parse_members (S fuel) s = Some ([(k, v)], r4).
Proof.
  intros H1 H2 H3 H4 H5. simpl. rewrite H1. simpl. rewrite H2. simpl.
  rewrite H3. simpl. rewrite H4. simpl. by rewrite H5.
Qed.

(** ** Parsing what [JSON.stringify] wrote: values *)

(** Induction on JSON values, through the items of arrays and objects. *)
Section JsonInduction.

Variable P : Json -> Prop.
Hypothesis HNull : P JNull.
Hypothesis HBool : ∀ b, P (JBool b).
Hypothesis HNumber : ∀ n, P (JNumber n).
Hypothesis HString : ∀ s, P (JString s).
Hypothesis HArray : ∀ l, Forall P l -> P (JArray l).
Hypothesis HObject : ∀ ms, Forall (fun kv => P kv.2) ms -> P (JObject ms).

Fixpoint Json_nested_ind (v : Json) : P v :=
  match v with
  | JNull => HNull
  | JBool b => HBool b
  | JNumber n => HNumber n
  | JString s => HString s
  | JArray l =>
      HArray l
        ((fix items (l : list Json) : Forall P l :=
            match l with
            | [] => @List.Forall_nil _ P
            | x :: l' => @List.Forall_cons _ P x l' (Json_nested_ind x) (items l')
            end) l)
  | JObject ms =>
      HObject ms
        ((fix items (ms : list (string * Json)) : Forall (fun kv => P kv.2) ms :=
            match ms with
            | [] => @List.Forall_nil _ (fun kv => P kv.2)
            | (k, x) :: ms' =>
                @List.Forall_cons _ (fun kv => P kv.2) (k, x) ms'
                                  (Json_nested_ind x) (items ms')
            end) ms)
  end.

End JsonInduction.

Lemma number_head n :
  ∃ c t, Number_toString n = String c t ∧ (is_digit c = true ∨ c = "-"%char).
Proof.
  unfold Number_toString. destruct n as [| p | p].
  - exists "0"%char, "". by split; [| left].
  - simpl. destruct (uint_string_head _ (pos_to_uint_nonnil p)) as (c & t & H & Hc & _).
    exists c, t. split; [| by left].
    pose proof (pos_to_uint_nonnil p). by destruct (Pos.to_uint p).
  - simpl. eexists _, _. split; [reflexivity | by right].
Qed.

(** A pretty-printed value starts with a character that is neither white
    space nor a closing bracket or brace. *)
Lemma stringify_head v indent :
  ∃ c t, stringify indent v = String c t ∧ is_ws c = false ∧
         Ascii.eqb c "]"%char = false ∧ Ascii.eqb c "}"%char = false.
Proof.
  destruct v as [| [|] | n | s | [| x l] | [| kv ms]];
    try (eexists _, _; repeat split; reflexivity).
  destruct (number_head n) as (c & t & H & Hc).
  destruct (number_start c Hc) as (Hws & _ & _ & _ & _ & _ & _ & H1 & H2).
  exists c, t. by repeat split.
Qed.

Lemma join_items_head {A} (g : A -> string) sep x l c t :
  g x = String c t -> ∃ t', join_items sep (map g (x :: l)) = String c t'.
Proof.
  intros H. destruct l as [| y l]; simpl; rewrite H; by eexists.
Qed.

Lemma join_items_cons_text {A} (g : A -> string) indent' x y l tail :
  join_items ("," +:+ LF +:+ indent') (map g (x :: y :: l)) +:+ tail =
  g x +:+ String "," (LF +:+ indent' +:+
                      join_items ("," +:+ LF +:+ indent') (map g (y :: l)) +:+ tail).
Proof.
  change (join_items ("," +:+ LF +:+ indent') (map g (x :: y :: l)))
    with (g x +:+ ("," +:+ LF +:+ indent') +:+
          join_items ("," +:+ LF +:+ indent') (map g (y :: l))).
  rewrite !append_assoc. reflexivity.
Qed.

Lemma elements_text_cons indent' indent x y l rest :
  elements_text indent' indent (x :: y :: l) rest =
  LF +:+ indent' +:+ stringify indent' x +:+
  String "," (elements_text indent' indent (y :: l) rest).
Proof. unfold elements_text. by rewrite join_items_cons_text. Qed.

Lemma members_text_cons indent' indent kv kv' ms rest :
  members_text indent' indent (kv :: kv' :: ms) rest =
  LF +:+ indent' +:+ member_text indent' kv +:+
  String "," (members_text indent' indent (kv' :: ms) rest).
Proof. unfold members_text. by rewrite join_items_cons_text. Qed.

Lemma stringify_array_text indent x l rest :
  stringify indent (JArray (x :: l)) +:+ rest =
  String "[" (elements_text (indent +:+ "  ") indent (x :: l) rest).
Proof.
  unfold elements_text.
  change (stringify indent (JArray (x :: l)))
    with ("[" +:+ LF +:+ (indent +:+ "  ") +:+
          join_items ("," +:+ LF +:+ (indent +:+ "  "))
            (map (stringify (indent +:+ "  ")) (x :: l)) +:+
          LF +:+ indent +:+ "]").
  rewrite !append_assoc. reflexivity.
Qed.

Lemma stringify_object_text indent kv ms rest :
  stringify indent (JObject (kv :: ms)) +:+ rest =
  String "{" (members_text (indent +:+ "  ") indent (kv :: ms) rest).
Proof.
  unfold members_text.
  change (stringify indent (JObject (kv :: ms)))
    with ("{" +:+ LF +:+ (indent +:+ "  ") +:+
          join_items ("," +:+ LF +:+ (indent +:+ "  "))
            (map (member_text (indent +:+ "  ")) (kv :: ms)) +:+
          LF +:+ indent +:+ "}").
  rewrite !append_assoc. reflexivity.
Qed.

Lemma all_ws_deeper indent : all_ws indent = true -> all_ws (indent +:+ "  ") = true.
Proof. induction indent as [| c s IH]; simpl; [done |]. intros [-> H]%andb_true_iff. auto. Qed.

(** Arithmetic on the fuel, with the sizes of the remaining items taken as
    unknowns. *)
Ltac fuel_lia :=
  cbn [fold_right snd] in *;
  match goal with H : (_ <= _)%nat |- _ => revert H end;
  repeat match goal with
         | |- context [fold_right ?f ?a ?l] => generalize (fold_right f a l)
         end;
  repeat match goal with H : _ |- _ => clear H end;
  intros; lia.

Lemma parse_elements_text indent' indent rest :
  all_ws indent' = true -> all_ws indent = true ->
  ∀ l x fuel,
    Forall parses_back (x :: l) ->
    (fold_right (fun x n => S (json_size x + n)) 0 (x :: l) <= fuel)%nat ->
    parse_elements fuel (elements_text indent' indent (x :: l) rest)
    = Some (x :: l, rest).
Proof.
  intros Hi' Hi. induction l as [| y l IH]; intros x fuel HP Hfuel;
    cbn [fold_right] in Hfuel; (destruct fuel as [| fuel]; [fuel_lia |]);
    pose proof (Forall_inv HP) as Hx.
  - eapply parse_elements_last.
    + change (elements_text indent' indent [x] rest)
        with (LF +:+ indent' +:+ stringify indent' x +:+
              LF +:+ indent +:+ String "]" rest).
      rewrite (parse_value_skip _ LF) by done.
      rewrite (parse_value_skip _ indent') by done.
      apply Hx; [done | reflexivity | fuel_lia].
    + rewrite (skip_ws_ws LF), (skip_ws_ws indent) by done.
      by apply skip_ws_start.
  - eapply parse_elements_more.
    + rewrite elements_text_cons.
      rewrite (parse_value_skip _ LF) by done.
      rewrite (parse_value_skip _ indent') by done.
      apply Hx; [done | reflexivity | fuel_lia].
    + by apply skip_ws_start.
    + apply IH; [by apply Forall_inv_tail in HP | fuel_lia].
Qed.

Lemma parse_member_text fuel indent' k v rest :
  all_ws indent' = true ->
  parses_back v ->
  delimited rest = true ->
  (json_size v <= fuel)%nat ->
  ∃ tail r1 r2,
    skip_ws (LF +:+ indent' +:+ member_text indent' (k, v) +:+ rest)
      = String DQ_char tail ∧
    parse_chars tail = Some (k, r1) ∧
    skip_ws r1 = String ":" r2 ∧
    parse_value fuel r2 = Some (v, rest).
Proof.
  intros Hi' Hv Hr Hfuel.
  destruct (parse_QuoteJSONString k (": " +:+ stringify indent' v +:+ rest))
    as (tail & Htail & Hparse).
  exists tail, (": " +:+ stringify indent' v +:+ rest),
         (" " +:+ stringify indent' v +:+ rest).
  repeat split.
  - rewrite (skip_ws_ws LF), (skip_ws_ws indent') by done.
    unfold member_text. simpl fst. simpl snd. rewrite !append_assoc, Htail.
    by apply skip_ws_start.
  - exact Hparse.
  - rewrite (parse_value_skip _ " ") by done. by apply Hv.
Qed.

Lemma parse_members_text indent' indent rest :
  all_ws indent' = true -> all_ws indent = true ->
  ∀ ms kv fuel,
    Forall (fun kv => parses_back kv.2) (kv :: ms) ->
    (fold_right (fun kv n => S (json_size kv.2 + n)) 0 (kv :: ms) <= fuel)%nat ->
    parse_members fuel (members_text indent' indent (kv :: ms) rest)
    = Some (kv :: ms, rest).
Proof.
  intros Hi' Hi. induction ms as [| kv' ms IH]; intros [k v] fuel HP Hfuel;
    cbn [fold_right snd] in Hfuel; (destruct fuel as [| fuel]; [fuel_lia |]);
    pose proof (Forall_inv HP) as Hv; simpl in Hv.
  - destruct (parse_member_text fuel indent' k v (LF +:+ indent +:+ String "}" rest))
      as (tail & r1 & r2 & H1 & H2 & H3 & H4); [done | done | reflexivity | fuel_lia |].
    eapply parse_members_last; [exact H1 | exact H2 | exact H3 | exact H4 |].
    rewrite (skip_ws_ws LF), (skip_ws_ws indent) by done.
    by apply skip_ws_start.
  - destruct (parse_member_text fuel indent' k v
                (String "," (members_text indent' indent (kv' :: ms) rest)))
      as (tail & r1 & r2 & H1 & H2 & H3 & H4); [done | done | reflexivity | fuel_lia |].
    eapply parse_members_more;
      [rewrite members_text_cons; exact H1 | exact H2 | exact H3 | exact H4 | |].
    + by apply skip_ws_start.
    + apply IH; [by apply Forall_inv_tail in HP | fuel_lia].
Qed.

(** Every JSON value reads back from its pretty-printed text. *)
Lemma stringify_parses_back v : parses_back v.
Proof.
  induction v as [| b | n | s | l IH | ms IH] using Json_nested_ind;
    intros indent rest fuel Hi Hr Hfuel;
    (destruct fuel as [| fuel]; [simpl in Hfuel; fuel_lia |]).
  - reflexivity.
  - by destruct b.
  - destruct (number_head n) as (c & t & Hn & Hc).
    pose proof (parse_number_toString n rest Hr) as Hp.
    simpl stringify. rewrite Hn in *. by apply parse_number_step.
  - destruct (parse_QuoteJSONString s rest) as (tail & Htail & Hp).
    simpl stringify. rewrite Htail.
    eapply parse_string_step; [by apply skip_ws_start | exact Hp].
  - destruct l as [| x l]; [reflexivity |].
    rewrite stringify_array_text.
    destruct (stringify_head x (indent +:+ "  ")) as (c & t & Hx & Hws & Hc & _).
    destruct (join_items_head (stringify (indent +:+ "  "))
                ("," +:+ LF +:+ indent +:+ "  ") x l c t Hx) as [t' Ht'].
    eapply parse_array_step.
    + unfold elements_text.
      rewrite (skip_ws_ws LF), (skip_ws_ws (indent +:+ "  "))
        by (done || by apply all_ws_deeper).
      rewrite Ht'. by apply skip_ws_start.
    + exact Hc.
    + apply parse_elements_text; [by apply all_ws_deeper | done | done |].
      simpl in Hfuel. cbn [fold_right]. fuel_lia.
  - destruct ms as [| [k x] ms]; [reflexivity |].
    rewrite stringify_object_text.
    destruct (join_items_head (member_text (indent +:+ "  "))
                ("," +:+ LF +:+ indent +:+ "  ") (k, x) ms DQ_char
                (quote_chars k +:+ DQ +:+ ": " +:+ stringify (indent +:+ "  ") x))
      as [t' Ht'].
    { unfold member_text, QuoteJSONString. simpl fst. simpl snd.
      rewrite !append_assoc. reflexivity. }
    eapply parse_object_step.
    + unfold members_text.
      rewrite (skip_ws_ws LF), (skip_ws_ws (indent +:+ "  "))
        by (done || by apply all_ws_deeper).
      rewrite Ht'. by apply skip_ws_start.
    + reflexivity.
    + apply parse_members_text; [by apply all_ws_deeper | done | done |].
      simpl in Hfuel. cbn [fold_right snd]. fuel_lia.
Qed.

(** ** The fuel of [JSON.parse] is enough *)

Lemma join_items_size {A} (g : A -> string) (sz : A -> nat) sep l :
  (2 <= String.length sep)%nat ->
  Forall (fun x => (sz x <= S (String.length (g x)))%nat) l ->
  (fold_right (fun x n => S (sz x + n)) 0 l
   <= String.length (join_items sep (map g l)) + 2)%nat.
Proof.
  intros Hsep. induction l as [| x l IH]; intros Hall; [simpl; lia |].
  pose proof (Forall_inv Hall) as Hx. apply Forall_inv_tail in Hall.
  specialize (IH Hall). destruct l as [| y l].
  - simpl in *. clear -Hx. lia.
  - change (join_items sep (map g (x :: y :: l)))
      with (g x +:+ sep +:+ join_items sep (map g (y :: l))).
    rewrite !length_app_string. cbn [fold_right] in *.
    revert IH Hx. generalize (fold_right (fun x n => S (sz x + n)) 0%nat l).
    generalize (String.length (join_items sep (map g (y :: l)))).
    clear -Hsep. intros. lia.
Qed.

Lemma separator_length indent : (2 <= String.length ("," +:+ LF +:+ indent))%nat.
Proof. simpl. lia. Qed.

(** A value has at most one node more than its text has characters. *)
Lemma json_size_le_length v :
  ∀ indent, (json_size v <= S (String.length (stringify indent v)))%nat.
Proof.
  induction v as [| b | n | s | l IH | ms IH] using Json_nested_ind;
    intros indent; try (simpl; lia).
  - destruct l as [| x l]; [simpl; lia |].
    pose proof (join_items_size (stringify (indent +:+ "  ")) json_size
                  ("," +:+ LF +:+ indent +:+ "  ") (x :: l)
                  (separator_length _)) as Hsum.
    change (stringify indent (JArray (x :: l)))
      with ("[" +:+ LF +:+ (indent +:+ "  ") +:+
            join_items ("," +:+ LF +:+ (indent +:+ "  "))
              (map (stringify (indent +:+ "  ")) (x :: l)) +:+
            LF +:+ indent +:+ "]").
    change (json_size (JArray (x :: l)))
      with (S (fold_right (fun x n => S (json_size x + n)) 0%nat (x :: l))).
    rewrite !length_app_string.
    assert (Hitems : Forall (fun x => (json_size x
                       <= S (String.length (stringify (indent +:+ "  ") x)))%nat) (x :: l))
      by (eapply Forall_impl; [exact IH | by intros y Hy]).
    specialize (Hsum Hitems). revert Hsum.
    generalize (fold_right (fun x n => S (json_size x + n)) 0%nat (x :: l)).
    generalize (String.length (join_items ("," +:+ LF +:+ indent +:+ "  ")
                                (map (stringify (indent +:+ "  ")) (x :: l)))).
    clear. intros. simpl. lia.
  - destruct ms as [| kv ms]; [simpl; lia |].
    pose proof (join_items_size (member_text (indent +:+ "  "))
                  (fun kv => json_size kv.2)
                  ("," +:+ LF +:+ indent +:+ "  ") (kv :: ms)
                  (separator_length _)) as Hsum.
    change (stringify indent (JObject (kv :: ms)))
      with ("{" +:+ LF +:+ (indent +:+ "  ") +:+
            join_items ("," +:+ LF +:+ (indent +:+ "  "))
              (map (member_text (indent +:+ "  ")) (kv :: ms)) +:+
            LF +:+ indent +:+ "}").
    change (json_size (JObject (kv :: ms)))
      with (S (fold_right (fun kv n => S (json_size kv.2 + n)) 0%nat (kv :: ms))).
    rewrite !length_app_string.
    assert (Hitems : Forall (fun kv => (json_size kv.2
                       <= S (String.length (member_text (indent +:+ "  ") kv)))%nat)
                            (kv :: ms)).
    { eapply Forall_impl; [exact IH |]. intros [k y] Hy. simpl in *.
      specialize (Hy (indent +:+ "  ")). unfold member_text. simpl.
      rewrite !length_app_string. clear -Hy. lia. }
    specialize (Hsum Hitems). cbv beta in Hsum. revert Hsum.
    generalize (fold_right (fun kv n => S (json_size kv.2 + n)) 0%nat (kv :: ms)).
    generalize (String.length (join_items ("," +:+ LF +:+ indent +:+ "  ")
                                (map (member_text (indent +:+ "  ")) (kv :: ms)))).
    clear. intros. simpl. lia.
Qed.

(** Parsing the pretty-printed text of any JSON value gives the value. *)
Lemma JSON_parse_stringify v : JSON_parse (JSON_stringify v) = Some v.
Proof.
  unfold JSON_parse, JSON_stringify.
  rewrite <- (append_nil_r (stringify "" v)) at 2.
  rewrite (stringify_parses_back v "" "" _ eq_refl eq_refl (json_size_le_length v "")).
  reflexivity.
Qed.

Lemma record_of_json_of_record r : record_of_json (json_of_record r) = Some r.
Proof. by destruct r. Qed.

Lemma results_of_json_of_results results :
  results_of_json (json_of_results results) = Some results.
Proof.
  unfold results_of_json, json_of_results.
  induction results as [| r results IH]; [reflexivity |].
  cbn [map records_of_list]. by rewrite record_of_json_of_record, IH.
Qed.

(** C8.  Rendering any sequence of result records as the program's JSON
    output and parsing that text back yields the JSON array of the records,
    and reading that array field by field yields the records themselves. *)
Theorem json_round_trip (results : list StaleRepo.t) :
  JSON_parse (JSON_stringify (json_of_results results))
    = Some (json_of_results results) ∧
  (JSON_parse (JSON_stringify (json_of_results results)) ≫= results_of_json)
    = Some results.
Proof.
  rewrite JSON_parse_stringify. split; [reflexivity |].
  apply results_of_json_of_results.
Qed.

(** ** A pass over a page, candidate by candidate *)

Section PagePass.

Context (w : World) (options : Options) (ignoreList : gset string).

Local Abbreviation for_nodes := (for_of_nodes w options ignoreList).

Lemma isBefore_not_isAfter (d c : Date) : isBefore d c = true -> isAfter d c = false.
Proof.
  destruct d as [d |], c as [c |]; simpl; try done.
  intros H%Z.ltb_lt. apply Z.ltb_ge. lia.
Qed.

Lemma qualifies_not_stops repo :
  qualifies w options ignoreList repo = true ->
  stops w options ignoreList repo = false.
Proof.
  unfold qualifies, stops. intros [[_ Hb]%andb_true_iff _]%andb_true_iff.
  by rewrite (isBefore_not_isAfter _ _ Hb), andb_false_r.
Qed.

(** The records that a completed pass adds are those of the qualifying
    candidates that it reached, in the order of the page, and its events are
    the notes of the ignored candidates that it reached. *)
Lemma for_nodes_reached l st es st' :
  for_nodes l st = (es, Ret st') ->
  ∃ new,
    Loop.staleRepos st' = Loop.staleRepos st ++ new ∧
    Forall2 (built_from w)
            (List.filter (qualifies w options ignoreList)
                         (reached w options ignoreList l)) new ∧
    es = map note (List.filter (ignored ignoreList)
                               (reached w options ignoreList l)).
Proof.
  revert st es st'. induction l as [| repo rest IH]; intros st es st' H.
  { injection H as <- <-. exists []. by rewrite app_nil_r. }
  destruct (ignored ignoreList repo) eqn:Hi.
  { rewrite for_ignored, bind_console_log in H by done. injection H as <- Ho.
    destruct (for_nodes rest st) as [es0 o0] eqn:Hrest. simpl in Ho. subst o0.
    destruct (IH _ _ _ Hrest) as (new & Hnew & Hall & ->).
    assert (Hs : stops w options ignoreList repo = false).
    { unfold stops. by rewrite Hi. }
    assert (Hq : qualifies w options ignoreList repo = false).
    { unfold qualifies. by rewrite Hi. }
    exists new. cbn [reached]. rewrite Hs. cbn [List.filter].
    by rewrite Hq, Hi. }
  destruct (isAfter (parseISO w (Repo.pushedAt repo)) (cutoffDate w options))
    eqn:Ha.
  { rewrite for_stops in H by (unfold stops; by rewrite Hi, Ha).
    assert (Hs : stops w options ignoreList repo = true).
    { unfold stops. by rewrite Hi, Ha. }
    injection H as <- <-. exists []. cbn [reached]. rewrite Hs.
    by rewrite app_nil_r. }
  assert (Hs : stops w options ignoreList repo = false).
  { unfold stops. by rewrite Hi, Ha. }
  destruct (isBefore (parseISO w (Repo.pushedAt repo)) (cutoffDate w options)
            && (totalCommits_of repo <? commitThreshold options)) eqn:Hq.
  - assert (Hq' : qualifies w options ignoreList repo = true).
    { unfold qualifies. by rewrite Hi, <- andb_assoc, Hq. }
    apply andb_true_iff in Hq as [Hb Hlow].
    rewrite for_kept in H by done.
    apply bind_Ret_inv in H as (es1 & r & es2 & Hr & Hrest & ->).
    pose proof (make_record_Ret _ _ _ _ _ Hr) as Hr'.
    rewrite Hr' in Hr. injection Hr as <-.
    destruct (IH _ _ _ Hrest) as (new & Hnew & Hall & ->).
    exists (r :: new). cbn [reached]. rewrite Hs. cbn [List.filter].
    rewrite Hq', Hi. split; [| split; [| done]].
    + rewrite Hnew. simpl. by rewrite <- app_assoc.
    + by constructor.
  - assert (Hq' : qualifies w options ignoreList repo = false).
    { unfold qualifies. by rewrite Hi, <- andb_assoc, Hq. }
    rewrite for_passed in H by done.
    destruct (IH _ _ _ H) as (new & Hnew & Hall & ->).
    exists new. cbn [reached]. rewrite Hs. cbn [List.filter].
    by rewrite Hq', Hi.
Qed.

(** X1.  A pass of the [for] loop over a page that completes keeps, in the
    order of the page, exactly the records of the candidates that stand
    before the first stopping candidate and pass the three tests; it writes
    exactly the notes of the ignored candidates standing there, in order; and
    it lowers the flag [hasNextPage] exactly when the page holds a stopping
    candidate. *)
Theorem page_pass_keeps_the_qualifying_candidates_in_order
    (l : list Repo.t) (st st' : Loop.t) (es : list Event) :
  for_nodes l st = (es, Ret st') ->
  (∃ new,
     Loop.staleRepos st' = Loop.staleRepos st ++ new ∧
     Forall2 (built_from w)
             (List.filter (qualifies w options ignoreList)
                          (reached w options ignoreList l)) new) ∧
  es = map note (List.filter (ignored ignoreList)
                             (reached w options ignoreList l)) ∧
  Loop.hasNextPage st' =
    Loop.hasNextPage st && negb (existsb (stops w options ignoreList) l) ∧
  Loop.cursor st' = Loop.cursor st.
Proof.
  intros H. destruct (for_nodes_reached _ _ _ _ H) as (new & Hnew & Hall & Hes).
  destruct (for_nodes_Ret _ _ _ _ _ _ _ H) as (Hc & Hn & _ & _).
  split; [by exists new |]. by repeat split.
Qed.

End PagePass.

(** The first page of the demo organisation: [legacy] is noted, [alpha] and
    [empty] are kept in that order. *)
Lemma page_pass_witness :
  ∃ es st',
    for_of_nodes Demo.world Demo.options Demo.ignoreList Demo.first_page initial
      = (es, Ret st') ∧
    es = [note Demo.legacy] ∧
    Loop.staleRepos st' = [Demo.alpha_record; Demo.empty_record] ∧
    Loop.hasNextPage st' = true.
Proof.
  eexists _, _. split; [vm_compute; reflexivity |].
  destruct (page_pass_keeps_the_qualifying_candidates_in_order
              Demo.world Demo.options Demo.ignoreList Demo.first_page initial
              _ _ eq_refl) as (_ & Hes & Hn & _).
  split; [exact Hes |]. split; [reflexivity | exact Hn].
Defined.

(** ** A source that lists its candidates by ascending push date *)

Section AscendingStream.

Context (w : World) (options : Options) (ignoreList : gset string).

Local Abbreviation for_nodes := (for_of_nodes w options ignoreList).
Local Abbreviation while_loop := (while_hasNextPage w options ignoreList).
Local Abbreviation req := (request options).

Lemma pushed_leb_trans a b c :
  pushed_leb w a b = true -> pushed_leb w b c = true -> pushed_leb w a c = true.
Proof.
  unfold pushed_leb.
  destruct (parseISO w (Repo.pushedAt a)), (parseISO w (Repo.pushedAt b)),
    (parseISO w (Repo.pushedAt c)); try done.
  intros H1%Z.leb_le H2%Z.leb_le. apply Z.leb_le. lia.
Qed.

Lemma ascending_tail a l : ascending w (a :: l) = true -> ascending w l = true.
Proof. destruct l as [| b l]; [done |]. by intros [_ H]%andb_true_iff. Qed.

Lemma ascending_head_le l a b :
  ascending w (a :: l) = true -> b ∈ l -> pushed_leb w a b = true.
Proof.
  revert a. induction l as [| x l IH]; intros a Hasc Hin.
  { by apply elem_of_nil in Hin. }
  pose proof Hasc as [Hax Hrest]%andb_true_iff.
  apply elem_of_cons in Hin as [-> | Hin]; [done |].
  eapply pushed_leb_trans; [exact Hax |]. by apply IH.
Qed.

Lemma ascending_app_r l1 l2 :
  ascending w (l1 ++ l2) = true -> ascending w l2 = true.
Proof.
  induction l1 as [| a l1 IH]; [done |].
  intros H. apply IH. by apply ascending_tail in H.
Qed.

Lemma ascending_later l1 a l2 b :
  ascending w (l1 ++ a :: l2) = true -> b ∈ l2 -> pushed_leb w a b = true.
Proof.
  intros H%ascending_app_r Hin. by eapply ascending_head_le.
Qed.

(** On an ascending list nothing at or behind a stopping candidate
    qualifies. *)
Lemma beyond_stop l1 s l2 repo :
  ascending w (l1 ++ s :: l2) = true ->
  stops w options ignoreList s = true ->
  repo ∈ s :: l2 ->
  qualifies w options ignoreList repo = false.
Proof.
  intros Hasc Hs Hin. apply elem_of_cons in Hin as [-> | Hin].
  { destruct (qualifies w options ignoreList s) eqn:Hq; [| done].
    apply qualifies_not_stops in Hq. congruence. }
  pose proof (ascending_later _ _ _ _ Hasc Hin) as Hle.
  unfold stops in Hs. apply andb_true_iff in Hs as [_ Ha].
  unfold qualifies, pushed_leb in *.
  destruct (parseISO w (Repo.pushedAt s)) as [x |],
           (parseISO w (Repo.pushedAt repo)) as [y |],
           (cutoffDate w options) as [c |]; simpl in *; try done;
    try by rewrite andb_false_r.
  apply Z.ltb_lt in Ha. apply Z.leb_le in Hle.
  replace (y <? c) with false by (symmetry; apply Z.ltb_ge; lia).
  by rewrite andb_false_r.
Qed.

Lemma filter_none {A} (f : A -> bool) l :
  Forall (fun x => f x = false) l -> List.filter f l = [].
Proof. induction 1 as [| x l Hx _ IH]; [done |]. simpl. by rewrite Hx. Qed.

Lemma reached_all l :
  existsb (stops w options ignoreList) l = false ->
  reached w options ignoreList l = l.
Proof.
  induction l as [| x l IH]; [done |]. cbn [existsb reached].
  intros [-> Hl]%orb_false_iff. by rewrite IH.
Qed.

(** On an ascending list that holds a stopping candidate, the qualifying
    candidates all stand before the first stopping candidate. *)
Lemma filter_reached l tail :
  ascending w (l ++ tail) = true ->
  existsb (stops w options ignoreList) l = true ->
  List.filter (qualifies w options ignoreList) (l ++ tail) =
  List.filter (qualifies w options ignoreList) (reached w options ignoreList l).
Proof.
  induction l as [| x l IH]; [done |]. cbn [existsb reached]. intros Hasc Hex.
  destruct (stops w options ignoreList x) eqn:Hs.
  - apply filter_none, Forall_forall. intros y Hy.
    by apply (beyond_stop [] x (l ++ tail)).
  - cbn [app List.filter]. rewrite IH; [done | | done].
    change ((x :: l) ++ tail) with (x :: l ++ tail) in Hasc.
    by apply ascending_tail in Hasc.
Qed.

(** The records that the loop adds are those of the qualifying candidates
    behind its cursor, in the order of the source. *)
Lemma while_exact fuel st es results :
  Loop.hasNextPage st = true ->
  while_loop fuel st = (es, Ret results) ->
  ascending w (stream w options fuel (Loop.cursor st)) = true ->
  ∃ new,
    results = Loop.staleRepos st ++ new ∧
    Forall2 (built_from w)
            (List.filter (qualifies w options ignoreList)
                         (stream w options fuel (Loop.cursor st))) new.
Proof.
  revert st es. induction fuel as [| fuel IH]; intros st es Hn H Hasc.
  { simpl in H. by rewrite Hn in H. }
  rewrite while_step in H by done.
  apply bind_Ret_inv in H as (es1 & st1 & es2 & Hb & Hw & ->).
  apply body_Ret in Hb as (repos & es' & st' & Hf & Hfor & -> & ->).
  cbn [stream] in Hasc |- *. rewrite Hf in Hasc |- *.
  destruct (for_nodes_Ret _ _ _ _ _ _ _ Hfor) as (Hc & Hn' & _ & _).
  destruct (for_nodes_reached _ _ _ _ _ _ _ Hfor) as (new1 & Hnew1 & Hall1 & _).
  rewrite Hn in Hn'. cbn [andb] in Hn'.
  destruct (existsb (stops w options ignoreList) (nodes repos)) eqn:Hex;
    cbn [negb] in Hn'.
  - unfold advance in Hw. rewrite Hn', while_done in Hw by done.
    injection Hw as <- <-. exists new1. split; [done |].
    by rewrite filter_reached.
  - rewrite (reached_all _ Hex) in Hall1. unfold advance in Hw. rewrite Hn' in Hw.
    destruct (hasNextPage (pageInfo repos)) eqn:Hmore.
    + apply IH in Hw as (new2 & -> & Hall2); [| done |].
      * cbn [Loop.staleRepos Loop.cursor] in *. exists (new1 ++ new2).
        rewrite Hnew1, <- app_assoc. split; [done |].
        rewrite List.filter_app. by apply Forall2_app.
      * by apply ascending_app_r in Hasc.
    + rewrite while_done in Hw by done. injection Hw as <- <-.
      exists new1. split; [done |]. by rewrite app_nil_r.
Qed.

(** X2.  The early stop loses nothing when the source lists the candidates
    by ascending push date: if the candidates behind the first cursor are in
    ascending order and the scan returns, then its results are exactly the
    records of the candidates of the whole source that pass the three tests,
    in the order of the source, those on pages that the scan never requested
    included. *)
Theorem ascending_source_scan_is_exact
    (fuel : nat) (es : list Event) (results : list StaleRepo.t) :
  ascending w (stream w options fuel None) = true ->
  fetchStaleRepos w options ignoreList fuel = (es, Ret results) ->
  Forall2 (built_from w)
          (List.filter (qualifies w options ignoreList)
                       (stream w options fuel None)) results.
Proof.
  unfold fetchStaleRepos. intros Hasc H.
  by destruct (while_exact fuel initial es results eq_refl H Hasc)
    as (new & -> & Hall).
Qed.

End AscendingStream.

(** The demo organisation is in ascending order; of its six candidates,
    [alpha] and [empty] qualify, and the scan, which stops at the third of
    the four pages, returns their two records. *)
Lemma ascending_source_witness :
  Forall2 (built_from Demo.world) [Demo.alpha; Demo.empty]
          [Demo.alpha_record; Demo.empty_record].
Proof.
  apply (ascending_source_scan_is_exact
           Demo.world Demo.options Demo.ignoreList 5
           [Fetch (request Demo.options None);
            ConsoleLog "Ignoring legacy";
            Fetch (request Demo.options (Some "c1"));
            Fetch (request Demo.options (Some "c2"))]).
  - vm_compute. reflexivity.
  - vm_compute. reflexivity.
Defined.

(** ** The requests of a scan *)

Section RequestChain.

Context (w : World) (options : Options) (ignoreList : gset string).

Local Abbreviation for_nodes := (for_of_nodes w options ignoreList).
Local Abbreviation while_loop := (while_hasNextPage w options ignoreList).
Local Abbreviation req := (request options).

Lemma requests_app es1 es2 : requests (es1 ++ es2) = requests es1 ++ requests es2.
Proof. apply omap_app. Qed.

Lemma requests_cons r es : requests (Fetch r :: es) = r :: requests es.
Proof. reflexivity. Qed.

Lemma requests_notes es : Forall (ignoring ignoreList) es -> requests es = [].
Proof.
  induction 1 as [| e es (name & _ & ->) _ IH]; [done |]. exact IH.
Qed.

Lemma requests_for_nodes l st : requests (trace (for_nodes l st)) = [].
Proof. apply requests_notes, for_nodes_trace. Qed.

Lemma while_chained fuel st :
  chained w options ignoreList (Loop.cursor st) (requests (trace (while_loop fuel st))).
Proof.
  revert st. induction fuel as [| fuel IH]; intros st.
  { simpl. by destruct (Loop.hasNextPage st). }
  destruct (Loop.hasNextPage st) eqn:Hn.
  2:{ by rewrite while_done. }
  rewrite while_step by done.
  destruct (fetch w (req (Loop.cursor st))) as [| text | [repos |]] eqn:Hf.
  - rewrite body_throws by auto. simpl. split; [done | by left].
  - rewrite body_NotOk with (text := text) by done. simpl. split; [done | by left].
  - rewrite body_page with (repos := repos) by done.
    pose proof (requests_for_nodes (nodes repos) st) as Hnone.
    destruct (for_nodes (nodes repos) st) as [es' [st' | c | e |]] eqn:Hfor;
      cbn [trace fst] in Hnone; cbn [trace outcome fst snd].
    + rewrite bind_pair. cbn [trace fst].
      rewrite requests_app, requests_cons, Hnone. cbn [app chained].
      split; [done |].
      destruct (for_nodes_Ret _ _ _ _ _ _ _ Hfor) as (Hc & Hn' & _ & _).
      rewrite Hn in Hn'. simpl in Hn'.
      destruct (Loop.hasNextPage (advance repos st')) eqn:Hadv.
      2:{ left. by rewrite while_done. }
      right. exists repos. unfold advance in Hadv |- *.
      destruct (Loop.hasNextPage st') eqn:Hst'; [| congruence].
      simpl in Hadv. symmetry in Hn'. apply negb_true_iff in Hn'.
      repeat split; [done | done | done |].
      specialize (IH {| Loop.cursor := endCursor (pageInfo repos);
                        Loop.hasNextPage := hasNextPage (pageInfo repos);
                        Loop.staleRepos := Loop.staleRepos st' |}).
      exact IH.
    + cbn [bind trace fst]. rewrite requests_cons, Hnone. split; [done | by left].
    + cbn [bind trace fst]. rewrite requests_cons, Hnone. split; [done | by left].
    + cbn [bind trace fst]. rewrite requests_cons, Hnone. split; [done | by left].
  - rewrite body_throws by auto. simpl. split; [done | by left].
Qed.

(** X3.  The requests of a scan follow the cursors of the source: the first
    request carries no cursor, and every later request carries the end
    cursor of the page that answered the request before it, a page that held
    no stopping candidate and announced another page.  All requests name the
    organisation and the token of the command line. *)
Theorem requests_follow_the_cursors (fuel : nat) :
  chained w options ignoreList None
    (requests (trace (fetchStaleRepos w options ignoreList fuel))).
Proof. apply (while_chained fuel initial). Qed.

End RequestChain.

(** ** The token in the current program *)

Section TokenUse.

Context (w : World).

Lemma alike_refl {A} (m : M A) : alike m m.
Proof. by split. Qed.

Lemma alike_bind {A B} (m1 m2 : M A) (k1 k2 : A -> M B) :
  alike m1 m2 -> (∀ a, alike (k1 a) (k2 a)) -> alike (bind m1 k1) (bind m2 k2).
Proof.
  destruct m1 as [es1 o1], m2 as [es2 o2]. intros [Hes Ho] Hk.
  cbn [trace outcome fst snd] in Hes, Ho. subst o2.
  destruct o1 as [a | c | e |]; try by split.
  rewrite !bind_pair. destruct (Hk a) as [Ht Ho].
  split; cbn [trace outcome fst snd]; [| done]. by rewrite !map_app, Hes, Ht.
Qed.

Lemma for_nodes_options o1 o2 ignoreList l st :
  staleDays o1 = staleDays o2 ->
  commitThreshold o1 = commitThreshold o2 ->
  for_of_nodes w o1 ignoreList l st = for_of_nodes w o2 ignoreList l st.
Proof.
  intros H1 H2. revert st. induction l as [| repo rest IH]; intros st; [done |].
  simpl. unfold cutoffDate. rewrite H1, H2.
  destruct (bool_decide (Repo.name repo ∈ ignoreList)); [by rewrite IH |].
  destruct (isAfter _ _); [done |].
  destruct (_ && _); [| apply IH].
  apply bind_ext. intros r. apply IH.
Qed.

Lemma while_alike o1 o2 ignoreList fuel st :
  (∀ r r', var_org r = var_org r' -> var_cursor r = var_cursor r' ->
           fetch w r = fetch w r') ->
  org o1 = org o2 ->
  staleDays o1 = staleDays o2 ->
  commitThreshold o1 = commitThreshold o2 ->
  alike (while_hasNextPage w o1 ignoreList fuel st)
        (while_hasNextPage w o2 ignoreList fuel st).
Proof.
  intros Hsrc Horg H1 H2. revert st.
  induction fuel as [| fuel IH]; intros st; [apply alike_refl |].
  destruct (Loop.hasNextPage st) eqn:Hn.
  2:{ rewrite !while_done by done. apply alike_refl. }
  rewrite !while_step by done. apply alike_bind; [| apply IH].
  unfold loop_body. apply alike_bind.
  - unfold do_fetch. rewrite !bind_emit. split; simpl.
    + by rewrite Horg.
    + f_equal. apply Hsrc; simpl; by rewrite ?Horg.
  - intros [| text | [repos |]]; try apply alike_refl.
    rewrite (for_nodes_options o1 o2) by done. apply alike_refl.
Qed.

(** X4.  In the current program the token reaches nothing but the
    authorization header of the requests: for a source whose answers do not
    depend on that header, two runs that differ only in their (non-empty)
    token end the same way and produce the same events, request for request,
    once the authorization header is blanked.  In particular they write the
    same lines to standard output. *)
Theorem token_reaches_only_the_authorization_header
    (options : Options) (tok tok' : string) (fuel : nat) :
  (∀ r r', var_org r = var_org r' -> var_cursor r = var_cursor r' ->
           fetch w r = fetch w r') ->
  tok ≠ "" -> tok' ≠ "" ->
  alike (main w (with_token tok options) fuel)
        (main w (with_token tok' options) fuel) ∧
  stdout (trace (main w (with_token tok options) fuel)) =
  stdout (trace (main w (with_token tok' options) fuel)).
Proof.
  intros Hsrc Htok Htok'.
  assert (H : alike (main w (with_token tok options) fuel)
                    (main w (with_token tok' options) fuel)).
  { unfold main. rewrite !truthy_with_token by done. cbn [negb].
    apply alike_bind; [apply alike_refl |]. intros _.
    apply alike_bind; [apply alike_refl |]. intros ignoreList.
    apply alike_bind.
    - unfold fetchStaleRepos. by apply while_alike.
    - intros results. apply alike_refl. }
  split; [exact H |]. destruct H as [Ht _]. revert Ht.
  generalize (trace (main w (with_token tok options) fuel)),
             (trace (main w (with_token tok' options) fuel)).
  induction l as [| e es IH]; intros [| e' es']; try done.
  cbn [map]. intros [= He Hes]. specialize (IH _ Hes).
  destruct e, e'; try done; simpl in *; by rewrite ?IH; injection He as ->.
Qed.

End TokenUse.

(** The demo source looks at the cursor only; the token of the demo does
    not show on standard output. *)
Lemma token_in_header_witness :
  stdout (trace (main Demo.world (with_token "ghp_secret" Demo.options) 5)) =
  stdout (trace (main Demo.world (with_token "ghp_other" Demo.options) 5)).
Proof.
  apply (token_reaches_only_the_authorization_header
           Demo.world Demo.options "ghp_secret" "ghp_other" 5).
  - intros r r' _ Hc. simpl. unfold Demo.pages. by rewrite Hc.
  - discriminate.
  - discriminate.
Defined.

(** ** The ways a run ends, and the files it touches *)

Section Endings.

Context (w : World) (options : Options).

Local Abbreviation req := (request options).
Local Abbreviation scan fuel :=
  (fetchStaleRepos w options (loaded_ignore_list w options) fuel).


(** A run with a token: the banner, the reading of the ignore list, the
    scan, and the report. *)
Lemma main_run fuel :
  Js.truthy (token options) = true ->
  main w options fuel =
  (ConsoleLog (banner options) :: ignore_reads options ++
     trace (results <- scan fuel;;
            if (length results =? 0)%nat then console_log none_found;; exit 0
            else console_log (found results);; render options results),
   outcome (results <- scan fuel;;
            if (length results =? 0)%nat then console_log none_found;; exit 0
            else console_log (found results);; render options results)).
Proof.
  intros Htok. unfold main. rewrite Htok. cbn [negb].
  assert (Hload : (if Js.truthy (ignore options)
                   then readIgnoreList w (default "" (ignore options))
                   else ret ∅) =
                  (ignore_reads options, Ret (loaded_ignore_list w options))).
  { unfold loaded_ignore_list, ignore_reads.
    destruct (Js.truthy (ignore options)); [| done].
    unfold readIgnoreList. rewrite bind_emit.
    by destruct (readTextFile w (default "" (ignore options))). }
  rewrite bind_console_log, Hload, bind_pair. reflexivity.
Qed.

Lemma main_without_token fuel :
  Js.truthy (token options) = false ->
  main w options fuel = ([ConsoleError token_required], Exit 1).
Proof. intros Htok. unfold main. by rewrite Htok. Qed.


Lemma while_scan_events ignoreList fuel st :
  Forall scan_event (trace (while_hasNextPage w options ignoreList fuel st)).
Proof.
  revert st. induction fuel as [| fuel IH]; intros st.
  { simpl. destruct (Loop.hasNextPage st); constructor. }
  destruct (Loop.hasNextPage st) eqn:Hn.
  2:{ rewrite while_done by done. constructor. }
  rewrite while_step by done.
  assert (Hnotes : ∀ l st0, Forall scan_event
                     (trace (for_of_nodes w options ignoreList l st0))).
  { intros l st0. eapply Forall_impl; [apply for_nodes_trace |].
    by intros e (name & _ & ->). }
  destruct (fetch w (req (Loop.cursor st))) as [| text | [repos |]] eqn:Hf.
  - rewrite body_throws by auto. by repeat constructor.
  - rewrite body_NotOk with (text := text) by done. by repeat constructor.
  - rewrite body_page with (repos := repos) by done.
    specialize (Hnotes (nodes repos) st).
    destruct (for_of_nodes w options ignoreList (nodes repos) st)
      as [es' [st' | c | e |]]; cbn [trace outcome fst snd] in *;
      try (by constructor).
    rewrite bind_pair. cbn [trace fst]. constructor; [done |].
    apply Forall_app. split; [done | apply IH].
  - rewrite body_throws by auto. by repeat constructor.
Qed.


(** X6.  The files of a run.  The only file read is the one named by
    [--ignore]; a file is written only when [--csv] names it and [--json] is
    not given, and then the scan returned at least one record and the
    content is the header line followed by one line per record; the CSV
    writer of the first version is never used. *)
Theorem files_of_a_run (fuel : nat) (e : Event) :
  e ∈ trace (main w options fuel) ->
  match e with
  | ReadTextFile path => ignore options = Some path ∧ path ≠ ""
  | WriteTextFile path content =>
      json options = false ∧ csv options = Some path ∧ path ≠ "" ∧
      ∃ results,
        outcome (scan fuel) = Ret results ∧ results ≠ [] ∧
        content = join_items LF (csv_header :: map csv_line results)
  | WriteCSV _ _ => False
  | _ => True
  end.
Proof.
  destruct (Js.truthy (token options)) eqn:Htok.
  2:{ rewrite main_without_token by done. by intros ->%list_elem_of_singleton. }
  rewrite main_run by done. cbn [trace fst].
  intros [-> | [Hin | Hin]%elem_of_app]%elem_of_cons; [done | |].
  { unfold ignore_reads in Hin. destruct (ignore options) as [path |]; simpl in Hin.
    - destruct (String.eqb path "") eqn:Hp; simpl in Hin;
        [by apply elem_of_nil in Hin |].
      apply list_elem_of_singleton in Hin as ->. split; [done |].
      by apply String.eqb_neq.
    - by apply elem_of_nil in Hin. }
  pose proof (while_scan_events (loaded_ignore_list w options) fuel initial)
    as Hkinds.
  fold (scan fuel) in Hkinds.
  destruct (scan fuel) as [es_f o_f] eqn:Hscan. cbn [trace fst] in Hkinds.
  rewrite Forall_forall in Hkinds.
  assert (Hscan_e : e ∈ es_f ->
            match e with
            | ReadTextFile path => ignore options = Some path ∧ path ≠ ""
            | WriteTextFile path content =>
                json options = false ∧ csv options = Some path ∧ path ≠ "" ∧
                ∃ results,
                  Ret results = o_f ∧ results ≠ [] ∧
                  content = join_items LF (csv_header :: map csv_line results)
            | WriteCSV _ _ => False
            | _ => True
            end).
  { intros He. specialize (Hkinds _ He). by destruct e. }
  destruct o_f as [results | c | err |];
    try (cbn [bind trace fst] in Hin; specialize (Hscan_e Hin);
         destruct e; try done;
         by destruct Hscan_e as (_ & _ & _ & ? & ? & _)).
  cbn [outcome snd].
  assert (Hscan_e' : e ∈ es_f -> scan_event e) by apply Hkinds.
  clear Hscan_e.
  rewrite bind_pair in Hin. cbn [trace fst] in Hin.
  apply elem_of_app in Hin as [Hin | Hin].
  { specialize (Hscan_e' Hin). by destruct e. }
  destruct results as [| r results].
  { simpl in Hin. by apply list_elem_of_singleton in Hin as ->. }
  cbn [length Nat.eqb] in Hin. rewrite bind_console_log in Hin.
  cbn [trace fst] in Hin. apply elem_of_cons in Hin as [-> | Hin]; [done |].
  unfold render in Hin. destruct (json options) eqn:Hjson.
  { by apply list_elem_of_singleton in Hin as ->. }
  destruct (csv options) as [path |] eqn:Hcsv; simpl in Hin.
  2:{ by apply list_elem_of_singleton in Hin as ->. }
  destruct (String.eqb path "") eqn:Hp; simpl in Hin.
  { by apply list_elem_of_singleton in Hin as ->. }
  apply elem_of_cons in Hin as [-> | ->%list_elem_of_singleton]; [| done].
  split; [done |]. split; [done |]. split; [by apply String.eqb_neq |].
  by exists (r :: results).
Qed.

End Endings.


(** The demo run asking for a CSV file writes that file, with the header and
    the lines of its two records. *)
Lemma files_witness :
  json Demo.csv_options = false ∧ csv Demo.csv_options = Some "stale.csv" ∧
  "stale.csv" ≠ "" ∧
  ∃ results,
    outcome (fetchStaleRepos Demo.world Demo.csv_options
               (loaded_ignore_list Demo.world Demo.csv_options) 5) = Ret results ∧
    results ≠ [] ∧
    join_items LF (csv_header ::
                   map csv_line [Demo.alpha_record; Demo.empty_record]) =
    join_items LF (csv_header :: map csv_line results).
Proof.
  apply (files_of_a_run Demo.world Demo.csv_options 5
           (WriteTextFile "stale.csv"
              (join_items LF (csv_header ::
                              map csv_line [Demo.alpha_record; Demo.empty_record])))).
  apply list_elem_of_lookup_2 with 7%nat. vm_compute. reflexivity.
Defined.

(** ** Lines and white space: the ignore file and the CSV file *)

Lemma no_LF_app a b : no_LF (a +:+ b) = no_LF a && no_LF b.
Proof.
  induction a as [| c a IH]; [done |].
  change (negb (Ascii.eqb c "010"%char) && no_LF (a +:+ b) =
          negb (Ascii.eqb c "010"%char) && no_LF a && no_LF b).
  by rewrite IH, andb_assoc.
Qed.


Lemma split_LF_single a : no_LF a = true -> split_LF a = [a].
Proof.
  induction a as [| c a IH]; [done |]. simpl.
  intros [Hc Ha]%andb_true_iff. apply negb_true_iff in Hc.
  by rewrite Hc, (IH Ha).
Qed.

Lemma split_LF_app a b :
  no_LF a = true -> split_LF (a +:+ String "010" b) = a :: split_LF b.
Proof.
  induction a as [| c a IH]; [done |]. simpl.
  intros [Hc Ha]%andb_true_iff. apply negb_true_iff in Hc.
  by rewrite Hc, (IH Ha).
Qed.

Lemma split_join_LF lines :
  lines ≠ [] ->
  Forall (fun line => no_LF line = true) lines ->
  split_LF (join_items LF lines) = lines.
Proof.
  induction lines as [| x [| y lines] IH]; intros Hne Hall; [done | |].
  - apply Forall_cons in Hall as [Hx _]. by apply split_LF_single.
  - apply Forall_cons in Hall as [Hx Hrest].
    change (split_LF (x +:+ String "010" (join_items LF (y :: lines))) =
            x :: y :: lines).
    rewrite split_LF_app by done. f_equal. by apply IH.
Qed.









Lemma all_digits_no_LF s : all_digits s = true -> no_LF s = true.
Proof.
  induction s as [| c s IH]; [done |]. simpl.
  intros [Hc Hs]%andb_true_iff. rewrite (IH Hs), andb_true_r.
  apply negb_true_iff, Ascii.eqb_neq. intros ->. discriminate Hc.
Qed.

Lemma Number_toString_no_LF n : no_LF (Number_toString n) = true.
Proof.
  assert (Hd : ∀ d, no_LF (NilZero.string_of_uint d) = true).
  { intros d. apply all_digits_no_LF.
    destruct d; [reflexivity | ..];
      match goal with
      | |- all_digits (NilZero.string_of_uint ?x) = true =>
          exact (string_of_uint_digits x)
      end. }
  unfold Number_toString. destruct n as [| p | p]; [done | |].
  - change (no_LF (NilZero.string_of_uint (Pos.to_uint p)) = true). apply Hd.
  - change (no_LF (String "-" (NilZero.string_of_uint (Pos.to_uint p))) = true).
    cbn [no_LF]. by rewrite Hd.
Qed.

Lemma csv_line_no_LF r : single_line r = true -> no_LF (csv_line r) = true.
Proof.
  unfold single_line, csv_line.
  intros [[[[[H1 H2]%andb_true_iff H3]%andb_true_iff H4]%andb_true_iff
             H5]%andb_true_iff H6]%andb_true_iff.
  rewrite !no_LF_app, H1, H2, H3, H4, H5, H6, Number_toString_no_LF.
  reflexivity.
Qed.

(** X9.  The CSV file of the current program has one line per record after
    its header line, in the order of the results, as long as no text field
    of a record holds a line feed: splitting the written content at the line
    feeds gives the header followed by the lines of the records. *)
Theorem csv_file_has_one_line_per_record (results : list StaleRepo.t) :
  Forall (fun r => single_line r = true) results ->
  split_LF (join_items LF (csv_header :: map csv_line results)) =
  csv_header :: map csv_line results.
Proof.
  intros Hall. apply split_join_LF; [done |].
  constructor; [reflexivity |].
  apply Forall_fmap. eapply Forall_impl; [exact Hall |].
  intros r Hr. by apply csv_line_no_LF.
Qed.

(** The CSV file of the demo has three lines. *)
Lemma csv_file_witness :
  split_LF (join_items LF (csv_header ::
                           map csv_line [Demo.alpha_record; Demo.empty_record])) =
  csv_header :: map csv_line [Demo.alpha_record; Demo.empty_record].
Proof.
  apply (csv_file_has_one_line_per_record [Demo.alpha_record; Demo.empty_record]).
  repeat constructor.
Defined.

(** ** The earlier versions *)

Section EarlierVersions.

Context (w : World) (options : Options).

Local Abbreviation req := (request options).
Local Abbreviation low_stale := (stale_and_low w options).

Lemma V1_while_step fuel cursor acc :
  V1.while_true w options (S fuel) cursor acc =
  (Fetch (req cursor) ::
     trace (match fetch w (req cursor) with
            | NetworkFailure => throw Js.TypeError
            | NotOk text =>
                console_error ("❌ GitHub API error: " +:+ text);; exit 1
            | Ok None => throw Js.TypeError
            | Ok (Some repos) =>
                acc' <- V1.for_of_nodes w options (nodes repos) acc;;
                if negb (hasNextPage (pageInfo repos)) then ret acc'
                else V1.while_true w options fuel (endCursor (pageInfo repos)) acc'
            end),
   outcome (match fetch w (req cursor) with
            | NetworkFailure => throw Js.TypeError
            | NotOk text =>
                console_error ("❌ GitHub API error: " +:+ text);; exit 1
            | Ok None => throw Js.TypeError
            | Ok (Some repos) =>
                acc' <- V1.for_of_nodes w options (nodes repos) acc;;
                if negb (hasNextPage (pageInfo repos)) then ret acc'
                else V1.while_true w options fuel (endCursor (pageInfo repos)) acc'
            end)).
Proof. cbn [V1.while_true]. by rewrite bind_do_fetch. Qed.


(** The pass of the first version over a page never fails and writes
    nothing: it keeps the stale candidates with few commits, in order. *)
Lemma V1_for_nodes l acc :
  V1.for_of_nodes w options l acc =
  ret (acc ++ map (V1_record w) (List.filter low_stale l)).
Proof.
  revert acc. induction l as [| repo rest IH]; intros acc.
  { simpl. by rewrite app_nil_r. }
  cbn [V1.for_of_nodes List.filter]. unfold stale_and_low at 1.
  destruct (isBefore (parseISO w (Repo.pushedAt repo)) (cutoffDate w options)
            && (totalCommits_of repo <? commitThreshold options)) eqn:Hq.
  - apply andb_true_iff in Hq as [Hb _]. cbn [map]. unfold V1_record at 1.
    destruct (parseISO w (Repo.pushedAt repo)) as [t |]; [| done].
    cbn [format]. rewrite bind_ret_l, IH. by rewrite <- app_assoc.
  - apply IH.
Qed.

Lemma V1_while_Ret fuel cursor acc es results :
  V1.while_true w options fuel cursor acc = (es, Ret results) ->
  results =
  acc ++ map (V1_record w) (List.filter low_stale (stream w options fuel cursor)).
Proof.
  revert cursor acc es. induction fuel as [| fuel IH]; intros cursor acc es;
    [done |].
  rewrite V1_while_step. cbn [stream].
  destruct (fetch w (req cursor)) as [| text | [repos |]]; try done.
  rewrite V1_for_nodes, bind_ret_l.
  destruct (hasNextPage (pageInfo repos)); cbn [negb].
  - destruct (V1.while_true w options fuel (endCursor (pageInfo repos)) _)
      as [es' o'] eqn:Hw. cbn [trace outcome fst snd]. intros [= <- ->].
    apply IH in Hw as ->. by rewrite <- app_assoc, List.filter_app, map_app.
  - cbn [trace outcome ret fst snd]. intros [= <- <-]. by rewrite app_nil_r.
Qed.

(** X10.  The first version reports every stale candidate with few commits
    that the source holds, and nothing else: when its scan returns, the
    results are the records of those candidates, in the order of the source,
    over all pages that the end cursors lead to.  Its pass over a page
    cannot fail. *)
Theorem first_version_reports_every_stale_candidate
    (fuel : nat) (es : list Event) (results : list V1.StaleRepo) :
  V1.fetchStaleRepos w options fuel = (es, Ret results) ->
  results =
  map (V1_record w) (List.filter low_stale (stream w options fuel None)) ∧
  ∀ l acc, V1.for_of_nodes w options l acc =
           ret (acc ++ map (V1_record w) (List.filter low_stale l)).
Proof.
  intros H. split; [| apply V1_for_nodes].
  unfold V1.fetchStaleRepos in H. by apply V1_while_Ret in H.
Qed.





End EarlierVersions.

(** The first version on the demo source that answers every cursor: it has
    no ignore list, so [legacy] is reported with [alpha] and [empty]. *)
Lemma first_version_witness :
  map V1.name (map (V1_record Demo.finite)
                   (List.filter (stale_and_low Demo.finite Demo.options)
                                (stream Demo.finite Demo.options 5 None))) =
  ["legacy"; "alpha"; "empty"].
Proof.
  destruct (first_version_reports_every_stale_candidate
              Demo.finite Demo.options 5 _ _ eq_refl) as [<- _].
  vm_compute. reflexivity.
Defined.


(** ** The current version against the second one *)

Section Refinement.

Context (w : World) (options : Options).

Local Abbreviation req := (request options).
Local Abbreviation low_stale := (stale_and_low w options).
Local Abbreviation for_nodes := (for_of_nodes w options ∅).
Local Abbreviation while_loop := (while_hasNextPage w options ∅).

Lemma ignored_empty repo : ignored ∅ repo = false.
Proof. unfold ignored. apply bool_decide_eq_false, not_elem_of_empty. Qed.

Lemma qualifies_empty repo : qualifies w options ∅ repo = low_stale repo.
Proof. unfold qualifies, stale_and_low. by rewrite ignored_empty. Qed.








End Refinement.


(** ** What the ignore list changes *)

Section IgnoreEffect.

Context (w : World) (options : Options) (ignoreList : gset string).

Lemma built_from_functional repo r r' :
  built_from w repo r -> built_from w repo r' -> r = r'.
Proof. unfold built_from. intros -> [= ->]. done. Qed.

Lemma Forall2_built_eq l rs rs' :
  Forall2 (built_from w) l rs -> Forall2 (built_from w) l rs' -> rs = rs'.
Proof.
  intros H. revert rs'. induction H as [| x r l rs Hx _ IH]; intros rs' H'.
  - by inversion H'.
  - inversion H' as [| ? r' ? rs'' Hx' Hrest]; subst.
    f_equal; [by eapply built_from_functional | by apply IH].
Qed.

Lemma Forall2_built_filter l rs :
  Forall2 (built_from w) l rs ->
  Forall2 (built_from w)
    (List.filter (fun repo => negb (ignored ignoreList repo)) l)
    (List.filter (fun r => negb (bool_decide (StaleRepo.name r ∈ ignoreList))) rs).
Proof.
  induction 1 as [| x r l rs Hx _ IH]; [constructor |].
  cbn [List.filter]. destruct (built_from_fields _ _ _ Hx) as (Hname & _).
  unfold ignored at 1. rewrite Hname.
  destruct (bool_decide (Repo.name x ∈ ignoreList)); cbn [negb]; [done |].
  by constructor.
Qed.

Lemma filter_qualifies l :
  List.filter (qualifies w options ignoreList) l =
  List.filter (fun repo => negb (ignored ignoreList repo))
              (List.filter (qualifies w options ∅) l).
Proof.
  induction l as [| x l IH]; [done |]. cbn [List.filter].
  rewrite qualifies_empty. unfold qualifies at 1, stale_and_low.
  rewrite <- andb_assoc.
  destruct (isBefore _ _ && (_ <? _)); cbn [List.filter].
  - rewrite andb_true_r. destruct (negb (ignored ignoreList x)); by rewrite IH.
  - by rewrite andb_false_r.
Qed.

(** X13.  On a source in ascending order the ignore list removes the
    records of the listed names and changes nothing else: the results of a
    scan are the results of the scan without ignore list, less the records
    whose name is listed. *)
Theorem ignore_list_only_removes_the_listed_names
    (fuel : nat) (es es0 : list Event) (results results0 : list StaleRepo.t) :
  ascending w (stream w options fuel None) = true ->
  fetchStaleRepos w options ignoreList fuel = (es, Ret results) ->
  fetchStaleRepos w options ∅ fuel = (es0, Ret results0) ->
  results =
  List.filter (fun r => negb (bool_decide (StaleRepo.name r ∈ ignoreList)))
              results0.
Proof.
  unfold fetchStaleRepos. intros Hasc H H0.
  destruct (while_exact w options ignoreList fuel initial es results eq_refl H Hasc)
    as (new & -> & Hall).
  destruct (while_exact w options ∅ fuel initial es0 results0 eq_refl H0 Hasc)
    as (new0 & -> & Hall0).
  cbn [initial Loop.staleRepos Loop.cursor app] in *.
  rewrite filter_qualifies in Hall.
  apply Forall2_built_filter in Hall0.
  by eapply Forall2_built_eq.
Qed.

End IgnoreEffect.

(** Without ignore list the demo scan also reports [legacy]; the ignore
    list of the demo removes that record and no other. *)
Lemma ignore_list_witness :
  [Demo.alpha_record; Demo.empty_record] =
  List.filter (fun r => negb (bool_decide (StaleRepo.name r ∈ Demo.ignoreList)))
    (match outcome (fetchStaleRepos Demo.world Demo.options ∅ 5) with
     | Ret results0 => results0
     | _ => []
     end).
Proof.
  apply (ignore_list_only_removes_the_listed_names
           Demo.world Demo.options Demo.ignoreList 5
           (trace (fetchStaleRepos Demo.world Demo.options Demo.ignoreList 5))
           (trace (fetchStaleRepos Demo.world Demo.options ∅ 5))).
  - vm_compute. reflexivity.
  - vm_compute. reflexivity.
  - vm_compute. reflexivity.
Defined.

(** ** The author columns and the cutoff *)

Lemma or_str_nonempty a b : b ≠ "" -> Js.or_str a b ≠ "".
Proof.
  intros Hb. destruct a as [s |]; simpl; [| done].
  destruct (String.eqb s "") eqn:Hs; [done |]. by apply String.eqb_neq.
Qed.

(** X14.  The author and the email of a record are never empty: whatever
    the source reports for the last commit, absent or empty values are
    replaced, in the end by the word unknown.  This holds for every record
    that a scan returns. *)
Theorem author_and_email_are_never_empty
    (w : World) (options : Options) (ignoreList : gset string) (fuel : nat)
    (results : list StaleRepo.t) :
  outcome (fetchStaleRepos w options ignoreList fuel) = Ret results ->
  Forall (fun r => StaleRepo.lastCommitAuthor r ≠ "" ∧
                   StaleRepo.lastCommitAuthorEmail r ≠ "") results.
Proof.
  unfold fetchStaleRepos.
  destruct (while_hasNextPage w options ignoreList fuel initial) as [es o] eqn:H.
  simpl. intros ->. apply while_Ret in H as (new & -> & Hall). simpl.
  eapply Forall_impl; [exact Hall |].
  intros r (repo & _ & Hb & _).
  apply make_record_inv in Hb as (t & t' & _ & _ & ->).
  split; by apply or_str_nonempty.
Qed.

Lemma author_and_email_witness :
  Forall (fun r => StaleRepo.lastCommitAuthor r ≠ "" ∧
                   StaleRepo.lastCommitAuthorEmail r ≠ "")
         [Demo.alpha_record; Demo.empty_record].
Proof.
  apply (author_and_email_are_never_empty
           Demo.world Demo.options Demo.ignoreList 5).
  vm_compute. reflexivity.
Defined.

(** X15.  In a time zone whose offset never changes the cutoff lies whole
    days before the start of the run: [staleDays] times 24 hours, to the
    millisecond, as long as that instant is a time value of ECMAScript. *)
Theorem cutoff_is_whole_days_before_now
    (w : World) (options : Options) (offset : Z) :
  (∀ t isUTC, LocalTZA w t isUTC = offset) ->
  Z.abs (now w - staleDays options * msPerDay) <= 8640000000000000 ->
  cutoffDate w options = Some (now w - staleDays options * msPerDay).
Proof.
  intros Hzone Hrange. unfold cutoffDate, subDays, addDays.
  destruct (- staleDays options =? 0) eqn:Hdays.
  - apply Z.eqb_eq in Hdays. f_equal. lia.
  - unfold LocalTime. rewrite !Hzone.
    replace (now w + offset + - staleDays options * msPerDay - offset)
      with (now w - staleDays options * msPerDay) by lia.
    unfold TimeClip. by apply Z.leb_le in Hrange as ->.
Qed.

Lemma cutoff_witness :
  cutoffDate Demo.world Demo.options = Some 1734448000000.
Proof.
  apply (cutoff_is_whole_days_before_now Demo.world Demo.options 0).
  - reflexivity.
  - vm_compute. discriminate.
Defined.

(** ** An ignore file that cannot be read *)

Section UnreadableIgnoreFile.

Context (w : World).

Lemma while_same o1 o2 ignoreList fuel st :
  org o1 = org o2 -> token o1 = token o2 ->
  staleDays o1 = staleDays o2 -> commitThreshold o1 = commitThreshold o2 ->
  while_hasNextPage w o1 ignoreList fuel st =
  while_hasNextPage w o2 ignoreList fuel st.
Proof.
  intros Horg Htok H1 H2. revert st.
  induction fuel as [| fuel IH]; intros st; [done |].
  destruct (Loop.hasNextPage st) eqn:Hn.
  2:{ by rewrite !while_done. }
  rewrite !while_step by done.
  assert (Hbody : loop_body w o1 ignoreList st = loop_body w o2 ignoreList st).
  { unfold loop_body, do_fetch, request, bearer. rewrite Horg, Htok.
    apply bind_ext. intros [| text | [repos |]]; try done.
    by rewrite (for_nodes_options w o1 o2). }
  rewrite Hbody. apply bind_ext. intros st'. apply IH.
Qed.

Lemma render_no_read options results :
  Forall (fun e => is_read e = false) (trace (render options results)).
Proof.
  unfold render. destruct (json options); [by repeat constructor |].
  destruct (Js.truthy (csv options)); [| by repeat constructor].
  rewrite bind_emit. by repeat constructor.
Qed.

Lemma scan_no_read options ignoreList fuel :
  Forall (fun e => is_read e = false)
         (trace (fetchStaleRepos w options ignoreList fuel)).
Proof.
  eapply Forall_impl; [apply while_scan_events |]. by intros [].
Qed.

Lemma filter_no_read es :
  Forall (fun e => is_read e = false) es ->
  List.filter (fun e => negb (is_read e)) es = es.
Proof.
  induction 1 as [| e es He _ IH]; [done |]. simpl. by rewrite He, IH.
Qed.

(** X16.  An ignore file that cannot be read counts as an empty one, and
    silently: the run ends as it does without the [--ignore] option and
    produces the same events, the attempt to read the file apart. *)
Theorem unreadable_ignore_file_is_an_empty_one
    (options : Options) (path : string) (fuel : nat) :
  readTextFile w path = None ->
  outcome (main w (with_ignore (Some path) options) fuel) =
  outcome (main w (with_ignore None options) fuel) ∧
  List.filter (fun e => negb (is_read e))
              (trace (main w (with_ignore (Some path) options) fuel)) =
  trace (main w (with_ignore None options) fuel).
Proof.
  intros Hread. destruct (Js.truthy (token options)) eqn:Htok.
  2:{ by rewrite !main_without_token. }
  rewrite !main_run by done.
  assert (Hnone : loaded_ignore_list w (with_ignore None options) = ∅) by done.
  assert (Hsome : loaded_ignore_list w (with_ignore (Some path) options) = ∅).
  { unfold loaded_ignore_list, readIgnoreList. cbn [with_ignore ignore Js.truthy].
    destruct (negb (String.eqb path "")); [| done].
    rewrite bind_emit. simpl. by rewrite Hread. }
  rewrite Hnone, Hsome.
  assert (Hscan : fetchStaleRepos w (with_ignore (Some path) options) ∅ fuel =
                  fetchStaleRepos w (with_ignore None options) ∅ fuel).
  { by apply while_same. }
  rewrite Hscan. cbn [trace outcome fst snd]. split; [done |].
  cbn [List.filter is_read negb]. f_equal. rewrite List.filter_app.
  assert (Hreads : List.filter (fun e => negb (is_read e))
                     (ignore_reads (with_ignore (Some path) options)) = []).
  { unfold ignore_reads.
    destruct (Js.truthy (ignore (with_ignore (Some path) options))); reflexivity. }
  rewrite Hreads. change (ignore_reads (with_ignore None options)) with (@nil Event).
  cbn [app]. apply filter_no_read.
  pose proof (scan_no_read (with_ignore None options) ∅ fuel) as Hs.
  destruct (fetchStaleRepos w (with_ignore None options) ∅ fuel) as [es_f o_f].
  cbn [trace fst] in Hs.
  destruct o_f as [results | c | e |]; try (cbn [bind trace fst]; exact Hs).
  rewrite bind_pair. cbn [trace fst]. apply Forall_app. split; [done |].
  destruct (length results =? 0)%nat; rewrite bind_console_log;
    (constructor; [done |]); [constructor | apply render_no_read].
Qed.

End UnreadableIgnoreFile.

(** The demo world has no file [missing.txt]: the run that names it reports
    [legacy] like the run without ignore list. *)
Lemma unreadable_ignore_file_witness :
  outcome (main Demo.world (with_ignore (Some "missing.txt") Demo.options) 5) =
  outcome (main Demo.world (with_ignore None Demo.options) 5) ∧
  List.filter (fun e => negb (is_read e))
    (trace (main Demo.world (with_ignore (Some "missing.txt") Demo.options) 5)) =
  trace (main Demo.world (with_ignore None Demo.options) 5).
Proof.
  apply (unreadable_ignore_file_is_an_empty_one
           Demo.world Demo.options "missing.txt" 5).
  vm_compute. reflexivity.
Defined.

(** ** Standard output in JSON mode *)

Section JsonMode.

Context (w : World) (options : Options).

Local Abbreviation req := (request options).
Local Abbreviation scan fuel :=
  (fetchStaleRepos w options (loaded_ignore_list w options) fuel).

Lemma stdout_app es1 es2 : stdout (es1 ++ es2) = stdout es1 ++ stdout es2.
Proof. apply omap_app. Qed.

Lemma stdout_notes ignoreList es :
  Forall (ignoring ignoreList) es ->
  Forall (fun line => ∃ name, name ∈ ignoreList ∧ line = "Ignoring " +:+ name)
         (stdout es).
Proof.
  induction 1 as [| e es (name & Hin & ->) _ IH]; [constructor |].
  constructor; [by exists name | done].
Qed.

Lemma while_stdout ignoreList fuel st :
  Forall (fun line => ∃ name, name ∈ ignoreList ∧ line = "Ignoring " +:+ name)
         (stdout (trace (while_hasNextPage w options ignoreList fuel st))).
Proof.
  revert st. induction fuel as [| fuel IH]; intros st.
  { simpl. destruct (Loop.hasNextPage st); constructor. }
  destruct (Loop.hasNextPage st) eqn:Hn.
  2:{ rewrite while_done by done. constructor. }
  rewrite while_step by done.
  destruct (fetch w (req (Loop.cursor st))) as [| text | [repos |]] eqn:Hf.
  - rewrite body_throws by auto. constructor.
  - rewrite body_NotOk with (text := text) by done. constructor.
  - rewrite body_page with (repos := repos) by done.
    pose proof (stdout_notes _ _ (for_nodes_trace w options ignoreList
                                    (nodes repos) st)) as Hnotes.
    destruct (for_of_nodes w options ignoreList (nodes repos) st)
      as [es' [st' | c | e |]]; cbn [trace outcome fst snd] in *;
      try exact Hnotes.
    rewrite bind_pair. cbn [trace fst].
    change (Fetch (req (Loop.cursor st)) :: es')
      with ([Fetch (req (Loop.cursor st))] ++ es').
    rewrite !stdout_app. cbn [app]. apply Forall_app. split; [done | apply IH].
  - rewrite body_throws by auto. constructor.
Qed.

Lemma banner_is_no_json rest : JSON_parse (banner options +:+ rest) = None.
Proof. reflexivity. Qed.

(** X17.  With [--json] the standard output of a run is not a JSON
    document: it is the banner line, then the notes of the ignored
    candidates, then the line that counts the records, and only then the JSON
    array; and no text that starts with the banner parses as JSON. *)
Theorem json_mode_output_follows_the_banner
    (fuel : nat) (results : list StaleRepo.t) :
  Js.truthy (token options) = true ->
  json options = true ->
  outcome (scan fuel) = Ret results ->
  results ≠ [] ->
  (∃ notes,
     stdout (trace (main w options fuel)) =
       banner options :: notes ++
       [found results; JSON_stringify (json_of_results results)] ∧
     Forall (fun line => ∃ name, name ∈ loaded_ignore_list w options ∧
                                 line = "Ignoring " +:+ name) notes) ∧
  ∀ rest, JSON_parse (banner options +:+ rest) = None.
Proof.
  intros Htok Hjson Hscan Hne. split; [| apply banner_is_no_json].
  rewrite main_run by done. cbn [trace fst].
  pose proof (while_stdout (loaded_ignore_list w options) fuel initial) as Hnotes.
  fold (scan fuel) in Hnotes.
  destruct (scan fuel) as [es_f o_f]. cbn [trace outcome fst snd] in *. subst o_f.
  exists (stdout es_f). split; [| done].
  rewrite bind_pair. cbn [trace fst].
  destruct results as [| r results]; [done |]. cbn [length Nat.eqb].
  rewrite bind_console_log. cbn [trace fst]. unfold render. rewrite Hjson.
  change (ConsoleLog (banner options) :: ignore_reads options ++ es_f ++ _)
    with ([ConsoleLog (banner options)] ++ ignore_reads options ++ es_f ++
          [ConsoleLog (found (r :: results));
           ConsoleLog (JSON_stringify (json_of_results (r :: results)))]).
  rewrite !stdout_app.
  assert (Hreads : stdout (ignore_reads options) = []).
  { unfold ignore_reads. by destruct (Js.truthy (ignore options)). }
  by rewrite Hreads.
Qed.

End JsonMode.

(** The demo run in JSON mode writes the banner, one note, the count and
    the array. *)
Lemma json_mode_witness :
  ∃ notes,
    stdout (trace (main Demo.world Demo.options 5)) =
      banner Demo.options :: notes ++
      [found [Demo.alpha_record; Demo.empty_record];
       JSON_stringify (json_of_results [Demo.alpha_record; Demo.empty_record])] ∧
    Forall (fun line => ∃ name, name ∈ loaded_ignore_list Demo.world Demo.options ∧
                                line = "Ignoring " +:+ name) notes.
Proof.
  apply (json_mode_output_follows_the_banner Demo.world Demo.options 5
           [Demo.alpha_record; Demo.empty_record]).
  - reflexivity.
  - reflexivity.
  - vm_compute. reflexivity.
  - discriminate.
Defined.
